(** * HNSW index of buzzdb (z-hnsw.cpp): a shallow embedding and its properties

    The development follows the source file top to bottom: [Point],
    [euclideanDistance], [Node], the [HNSW] class with [getRandomLevel],
    [insertNode], [searchLayer], [selectNeighbors], [insert] and [search].

    Modelling decisions.
    - [float] is kept abstract: a type [F] with the operations the source
      uses ([+], [-], [*], [std::sqrt], [<]), the class [Float].  Theorems
      that need [<] to behave say which property of it they use.
    - A [Node*] is the ordinal of the allocation that produced the node:
      the n-th [new Node] of an index has reference [n].  [graph.nodes] is
      the list of the nodes in allocation order, so [graph.nodes[i]] is the
      node with reference [i].  While [insertNode] runs, the node being
      inserted already exists (it was allocated by [insert]) and lives one
      past the end of [graph.nodes]; the final [push_back] makes it part of
      the graph.
    - [std::pair<float, Node*>] is compared lexicographically, so ties on the
      distance are broken by comparing the two pointers.  The order of the
      addresses handed out by the allocator is a parameter, the class
      [AddressOrder].
    - A [std::priority_queue] is the list of its elements with [top()] first.
      The model is exact when the comparison is a strict total order on the
      content, which is the case for pairs with distinct node references and
      distances that are not NaN.
    - An access the C++ standard leaves undefined (operator[] past the end of
      a vector, reading through a pointer to no node, [top()] of an empty
      queue) is an outcome of its own, [UndefinedBehaviour].
    - [std::default_random_engine], [std::uniform_real_distribution] and
      [std::log] belong to the standard library; the draw of a level is a
      parameter, the class [RandomEngine], that maps the engine state and
      [levelMult] to the level and the next engine state. *)

From Stdlib Require Import ZArith Lia.
From stdpp Require Import base list gmap strings.

Local Open Scope Z_scope.

(* [set_solver] clears hypotheses that are not always there. *)
#[local] Set Warnings "-clear-no-such-hyp".

(** ** Outcomes *)

Inductive failure : Type :=
| UndefinedBehaviour
| LengthError
| OutOfFuel.

Inductive result (A : Type) : Type :=
| Ok (a : A)
| Err (e : failure).

Arguments Ok {A} a.
Arguments Err {A} e.

Definition bind {A B : Type} (m : result A) (k : A -> result B) : result B :=
  match m with
  | Ok a => k a
  | Err e => Err e
  end.

Notation "x <-- m ;; k" := (bind m (fun x => k))
  (at level 100, m at next level, right associativity).

Fixpoint foldM {A B : Type} (f : A -> B -> result A) (a : A) (l : list B)
  : result A :=
  match l with
  | [] => Ok a
  | b :: l' => a' <-- f a b ;; foldM f a' l'
  end.

(** [v[i]] for a [std::vector] and an [int] index. *)
Definition vec_at {A : Type} (v : list A) (i : Z) : result A :=
  if i <? 0 then Err UndefinedBehaviour
  else match v !! Z.to_nat i with
       | Some x => Ok x
       | None => Err UndefinedBehaviour
       end.

(** [static_cast<size_t>(n)] on a 64-bit target. *)
Definition size_t_of_int (n : Z) : Z := n mod 2 ^ 64.

(** ** The parameters of the model *)

(** [float] and the operations of the source on it. *)
Class Float (F : Type) : Type := {
  f0 : F;
  fadd : F -> F -> F;
  fsub : F -> F -> F;
  fmul : F -> F -> F;
  fsqrt : F -> F;
  flt : F -> F -> bool
}.

(** [p < q] on two [Node*], given as the ordinals of their allocations. *)
Class AddressOrder : Type := {
  ptr_lt : nat -> nat -> bool
}.

(** The random engine: its state after default construction, and the body
    of [getRandomLevel] as a function of the state and of [levelMult]. *)
Class RandomEngine (F Engine : Type) : Type := {
  default_engine : Engine;
  draw_level : Engine -> F -> Z * Engine
}.

(** ** Point, Node, HNSW *)

Record Point (F : Type) : Type := mkPoint {
  coordinates : list F;
  label : string
}.

Arguments mkPoint {F} coordinates label.
Arguments coordinates {F} p.
Arguments label {F} p.

Record Node (F : Type) : Type := mkNode {
  point : Point F;
  neighbors : list (list nat)
}.

Arguments mkNode {F} point neighbors.
Arguments point {F} n.
Arguments neighbors {F} n.

Record HNSW (F Engine : Type) : Type := mkHNSW {
  nodes : list (Node F);
  maxLevel : Z;
  maxNeighbors : Z;
  efConstruction : Z;
  levelMult : F;
  generator : Engine
}.

Arguments mkHNSW {F Engine} nodes maxLevel maxNeighbors efConstruction levelMult generator.
Arguments nodes {F Engine} h.
Arguments maxLevel {F Engine} h.
Arguments maxNeighbors {F Engine} h.
Arguments efConstruction {F Engine} h.
Arguments levelMult {F Engine} h.
Arguments generator {F Engine} h.

(** The local variables of [searchLayer]. *)
Record Beam (F : Type) : Type := mkBeam {
  topCandidates : list (F * nat);
  candidates : list (F * nat);
  visited : gset nat;
  lowerBound : F
}.

Arguments mkBeam {F} topCandidates candidates visited lowerBound.
Arguments topCandidates {F} b.
Arguments candidates {F} b.
Arguments visited {F} b.
Arguments lowerBound {F} b.

(** ** Reading the graph *)

(** [a->neighbors[l]] as a list; empty when there is no such node or layer. *)
Definition nbrs {F : Type} (heap : list (Node F)) (a l : nat) : list nat :=
  match heap !! a with
  | Some nd => default [] (neighbors nd !! l)
  | None => []
  end.

(** [a->neighbors.size()] *)
Definition layers {F : Type} (heap : list (Node F)) (a : nat) : nat :=
  match heap !! a with
  | Some nd => length (neighbors nd)
  | None => O
  end.

(** [a] lists [b] as a neighbour at layer [l]. *)
Definition edge {F : Type} (heap : list (Node F)) (a l b : nat) : Prop :=
  b ∈ nbrs heap a l.

(** [static_cast<int>(nd.neighbors.size()) - 1], the top layer of a node. *)
Definition top_layer {F : Type} (nd : Node F) : Z :=
  Z.of_nat (length (neighbors nd)) - 1.

(** The distances of a queue never increase from [top()] to the back. *)
Fixpoint descending {F : Type} {float_ops : Float F} (q : list (F * nat))
  : Prop :=
  match q with
  | [] => True
  | x :: q' =>
      match q' with
      | [] => True
      | y :: _ => flt x.1 y.1 = false
      end /\ descending q'
  end.

Section Index.

Context {F : Type} {float_ops : Float F}.
Context {addresses : AddressOrder}.
Context {Engine : Type} {engine : RandomEngine F Engine}.

(** ** euclideanDistance *)

Fixpoint sum_squares (distance : F) (c1 c2 : list F) : result F :=
  match c1 with
  | [] => Ok distance
  | x :: c1' =>
      match c2 with
      | [] => Err UndefinedBehaviour
      | y :: c2' =>
          sum_squares (fadd distance (fmul (fsub x y) (fsub x y))) c1' c2'
      end
  end.

Definition euclideanDistance (p1 p2 : Point F) : result F :=
  distance <-- sum_squares f0 (coordinates p1) (coordinates p2) ;;
  Ok (fsqrt distance).

(** ** Node and Graph *)

(** [Node(pt, maxLevel)]: [maxLevel + 1] empty neighbour lists. *)
Definition new_Node (pt : Point F) (level : Z) : result (Node F) :=
  if level + 1 <? 0 then Err LengthError
  else Ok (mkNode pt (replicate (Z.to_nat (level + 1)) [])).

Definition deref (heap : list (Node F)) (p : nat) : result (Node F) :=
  match heap !! p with
  | Some nd => Ok nd
  | None => Err UndefinedBehaviour
  end.

(** ** HNSW *)

Definition HNSW_new (maxNeighbors efConstr : Z) (mult : F) : HNSW F Engine :=
  mkHNSW [] 0 maxNeighbors efConstr mult default_engine.

Definition getRandomLevel (h : HNSW F Engine) : Z * HNSW F Engine :=
  let '(level, g) := draw_level (generator h) (levelMult h) in
  (level,
   mkHNSW (nodes h) (maxLevel h) (maxNeighbors h) (efConstruction h)
          (levelMult h) g).

(** ** Priority queues of [std::pair<float, Node*>] *)

Definition pair_lt (a b : F * nat) : bool :=
  flt a.1 b.1 || (negb (flt b.1 a.1) && ptr_lt a.2 b.2).

Definition pair_gt (a b : F * nat) : bool := pair_lt b a.

(** [q.push(x)]: [x] goes behind every element it is below in the
    queue's comparison [comp].  The list is the content of the queue in
    the order in which [top()] and [pop()] hand it out.  The content alone
    determines that order when [comp] orders it strictly and totally, which
    is what [std::priority_queue] requires of its comparison and what pairs
    with distinct node references have when [<] is a strict weak order on
    their distances (none of them is NaN).  A statement on the order of a
    queue names this as a hypothesis. *)
Fixpoint pq_push (comp : F * nat -> F * nat -> bool) (x : F * nat)
  (q : list (F * nat)) : list (F * nat) :=
  match q with
  | [] => [x]
  | y :: q' => if comp x y then y :: pq_push comp x q' else x :: q
  end.

Definition pq_top (q : list (F * nat)) : result (F * nat) :=
  match q with
  | [] => Err UndefinedBehaviour
  | x :: _ => Ok x
  end.

(** ** searchLayer *)

(** The body of the [for] loop over the neighbours of the popped node. *)
Definition visit (heap : list (Node F)) (query : Point F) (ef : Z)
  (st : Beam F) (neighbor : nat) : result (Beam F) :=
  if decide (neighbor ∈ visited st) then Ok st
  else
    let vis := {[neighbor]} ∪ visited st in
    nd <-- deref heap neighbor ;;
    d <-- euclideanDistance query (point nd) ;;
    if (Z.of_nat (length (topCandidates st)) <? size_t_of_int ef)
       || flt d (lowerBound st)
    then
      let cands := pq_push pair_gt (d, neighbor) (candidates st) in
      let top := pq_push pair_lt (d, neighbor) (topCandidates st) in
      if size_t_of_int ef <? Z.of_nat (length top) then
        let top' := tail top in
        worst <-- pq_top top' ;;
        Ok (mkBeam top' cands vis worst.1)
      else Ok (mkBeam top cands vis (lowerBound st))
    else Ok (mkBeam (topCandidates st) (candidates st) vis (lowerBound st)).

(** The [while (!candidates.empty())] loop.  Every iteration pops one
    candidate, and a node enters [candidates] at most once, so a budget of
    one iteration per node is never exhausted ([searchLayer_fuel]). *)
Fixpoint searchLoop (fuel : nat) (heap : list (Node F)) (query : Point F)
  (level ef : Z) (st : Beam F) : result (list (F * nat)) :=
  match candidates st with
  | [] => Ok (topCandidates st)
  | (dist, currNode) :: rest =>
      if flt (lowerBound st) dist then Ok (topCandidates st)
      else
        match fuel with
        | O => Err OutOfFuel
        | S fuel' =>
            cur <-- deref heap currNode ;;
            ns <-- vec_at (neighbors cur) level ;;
            st' <-- foldM (visit heap query ef)
                      (mkBeam (topCandidates st) rest (visited st)
                              (lowerBound st)) ns ;;
            searchLoop fuel' heap query level ef st'
        end
  end.

Definition searchLayer (heap : list (Node F)) (query : Point F)
  (enterPoint : nat) (level ef : Z) : result (list (F * nat)) :=
  ep <-- deref heap enterPoint ;;
  lb <-- euclideanDistance query (point ep) ;;
  searchLoop (length heap) heap query level ef
    (mkBeam [(lb, enterPoint)] [(lb, enterPoint)] {[enterPoint]} lb).

(** ** selectNeighbors *)

(** The [while] loop that fills the local vector [neighbors]. *)
Fixpoint select_loop (M : Z) (top : list (F * nat)) (chosen : list nat)
  (selected : gset nat) : list nat :=
  match top with
  | [] => chosen
  | (_, neighbor) :: top' =>
      if Z.of_nat (length chosen) <? size_t_of_int M then
        if decide (neighbor ∈ selected) then
          select_loop M top' chosen selected
        else
          select_loop M top' (chosen ++ [neighbor]) ({[neighbor]} ∪ selected)
      else chosen
  end.

(** [a->neighbors[level].push_back(b)] *)
Definition push_neighbor (heap : list (Node F)) (a : nat) (level : Z) (b : nat)
  : result (list (Node F)) :=
  nd <-- deref heap a ;;
  ns <-- vec_at (neighbors nd) level ;;
  Ok (<[a := mkNode (point nd)
               (<[Z.to_nat level := ns ++ [b]]> (neighbors nd))]> heap).

(** The body of the second loop of [selectNeighbors]. *)
Definition link (newNode : nat) (level : Z) (heap : list (Node F))
  (neighbor : nat) : result (list (Node F)) :=
  heap1 <-- push_neighbor heap newNode level neighbor ;;
  push_neighbor heap1 neighbor level newNode.

Definition selectNeighbors (M : Z) (heap : list (Node F)) (newNode : nat)
  (top : list (F * nat)) (level : Z) : result (list (Node F)) :=
  foldM (link newNode level) heap (select_loop M top [] ∅).

(** ** insertNode *)

(** [while (level > stop) { enterPoint = searchLayer(.., level, 1).top().second; --level; }]
    with [cnt] iterations left, that is with [level = stop + cnt]. *)
Fixpoint descend (heap : list (Node F)) (query : Point F) (stop : Z) (cnt : nat)
  (enterPoint : nat) : result nat :=
  match cnt with
  | O => Ok enterPoint
  | S cnt' =>
      top <-- searchLayer heap query enterPoint (stop + Z.of_nat cnt) 1 ;;
      best <-- pq_top top ;;
      descend heap query stop cnt' best.2
  end.

(** [for (int l = level; l >= 0; --l)] with [cnt = l + 1] iterations left. *)
Fixpoint link_levels (M ef : Z) (newNode enterPoint : nat) (cnt : nat)
  (heap : list (Node F)) : result (list (Node F)) :=
  match cnt with
  | O => Ok heap
  | S l =>
      nd <-- deref heap newNode ;;
      top <-- searchLayer heap (point nd) enterPoint (Z.of_nat l) ef ;;
      heap' <-- selectNeighbors M heap newNode top (Z.of_nat l) ;;
      link_levels M ef newNode enterPoint l heap'
  end.

Definition insertNode (h : HNSW F Engine) (newNode : Node F) : result (HNSW F Engine) :=
  match nodes h with
  | [] =>
      Ok (mkHNSW [newNode] (maxLevel h) (maxNeighbors h) (efConstruction h)
                 (levelMult h) (generator h))
  | _ :: _ =>
      let self := length (nodes h) in
      let heap := nodes h ++ [newNode] in
      let top := Z.of_nat (length (neighbors newNode)) - 1 in
      enterPoint <-- descend heap (point newNode) top
                       (Z.to_nat (maxLevel h - top)) 0%nat ;;
      let level := Z.min (maxLevel h) top in
      heap' <-- link_levels (maxNeighbors h) (efConstruction h) self
                  enterPoint (Z.to_nat (level + 1)) heap ;;
      Ok (mkHNSW heap'
                 (if maxLevel h <? top then top else maxLevel h)
                 (maxNeighbors h) (efConstruction h) (levelMult h)
                 (generator h))
  end.

(** ** insert and search *)

Definition insert (h : HNSW F Engine) (pt : Point F) : result (HNSW F Engine) :=
  let '(level, h1) := getRandomLevel h in
  newNode <-- new_Node pt level ;;
  insertNode h1 newNode.

(** The loop that empties the queue into [results]. *)
Fixpoint drain (heap : list (Node F)) (top : list (F * nat))
  : result (list (Point F)) :=
  match top with
  | [] => Ok []
  | (_, p) :: top' =>
      nd <-- deref heap p ;;
      rest <-- drain heap top' ;;
      Ok (point nd :: rest)
  end.

Definition search (h : HNSW F Engine) (query : Point F) (k : Z) : result (list (Point F)) :=
  match nodes h with
  | [] => Ok []
  | _ :: _ =>
      enterPoint <-- descend (nodes h) query 0 (Z.to_nat (maxLevel h)) 0%nat ;;
      top <-- searchLayer (nodes h) query enterPoint 0 k ;;
      drain (nodes h) top
  end.

(** A run of the harness: the points are inserted one after the other. *)
Definition insert_all (h : HNSW F Engine) (pts : list (Point F)) : result (HNSW F Engine) :=
  foldM insert h pts.

(** ** Invariants of the search loop

    [P] is a set of node references the search stays in. *)

(** Every pair of the queue holds a reference of [P] and the distance of
    its point to the query. *)
Definition entries_ok (heap : list (Node F)) (query : Point F)
  (P : nat -> Prop) (q : list (F * nat)) : Prop :=
  forall d p, (d, p) ∈ q ->
    P p /\ exists nd,
      heap !! p = Some nd /\ euclideanDistance query (point nd) = Ok d.

Definition beam_ok (heap : list (Node F)) (query : Point F)
  (P : nat -> Prop) (st : Beam F) : Prop :=
  entries_ok heap query P (topCandidates st) /\
  entries_ok heap query P (candidates st) /\
  topCandidates st <> [] /\
  forall x, x ∈ visited st -> (x < length heap)%nat.

(** What is left to do: the candidates to pop and the nodes to visit. *)
Definition beam_measure (heap : list (Node F)) (st : Beam F) : nat :=
  (length (candidates st) + (length heap - size (visited st)))%nat.

(** [P] is closed under the edges of layer [l]. *)
Definition closed_at (heap : list (Node F)) (l : nat) (P : nat -> Prop)
  : Prop :=
  forall a b, P a -> b ∈ nbrs heap a l -> P b.

(** Every node of [P] exists, has layer [l], and its point is at least as
    long as the query. *)
Definition readable_at (heap : list (Node F)) (query : Point F) (l : nat)
  (P : nat -> Prop) : Prop :=
  forall a, P a ->
    exists nd, heap !! a = Some nd /\ (l < length (neighbors nd))%nat /\
      (length (coordinates query) <= length (coordinates (point nd)))%nat.

(** The outcome of a search: a value that satisfies [good], or undefined
    behaviour, and the latter only when [bad] holds (some node the search
    may reach cannot be read). *)
Definition search_outcome {A : Type} (good : A -> Prop) (bad : Prop)
  (r : result A) : Prop :=
  match r with
  | Ok a => good a
  | Err e => e = UndefinedBehaviour /\ bad
  end.

(** The stored graph is well formed: a neighbour at layer [l] is a stored
    node that has layer [l]. *)
Definition graph_ok (heap : list (Node F)) : Prop :=
  forall a l b, b ∈ nbrs heap a l ->
    (b < length heap)%nat /\ (l < layers heap b)%nat.

(** The nodes below [bound] that have layer [l]. *)
Definition in_layer (heap : list (Node F)) (bound l r : nat) : Prop :=
  (r < bound)%nat /\ (l < layers heap r)%nat.

(** Every stored vector is at least as long as the one of [pt]. *)
Definition fits (heap : list (Node F)) (pt : Point F) : Prop :=
  forall r nd, heap !! r = Some nd ->
    (length (coordinates pt) <= length (coordinates (point nd)))%nat.

(** [d] is the distance of a stored point to [query]. *)
Definition distance_of (heap : list (Node F)) (query : Point F) (d : F)
  : Prop :=
  exists (r : nat) (nd : Node F),
    heap !! r = Some nd /\ euclideanDistance query (point nd) = Ok d.

(** [<] is a strict weak order on the floats of [D]: asymmetric and
    negatively transitive.  It is one on floats that are not NaN. *)
Definition strict_weak_order_on (D : F -> Prop) : Prop :=
  (forall a b : F, D a -> D b -> flt a b = true -> flt b a = false) /\
  (forall a b c : F, D a -> D b -> D c ->
     flt a c = true -> flt a b = true \/ flt b c = true).

(** No two of the stored points are at the same distance of [query]: of two
    of them, one is strictly closer. *)
Definition no_ties (stored : list (Point F)) (query : Point F) : Prop :=
  forall (a b : nat) (pa pb : Point F) (da db : F),
    a <> b -> stored !! a = Some pa -> stored !! b = Some pb ->
    euclideanDistance query pa = Ok da ->
    euclideanDistance query pb = Ok db ->
    flt da db = true \/ flt db da = true.

(** The same for every insertion of a run: the points inserted before a
    point are at different distances of it. *)
Definition no_ties_run (pts : list (Point F)) : Prop :=
  forall (i : nat) (pt : Point F),
    pts !! i = Some pt -> no_ties (take i pts) pt.

(** The same for the nodes of [P] in a heap. *)
Definition no_ties_in (heap : list (Node F)) (query : Point F)
  (P : nat -> Prop) : Prop :=
  forall (a b : nat) (nda ndb : Node F) (da db : F),
    P a -> P b -> a <> b -> heap !! a = Some nda -> heap !! b = Some ndb ->
    euclideanDistance query (point nda) = Ok da ->
    euclideanDistance query (point ndb) = Ok db ->
    flt da db = true \/ flt db da = true.

(** Every node in one of the two queues has been marked as visited. *)
Definition entries_visited (st : Beam F) : Prop :=
  forall d p,
    (d, p) ∈ topCandidates st \/ (d, p) ∈ candidates st -> p ∈ visited st.

(** A node as [Node(pt, level)] leaves it: no neighbour yet. *)
Definition fresh (nd : Node F) : Prop :=
  forall ns, ns ∈ neighbors nd -> ns = [].

(** The heap while the node [self] is being inserted and the layers below
    [cnt] are still to be linked: no edge at these layers touches [self]. *)
Definition inserting (self cnt : nat) (heap : list (Node F)) : Prop :=
  length heap = S self /\
  graph_ok heap /\
  (forall a lv, (lv < cnt)%nat -> self ∉ nbrs heap a lv) /\
  (forall lv, (lv < cnt)%nat -> nbrs heap self lv = []).

(** Node [a] has at most [M] neighbours at every layer. *)
Definition degree_le (M : Z) (heap : list (Node F)) (a : nat) : Prop :=
  forall lv, Z.of_nat (length (nbrs heap a lv)) <= M.

(** Every edge has its reverse edge at the same layer. *)
Definition symmetric (heap : list (Node F)) : Prop :=
  forall a l b, edge heap a l b -> edge heap b l a.

(** The node every descent starts from has every layer up to [maxLevel]. *)
Definition entry_ok (h : HNSW F Engine) : Prop :=
  nodes h <> [] -> (Z.to_nat (maxLevel h) < layers (nodes h) 0)%nat.

(** The states an index goes through: construction, then insertions that
    return. *)
Inductive reachable : HNSW F Engine -> Prop :=
| reachable_new (maxNeighbors efConstr : Z) (mult : F) :
    reachable (HNSW_new maxNeighbors efConstr mult)
| reachable_insert (h h' : HNSW F Engine) (pt : Point F) :
    reachable h -> insert h pt = Ok h' -> reachable h'.

(** The levels that [n] calls of [getRandomLevel] return from engine state
    [g], and the state they leave. *)
Fixpoint drawn_levels (mult : F) (n : nat) (g : Engine) : list Z * Engine :=
  match n with
  | O => ([], g)
  | S n' =>
      let '(level, g') := draw_level g mult in
      let '(levels, g'') := drawn_levels mult n' g' in
      (level :: levels, g'')
  end.

End Index.

(** ** A concrete instance to run the model on

    Coordinates are floats that hold small integers.  On these [+], [-]
    and [*] are exact, and in the scenarios below every sum of squares is a
    perfect square, so [std::sqrt] is exact as well: [Z] with [Z.sqrt]
    computes what the floats compute.  The engine is replaced by the list
    of the levels it hands out. *)
Module Scenario.

Definition Z_float : Float Z :=
  {| f0 := 0; fadd := Z.add; fsub := Z.sub; fmul := Z.mul;
     fsqrt := Z.sqrt; flt := Z.ltb |}.

(** Later allocations at higher addresses, and the other way round. *)
Definition ascending : AddressOrder := {| ptr_lt := Nat.ltb |}.
Definition descending_addresses : AddressOrder :=
  {| ptr_lt := fun a b => Nat.ltb b a |}.

Definition scripted (levels : list Z) : RandomEngine Z (list Z) :=
  {| default_engine := levels;
     draw_level := fun g _ =>
       match g with
       | [] => (0, [])
       | level :: g' => (level, g')
       end |}.

Definition build (order : AddressOrder) (levels : list Z)
  (maxNeighbors efConstr : Z) (pts : list (Point Z))
  : result (HNSW Z (list Z)) :=
  @insert_all Z Z_float order (list Z) (scripted levels)
    (@HNSW_new Z (list Z) (scripted levels) maxNeighbors efConstr 0) pts.

Definition query (order : AddressOrder) (h : HNSW Z (list Z)) (q : Point Z)
  (k : Z) : result (list (Point Z)) :=
  @search Z Z_float order (list Z) h q k.

Definition insert_in (order : AddressOrder) (levels : list Z)
  (h : HNSW Z (list Z)) (pt : Point Z) : result (HNSW Z (list Z)) :=
  @insert Z Z_float order (list Z) (scripted levels) h pt.

Definition A : Point Z := mkPoint [0] "A".
Definition B : Point Z := mkPoint [10] "B".
Definition C : Point Z := mkPoint [4] "C".
Definition Q : Point Z := mkPoint [1] "Query".

(** [HNSW(1, 2, 0.0f)] after [insert(A); insert(B)], and after a further
    [insert(C)]: with [levelMult = 0] every level is [0]. *)
Definition two : HNSW Z (list Z) :=
  mkHNSW [mkNode A [[1%nat]]; mkNode B [[0%nat]]] 0 1 2 0 [].

Definition chain : HNSW Z (list Z) :=
  mkHNSW [mkNode A [[1%nat]]; mkNode B [[0%nat; 2%nat]]; mkNode C [[1%nat]]]
         0 1 2 0 [].

(** [HNSW(4, 200, 0.0f)] after [insert(A); insert(B)]. *)
Definition wide : HNSW Z (list Z) :=
  mkHNSW [mkNode A [[1%nat]]; mkNode B [[0%nat]]] 0 4 200 0 [].

(** Vectors of 4, 2 and 5 components, and [HNSW(4, 200, 0.0f)] after
    [insert(A4)]. *)
Definition A4 : Point Z := mkPoint [1; 2; 3; 4] "A".
Definition P2 : Point Z := mkPoint [1; 2] "P".
Definition L5 : Point Z := mkPoint [1; 2; 3; 4; 5] "L".

Definition single : HNSW Z (list Z) :=
  mkHNSW [mkNode A4 [[]]] 0 4 200 0 [].

(** Two points at the same place, and a third one. *)
Definition A2 : Point Z := mkPoint [0] "A2".
Definition C5 : Point Z := mkPoint [5] "C".

(** [HNSW(1, 2, 0.0f)] after [insert(A); insert(A2)], and after a further
    [insert(C5)] when later allocations are at higher and at lower
    addresses. *)
Definition twins : HNSW Z (list Z) :=
  mkHNSW [mkNode A [[1%nat]]; mkNode A2 [[0%nat]]] 0 1 2 0 [].

Definition twins_up : HNSW Z (list Z) :=
  mkHNSW [mkNode A [[1%nat]]; mkNode A2 [[0%nat; 2%nat]]; mkNode C5 [[1%nat]]]
         0 1 2 0 [].

Definition twins_down : HNSW Z (list Z) :=
  mkHNSW [mkNode A [[1%nat; 2%nat]]; mkNode A2 [[0%nat]]; mkNode C5 [[0%nat]]]
         0 1 2 0 [].

(** An index whose first insertion sampled level 2, and one whose
    insertions sampled the levels 0 and 2. *)
Definition tall : HNSW Z (list Z) :=
  mkHNSW [mkNode A [[]; []; []]] 0 4 200 0 [].

Definition stale : HNSW Z (list Z) :=
  mkHNSW [mkNode A [[1%nat]]; mkNode B [[0%nat]; []; []]] 2 4 200 0 [].

End Scenario.

(** ** Further notions used by the properties *)

Section MoreDefinitions.

Context {F : Type} {float_ops : Float F}.
Context {Engine : Type}.

(** The lists of [heap] are those of [heap0] plus, at each layer [l], the
    nodes [added l] in the list of [self], and [self] at the end of the
    list of each node of [added l]. *)
Definition extends (heap0 heap : list (Node F)) (self : nat)
  (added : nat -> list nat) : Prop :=
  (forall l, NoDup (added l)) /\
  (forall l b, b ∈ added l -> (b < self)%nat) /\
  (forall a l, (a < self)%nat ->
     nbrs heap a l =
       nbrs heap0 a l ++ (if decide (a ∈ added l) then [self] else [])) /\
  (forall l, nbrs heap self l = added l).

(** The number of layers [insertNode] links a node of top layer [top]
    into: none for the first node, else the layers up to the smaller of
    [maxLevel] and [top]. *)
Definition linked_layers (h : HNSW F Engine) (top : Z) : nat :=
  match nodes h with
  | [] => O
  | _ :: _ => Z.to_nat (Z.min (maxLevel h) top + 1)
  end.

(** [std::lexicographical_compare] on two coordinate vectors, and
    [Point::operator<]. *)
Fixpoint lexicographical_compare (c1 c2 : list F) : bool :=
  match c1, c2 with
  | _, [] => false
  | [], _ :: _ => true
  | x :: c1', y :: c2' =>
      if flt x y then true
      else if flt y x then false
      else lexicographical_compare c1' c2'
  end.

Definition Point_lt (p q : Point F) : bool :=
  lexicographical_compare (coordinates p) (coordinates q).

(** Node [r] is stored and its point is at distance [d] of [query]. *)
Definition dist_to (heap : list (Node F)) (query : Point F) (r : nat) (d : F)
  : Prop :=
  exists nd, heap !! r = Some nd /\ euclideanDistance query (point nd) = Ok d.

(** [r] can be reached from [a] along edges, of any layer. *)
Definition connected (heap : list (Node F)) (a r : nat) : Prop :=
  rtc (fun x y => exists l, edge heap x l y) a r.

(** The first node has layer 0 and no node has a higher top layer. *)
Definition first_is_tallest (heap : list (Node F)) : Prop :=
  exists n0, heap !! O = Some n0 /\ 0 <= top_layer n0 /\
    forall nd, nd ∈ heap -> top_layer nd <= top_layer n0.

(** The levels of a run in which the first node is the tallest: the first
    level is at least 0 and every later level lies between -1 and the
    first. *)
Definition first_level_highest (levels : list Z) : Prop :=
  match levels with
  | [] => True
  | l0 :: rest => 0 <= l0 /\ Forall (fun l => -1 <= l <= l0) rest
  end.

End MoreDefinitions.

Module MoreScenario.

Import Scenario.

Definition Q5 : Point Z := mkPoint [5] "Q".

(** [HNSW(4, 200, 0.0f)]-like index whose insertions of [A], [B] and [C]
    sampled the levels 2, 1 and 1. *)
Definition layered : HNSW Z (list Z) :=
  mkHNSW [mkNode A [[1%nat; 2%nat]; [2%nat]; []];
          mkNode B [[0%nat; 2%nat]; []];
          mkNode C [[1%nat; 0%nat]; [0%nat]]]
         1 4 200 0 [].

End MoreScenario.

(** * Properties *)

(** ** The outcome monad *)

Lemma bind_Ok {A B : Type} (m : result A) (k : A -> result B) (b : B) :
  bind m k = Ok b -> exists a, m = Ok a /\ k a = Ok b.
Proof. destruct m as [a|e]; simpl; intros H; [eauto | discriminate]. Qed.

Lemma bind_Err {A B : Type} (m : result A) (k : A -> result B) (e : failure) :
  bind m k = Err e -> m = Err e \/ exists a, m = Ok a /\ k a = Err e.
Proof. destruct m as [a|e']; simpl; intros H; [eauto | left; congruence]. Qed.

(** Splits a hypothesis [x <-- m ;; k = Ok b] into its two halves. *)
Tactic Notation "bind_inv" hyp(H) "as" ident(x) ident(Hx) :=
  apply bind_Ok in H as (x & Hx & H).

Tactic Notation "bind_inv" hyp(H) :=
  let a := fresh "a" in
  let Ha := fresh "H" a in
  apply bind_Ok in H as (a & Ha & H).

Lemma foldM_inv {A B : Type} (I : A -> Prop) (f : A -> B -> result A)
  (l : list B) :
  (forall a b a', b ∈ l -> I a -> f a b = Ok a' -> I a') ->
  forall a a', I a -> foldM f a l = Ok a' -> I a'.
Proof.
  induction l as [|b l IH]; intros Hstep a a' Ha Hfold; simpl in Hfold.
  - congruence.
  - bind_inv Hfold. eapply IH; [ | | exact Hfold].
    + intros ? ? ? Hin. apply Hstep. by right.
    + eapply Hstep; [by left | exact Ha | exact Ha0].
Qed.


Lemma foldM_total {A B : Type} (I : A -> Prop) (f : A -> B -> result A)
  (l : list B) :
  (forall a b, b ∈ l -> I a -> exists a', f a b = Ok a' /\ I a') ->
  forall a, I a -> exists a', foldM f a l = Ok a' /\ I a'.
Proof.
  induction l as [|b l IH]; intros Hstep a Ha; simpl.
  - eauto.
  - destruct (Hstep a b) as (a1 & -> & Ha1); [by left | done |]. simpl.
    apply IH; [ | done]. intros ? ? Hin. apply Hstep. by right.
Qed.

Lemma vec_at_Ok {A : Type} (v : list A) (i : Z) (x : A) :
  vec_at v i = Ok x <-> 0 <= i /\ v !! Z.to_nat i = Some x.
Proof.
  unfold vec_at. destruct (Z.ltb_spec i 0).
  - split; [discriminate | lia].
  - destruct (v !! Z.to_nat i); split; intros; try congruence;
      try (split; [lia | congruence]); naive_solver.
Qed.

Section Properties.

Context {F : Type} {float_ops : Float F}.
Context {addresses : AddressOrder}.
Context {Engine : Type} {engine : RandomEngine F Engine}.

Implicit Types (heap : list (Node F)) (h : HNSW F Engine) (pt : Point F).

Lemma deref_Ok heap (p : nat) (nd : Node F) :
  deref heap p = Ok nd <-> heap !! p = Some nd.
Proof. unfold deref. destruct (heap !! p); split; congruence. Qed.

(** ** Appending to a neighbour list *)

Lemma push_neighbor_inv heap (a : nat) (level : Z) (b : nat) heap' :
  push_neighbor heap a level b = Ok heap' ->
  exists nd ns,
    heap !! a = Some nd /\ 0 <= level /\
    neighbors nd !! Z.to_nat level = Some ns /\
    heap' = <[a := mkNode (point nd)
                     (<[Z.to_nat level := ns ++ [b]]> (neighbors nd))]> heap.
Proof.
  unfold push_neighbor. intros H. bind_inv H. bind_inv H.
  apply deref_Ok in Ha0. apply vec_at_Ok in Ha1 as [? ?].
  exists a0, a1. repeat split; try done. congruence.
Qed.

Lemma push_neighbor_length heap a level b heap' :
  push_neighbor heap a level b = Ok heap' -> length heap' = length heap.
Proof.
  intros (nd & ns & _ & _ & _ & ->)%push_neighbor_inv.
  by rewrite length_insert.
Qed.

Lemma push_neighbor_layers heap a level b heap' (x : nat) :
  push_neighbor heap a level b = Ok heap' -> layers heap' x = layers heap x.
Proof.
  intros (nd & ns & Ha & _ & _ & ->)%push_neighbor_inv. unfold layers.
  destruct (decide (x = a)) as [->|Hne].
  - rewrite list_lookup_insert_eq; [|by eapply lookup_lt_Some].
    rewrite Ha. simpl. by rewrite length_insert.
  - by rewrite list_lookup_insert_ne.
Qed.

Lemma push_neighbor_point heap a level b heap' (x : nat) :
  push_neighbor heap a level b = Ok heap' ->
  point <$> heap' !! x = point <$> heap !! x.
Proof.
  intros (nd & ns & Ha & _ & _ & ->)%push_neighbor_inv.
  destruct (decide (x = a)) as [->|Hne].
  - rewrite list_lookup_insert_eq; [|by eapply lookup_lt_Some].
    by rewrite Ha.
  - by rewrite list_lookup_insert_ne.
Qed.

Lemma push_neighbor_nbrs heap a level b heap' (x l : nat) :
  push_neighbor heap a level b = Ok heap' ->
  nbrs heap' x l =
    nbrs heap x l ++ (if decide (x = a /\ l = Z.to_nat level) then [b] else []).
Proof.
  intros (nd & ns & Ha & _ & Hns & ->)%push_neighbor_inv. unfold nbrs.
  destruct (decide (x = a)) as [->|Hne].
  - rewrite list_lookup_insert_eq; [|by eapply lookup_lt_Some].
    rewrite Ha. simpl.
    destruct (decide (l = Z.to_nat level)) as [->|Hl].
    + rewrite list_lookup_insert_eq; [|by eapply lookup_lt_Some].
      rewrite Hns. simpl. rewrite decide_True; done.
    + rewrite list_lookup_insert_ne; [|done].
      rewrite decide_False; [by rewrite app_nil_r | naive_solver].
  - rewrite list_lookup_insert_ne; [|done].
    rewrite decide_False; [by rewrite app_nil_r | naive_solver].
Qed.

Lemma push_neighbor_layer heap a level b heap' :
  push_neighbor heap a level b = Ok heap' ->
  0 <= level /\ (Z.to_nat level < layers heap a)%nat.
Proof.
  intros (nd & ns & Ha & Hl & Hns & _)%push_neighbor_inv. split; [done|].
  unfold layers. rewrite Ha. by eapply lookup_lt_Some.
Qed.

Lemma push_neighbor_total heap a level b :
  0 <= level -> (Z.to_nat level < layers heap a)%nat ->
  exists heap', push_neighbor heap a level b = Ok heap'.
Proof.
  intros Hl Hlt. unfold push_neighbor, layers, deref in *.
  destruct (heap !! a) as [nd|]; [|lia]. simpl.
  destruct (lookup_lt_is_Some_2 (neighbors nd) (Z.to_nat level) Hlt) as [ns Hns].
  assert (vec_at (neighbors nd) level = Ok ns) as -> by by apply vec_at_Ok.
  simpl. eauto.
Qed.


(** ** Linking the new node with a selected neighbour *)

Lemma link_inv (newNode : nat) (level : Z) heap (neighbor : nat) heap' :
  link newNode level heap neighbor = Ok heap' ->
  exists heap1,
    push_neighbor heap newNode level neighbor = Ok heap1 /\
    push_neighbor heap1 neighbor level newNode = Ok heap'.
Proof. unfold link. intros H. bind_inv H. eauto. Qed.

Lemma link_length newNode level heap neighbor heap' :
  link newNode level heap neighbor = Ok heap' -> length heap' = length heap.
Proof.
  intros (heap1 & H1 & H2)%link_inv.
  apply push_neighbor_length in H1, H2. congruence.
Qed.

Lemma link_layers newNode level heap neighbor heap' (x : nat) :
  link newNode level heap neighbor = Ok heap' -> layers heap' x = layers heap x.
Proof.
  intros (heap1 & H1 & H2)%link_inv.
  rewrite (push_neighbor_layers _ _ _ _ _ x H2).
  apply (push_neighbor_layers _ _ _ _ _ x H1).
Qed.

Lemma link_point newNode level heap neighbor heap' (x : nat) :
  link newNode level heap neighbor = Ok heap' ->
  point <$> heap' !! x = point <$> heap !! x.
Proof.
  intros (heap1 & H1 & H2)%link_inv.
  rewrite (push_neighbor_point _ _ _ _ _ x H2).
  apply (push_neighbor_point _ _ _ _ _ x H1).
Qed.

Lemma link_nbrs newNode level heap neighbor heap' (x l : nat) :
  link newNode level heap neighbor = Ok heap' ->
  nbrs heap' x l =
    nbrs heap x l
      ++ (if decide (x = newNode /\ l = Z.to_nat level) then [neighbor] else [])
      ++ (if decide (x = neighbor /\ l = Z.to_nat level) then [newNode] else []).
Proof.
  intros (heap1 & H1 & H2)%link_inv.
  rewrite (push_neighbor_nbrs _ _ _ _ _ x l H2).
  rewrite (push_neighbor_nbrs _ _ _ _ _ x l H1).
  by rewrite <- app_assoc.
Qed.

Lemma link_edge newNode level heap neighbor heap' (a l b : nat) :
  link newNode level heap neighbor = Ok heap' ->
  edge heap' a l b <->
  edge heap a l b \/
  l = Z.to_nat level /\
    (a = newNode /\ b = neighbor \/ a = neighbor /\ b = newNode).
Proof.
  intros H. unfold edge. rewrite (link_nbrs _ _ _ _ _ a l H).
  rewrite !elem_of_app. repeat case_decide; set_solver.
Qed.

Lemma link_layer newNode level heap neighbor heap' :
  link newNode level heap neighbor = Ok heap' ->
  0 <= level /\ (Z.to_nat level < layers heap newNode)%nat /\
  (Z.to_nat level < layers heap neighbor)%nat.
Proof.
  intros (heap1 & H1 & H2)%link_inv.
  pose proof (push_neighbor_layer _ _ _ _ _ H1) as [? ?].
  pose proof (push_neighbor_layer _ _ _ _ _ H2) as [_ ?].
  rewrite (push_neighbor_layers _ _ _ _ _ neighbor H1) in *. done.
Qed.

Lemma link_total newNode level heap neighbor :
  0 <= level -> (Z.to_nat level < layers heap newNode)%nat ->
  (Z.to_nat level < layers heap neighbor)%nat ->
  exists heap', link newNode level heap neighbor = Ok heap'.
Proof.
  intros Hl Hn Hb. unfold link.
  destruct (push_neighbor_total heap newNode level neighbor Hl Hn)
    as [heap1 H1].
  rewrite H1. simpl. apply push_neighbor_total; [done|].
  by rewrite (push_neighbor_layers _ _ _ _ _ neighbor H1).
Qed.

(** The second loop of [selectNeighbors] over the chosen neighbours. *)

Lemma links_length newNode level (chosen : list nat) heap heap' :
  foldM (link newNode level) heap chosen = Ok heap' ->
  length heap' = length heap.
Proof.
  apply (foldM_inv (fun a => length a = length heap)); [|done].
  intros a b a' _ Ha Hlink. apply link_length in Hlink. congruence.
Qed.

Lemma links_layers newNode level (chosen : list nat) heap heap' (x : nat) :
  foldM (link newNode level) heap chosen = Ok heap' ->
  layers heap' x = layers heap x.
Proof.
  apply (foldM_inv (fun a => layers a x = layers heap x)); [|done].
  intros a b a' _ Ha Hlink. by rewrite (link_layers _ _ _ _ _ x Hlink).
Qed.

Lemma links_point newNode level (chosen : list nat) heap heap' (x : nat) :
  foldM (link newNode level) heap chosen = Ok heap' ->
  point <$> heap' !! x = point <$> heap !! x.
Proof.
  apply (foldM_inv (fun a => point <$> a !! x = point <$> heap !! x)); [|done].
  intros a b a' _ Ha Hlink. by rewrite (link_point _ _ _ _ _ x Hlink).
Qed.

Lemma links_edge newNode level (chosen : list nat) heap heap' (a l b : nat) :
  foldM (link newNode level) heap chosen = Ok heap' ->
  edge heap' a l b <->
  edge heap a l b \/
  l = Z.to_nat level /\
    (a = newNode /\ b ∈ chosen \/ a ∈ chosen /\ b = newNode).
Proof.
  revert heap. induction chosen as [|n chosen IH]; intros heap H; simpl in H.
  - inversion H; subst. set_solver.
  - bind_inv H. rewrite (IH _ H), (link_edge _ _ _ _ _ a l b Ha0).
    set_solver.
Qed.

Lemma links_nbrs_new newNode level (chosen : list nat) heap heap' (l : nat) :
  newNode ∉ chosen ->
  foldM (link newNode level) heap chosen = Ok heap' ->
  nbrs heap' newNode l =
    nbrs heap newNode l ++ (if decide (l = Z.to_nat level) then chosen else []).
Proof.
  revert heap. induction chosen as [|n chosen IH]; intros heap Hnot H;
    simpl in H.
  - inversion H; subst. case_decide; by rewrite app_nil_r.
  - bind_inv H. apply not_elem_of_cons in Hnot as [Hne Hnot].
    rewrite (IH _ Hnot H), (link_nbrs _ _ _ _ _ newNode l Ha).
    rewrite (decide_False (P := newNode = n /\ _)); [|naive_solver].
    case_decide as Hl.
    + rewrite decide_True; [|done]. by rewrite <- !app_assoc.
    + rewrite decide_False; [|naive_solver]. by rewrite !app_nil_r.
Qed.

Lemma links_total newNode level (chosen : list nat) heap :
  0 <= level -> (Z.to_nat level < layers heap newNode)%nat ->
  (forall n, n ∈ chosen -> (Z.to_nat level < layers heap n)%nat) ->
  exists heap', foldM (link newNode level) heap chosen = Ok heap'.
Proof.
  intros Hl Hn Hc.
  destruct (foldM_total
              (fun a : list (Node F) => forall x, layers a x = layers heap x)
              (link newNode level) chosen) with (a := heap)
    as (heap' & H & _); [|done|eauto].
  intros a b Hb Ha.
  destruct (link_total newNode level a b) as [a' Ha']; [done| | |].
  - by rewrite Ha.
  - rewrite Ha. by apply Hc.
  - exists a'. split; [done|]. intros x.
    by rewrite (link_layers _ _ _ _ _ x Ha').
Qed.

(** ** The selection loop *)

Lemma select_loop_spec (M : Z) (top : list (F * nat)) (chosen : list nat)
  (selected : gset nat) :
  (forall n, n ∈ chosen <-> n ∈ selected) -> NoDup chosen ->
  let r := select_loop M top chosen selected in
  NoDup r /\
  (forall n, n ∈ r -> n ∈ chosen \/ exists d, (d, n) ∈ top) /\
  (Z.of_nat (length r) <= Z.max (Z.of_nat (length chosen)) (size_t_of_int M)).
Proof.
  revert chosen selected.
  induction top as [|[d n] top IH]; intros chosen selected Hsel Hnd; simpl.
  - repeat split; [done | eauto | lia].
  - destruct (Z.ltb_spec (Z.of_nat (length chosen)) (size_t_of_int M)).
    + case_decide as Hin.
      * destruct (IH chosen selected Hsel Hnd) as (? & Hsub & ?).
        repeat split; [done | | done].
        intros m Hm. destruct (Hsub m Hm) as [|[d' ?]]; [by left|].
        right. exists d'. by right.
      * destruct (IH (chosen ++ [n]) ({[n]} ∪ selected))
          as (? & Hsub & Hlen).
        { intros m. rewrite elem_of_app, elem_of_union, Hsel. set_solver. }
        { apply NoDup_app. repeat split; [done | | apply NoDup_singleton].
          intros m Hm ->%list_elem_of_singleton. by apply Hin, Hsel. }
        repeat split; [done | | ].
        -- intros m Hm. destruct (Hsub m Hm) as [Hc|[d' ?]].
           ++ apply elem_of_app in Hc as [Hc | ->%list_elem_of_singleton];
                [by left|]. right. exists d. by left.
           ++ right. exists d'. by right.
        -- rewrite length_app in Hlen. simpl in Hlen. lia.
    + repeat split; [done | eauto | lia].
Qed.

Lemma select_loop_chosen (M : Z) (top : list (F * nat)) :
  let r := select_loop M top [] ∅ in
  NoDup r /\ (forall n, n ∈ r -> exists d, (d, n) ∈ top) /\
  (0 <= M -> Z.of_nat (length r) <= M).
Proof.
  destruct (select_loop_spec M top [] ∅) as (Hnd & Hsub & Hlen).
  { set_solver. }
  { constructor. }
  repeat split; [done | | ].
  - intros n Hn. destruct (Hsub n Hn) as [Hc|]; [|done]. by inversion Hc.
  - intros HM. simpl in Hlen. unfold size_t_of_int in Hlen.
    pose proof (Z.mod_le M (2 ^ 64) HM ltac:(lia)).
    pose proof (Z.mod_pos_bound M (2 ^ 64) ltac:(lia)). lia.
Qed.

(** ** euclideanDistance *)

Lemma sum_squares_Ok (c1 c2 : list F) (acc : F) :
  (length c1 <= length c2)%nat -> exists d, sum_squares acc c1 c2 = Ok d.
Proof.
  revert c2 acc. induction c1 as [|x c1 IH]; intros c2 acc Hlen; simpl.
  - eauto.
  - destruct c2 as [|y c2]; simpl in Hlen; [lia|]. apply IH. lia.
Qed.

Lemma sum_squares_Err (c1 c2 : list F) (acc : F) :
  (length c2 < length c1)%nat -> sum_squares acc c1 c2 = Err UndefinedBehaviour.
Proof.
  revert c2 acc. induction c1 as [|x c1 IH]; intros c2 acc Hlen; simpl.
  - simpl in Hlen. lia.
  - destruct c2 as [|y c2]; simpl in Hlen; [done|]. apply IH. lia.
Qed.

Lemma euclideanDistance_Ok (p1 p2 : Point F) :
  (length (coordinates p1) <= length (coordinates p2))%nat ->
  exists d, euclideanDistance p1 p2 = Ok d.
Proof.
  intros Hlen. unfold euclideanDistance.
  destruct (sum_squares_Ok _ _ f0 Hlen) as [d ->]. simpl. eauto.
Qed.

Lemma euclideanDistance_Err (p1 p2 : Point F) :
  (length (coordinates p2) < length (coordinates p1))%nat ->
  euclideanDistance p1 p2 = Err UndefinedBehaviour.
Proof.
  intros Hlen. unfold euclideanDistance.
  by rewrite (sum_squares_Err _ _ f0 Hlen).
Qed.

Lemma euclideanDistance_failure (p1 p2 : Point F) (e : failure) :
  euclideanDistance p1 p2 = Err e -> e = UndefinedBehaviour.
Proof.
  destruct (decide (length (coordinates p1) <= length (coordinates p2))%nat)
    as [Hle|Hgt].
  - destruct (euclideanDistance_Ok p1 p2 Hle) as [d ->]. discriminate.
  - rewrite euclideanDistance_Err by lia. congruence.
Qed.

(** ** Priority queues *)

Lemma elem_of_pq_push comp (x e : F * nat) (q : list (F * nat)) :
  e ∈ pq_push comp x q <-> e = x \/ e ∈ q.
Proof.
  induction q as [|y q IH]; simpl.
  - set_solver.
  - destruct (comp x y); set_solver.
Qed.

Lemma length_pq_push comp (x : F * nat) (q : list (F * nat)) :
  length (pq_push comp x q) = S (length q).
Proof.
  induction q as [|y q IH]; simpl; [done|].
  destruct (comp x y); simpl; by rewrite ?IH.
Qed.

Lemma elem_of_tail {A : Type} (x : A) (l : list A) : x ∈ tail l -> x ∈ l.
Proof. destruct l; simpl; [done | by right]. Qed.

Lemma pq_top_Ok (q : list (F * nat)) (x : F * nat) :
  pq_top q = Ok x -> exists q', q = x :: q'.
Proof. destruct q; simpl; intros H; [discriminate | inversion H; eauto]. Qed.

Lemma descending_tail (q : list (F * nat)) :
  descending q -> descending (tail q).
Proof. destruct q; simpl; [done | tauto]. Qed.

Lemma pq_push_descending (x : F * nat) (q : list (F * nat)) :
  (forall a b : F, flt a b = true -> flt b a = false) ->
  descending q -> descending (pq_push pair_lt x q).
Proof.
  intros Hasym. induction q as [|y q IH]; intros Hq; simpl; [done|].
  destruct (pair_lt x y) eqn:Hxy.
  - destruct Hq as [Hy Hq]. specialize (IH Hq).
    change (match pq_push pair_lt x q with
            | [] => True
            | z :: _ => flt y.1 z.1 = false
            end /\ descending (pq_push pair_lt x q)).
    split; [|done].
    destruct q as [|z q]; simpl.
    + unfold pair_lt in Hxy.
      destruct (flt x.1 y.1) eqn:Hlt; [by apply Hasym|]. simpl in Hxy.
      by destruct (flt y.1 x.1).
    + destruct (pair_lt x z); [done|].
      unfold pair_lt in Hxy.
      destruct (flt x.1 y.1) eqn:Hlt; [by apply Hasym|]. simpl in Hxy.
      by destruct (flt y.1 x.1).
  - change (flt x.1 y.1 = false /\ descending (y :: q)). split; [|done].
    unfold pair_lt in Hxy. by destruct (flt x.1 y.1).
Qed.

(** ** One neighbour of the popped node *)

Lemma size_bounded (s : gset nat) (n : nat) :
  (forall x, x ∈ s -> (x < n)%nat) -> (size s <= n)%nat.
Proof.
  intros Hs. rewrite <- (size_set_seq (C := gset nat) 0 n).
  apply subseteq_size. intros x Hx. apply elem_of_set_seq.
  specialize (Hs x Hx). lia.
Qed.

Lemma visit_ok heap (query : Point F) (ef : Z) (P : nat -> Prop)
  (st st' : Beam F) (n : nat) :
  beam_ok heap query P st -> P n -> visit heap query ef st n = Ok st' ->
  beam_ok heap query P st' /\
  (beam_measure heap st' <= beam_measure heap st)%nat.
Proof.
  intros (Htop & Hcand & Hne & Hvis) HP. unfold visit.
  case_decide as Hin; [intros [= <-]; split; [by split_and!|lia]|].
  intros H. bind_inv H as nd Hnd. bind_inv H as dn Hdn. apply deref_Ok in Hnd.
  assert (Hvis' : forall x, x ∈ ({[n]} ∪ visited st : gset nat) ->
                            (x < length heap)%nat).
  { intros x [->%elem_of_singleton|Hx]%elem_of_union; [|by apply Hvis].
    by eapply lookup_lt_Some. }
  assert (Hsize : (size ({[n]} ∪ visited st : gset nat) = S (size (visited st)))).
  { rewrite size_union by set_solver. by rewrite size_singleton. }
  pose proof (size_bounded _ _ Hvis') as Hbound. rewrite Hsize in Hbound.
  assert (Hnew : forall (q : list (F * nat)) comp,
             entries_ok heap query P q ->
             entries_ok heap query P (pq_push comp (dn, n) q)).
  { intros q comp Hq d p [[= -> ->]|Hp]%elem_of_pq_push; [eauto|].
    by apply Hq. }
  unfold beam_measure.
  destruct (_ || _).
  - destruct (_ <? _).
    + bind_inv H as w Hw. inversion H; subst; simpl.
      apply pq_top_Ok in Hw as [q' Hq'].
      split; [split_and!; simpl|].
      * intros d p Hp%elem_of_tail. by apply (Hnew _ pair_lt Htop).
      * by apply Hnew.
      * by rewrite Hq'.
      * done.
      * simpl. rewrite length_pq_push, Hsize. lia.
    + inversion H; subst; simpl. split; [split_and!; simpl|].
      * by apply Hnew.
      * by apply Hnew.
      * destruct (topCandidates st) as [|y q]; simpl; [done|].
        by destruct (pair_lt (dn, n) y).
      * done.
      * simpl. rewrite length_pq_push, Hsize. lia.
  - inversion H; subst; simpl. split; [by split_and!|].
    simpl. rewrite Hsize. lia.
Qed.

Lemma visit_failure heap (query : Point F) (ef : Z) (st : Beam F) (n : nat)
  (e : failure) :
  visit heap query ef st n = Err e -> e = UndefinedBehaviour.
Proof.
  unfold visit. case_decide as Hin; [discriminate|]. intros H.
  apply bind_Err in H as [H | (nd & _ & H)].
  { unfold deref in H. destruct (heap !! n); congruence. }
  apply bind_Err in H as [H | (d & _ & H)].
  { by eapply euclideanDistance_failure. }
  destruct (_ || _); [|discriminate].
  destruct (_ <? _); [|discriminate].
  apply bind_Err in H as [H | (w & _ & H)]; [|discriminate].
  unfold pq_top in H. destruct (tail _); congruence.
Qed.

Lemma visit_total heap (query : Point F) (ef : Z) (st : Beam F) (n : nat)
  (nd : Node F) :
  topCandidates st <> [] -> heap !! n = Some nd ->
  (length (coordinates query) <= length (coordinates (point nd)))%nat ->
  exists st', visit heap query ef st n = Ok st'.
Proof.
  intros Hne Hn Hlen. unfold visit. case_decide as Hin; [eauto|].
  unfold deref. rewrite Hn. simpl.
  destruct (euclideanDistance_Ok query (point nd) Hlen) as [d ->]. simpl.
  destruct (_ || _); [|eauto].
  destruct (_ <? _); [|eauto].
  destruct (topCandidates st) as [|y q]; [done|]. simpl.
  destruct (pair_lt (d, n) y); simpl; eauto.
  destruct (pq_push pair_lt (d, n) q) eqn:Hq; simpl; eauto.
  pose proof (length_pq_push pair_lt (d, n) q) as Hl. by rewrite Hq in Hl.
Qed.

(** ** The search loop *)

Lemma searchLoop_unfold (fuel : nat) heap (query : Point F) (level ef : Z)
  (st : Beam F) :
  searchLoop fuel heap query level ef st =
  match candidates st with
  | [] => Ok (topCandidates st)
  | (dist, currNode) :: rest =>
      if flt (lowerBound st) dist then Ok (topCandidates st)
      else
        match fuel with
        | O => Err OutOfFuel
        | S fuel' =>
            cur <-- deref heap currNode ;;
            ns <-- vec_at (neighbors cur) level ;;
            st' <-- foldM (visit heap query ef)
                      (mkBeam (topCandidates st) rest (visited st)
                              (lowerBound st)) ns ;;
            searchLoop fuel' heap query level ef st'
        end
  end.
Proof. by destruct fuel. Qed.

(** The convergence test looks at [lowerBound] alone: the size of
    [topCandidates] plays no part in it. *)
Lemma searchLoop_break (fuel : nat) heap (query : Point F) (level ef : Z)
  (st : Beam F) (dist : F) (currNode : nat) (rest : list (F * nat)) :
  candidates st = (dist, currNode) :: rest ->
  flt (lowerBound st) dist = true ->
  searchLoop fuel heap query level ef st = Ok (topCandidates st).
Proof. intros Hc Hlt. by rewrite searchLoop_unfold, Hc, Hlt. Qed.

Lemma nbrs_vec_at heap (a : nat) (nd : Node F) (level : Z) (ns : list nat) :
  heap !! a = Some nd -> vec_at (neighbors nd) level = Ok ns ->
  0 <= level /\ nbrs heap a (Z.to_nat level) = ns.
Proof.
  intros Ha [Hl Hns]%vec_at_Ok. split; [done|].
  unfold nbrs. by rewrite Ha, Hns.
Qed.

Lemma visits_spec heap (query : Point F) (level ef : Z) (P : nat -> Prop)
  (ns : list nat) (st : Beam F) :
  (forall n, n ∈ ns -> P n) -> beam_ok heap query P st ->
  search_outcome
    (fun st' => beam_ok heap query P st' /\
                (beam_measure heap st' <= beam_measure heap st)%nat)
    (~ readable_at heap query (Z.to_nat level) P)
    (foldM (visit heap query ef) st ns).
Proof.
  revert st. induction ns as [|n ns IH]; intros st HP Hst; simpl.
  - split; [done | lia].
  - destruct (visit heap query ef st n) as [st1|e] eqn:Hvisit; simpl.
    + destruct (visit_ok _ _ _ _ _ _ _ Hst (HP n ltac:(by left)) Hvisit)
        as [Hst1 Hm1].
      specialize (IH st1 ltac:(intros; apply HP; by right) Hst1).
      destruct (foldM _ st1 ns); simpl in *; [|done].
      split; [tauto | lia].
    + split; [by eapply visit_failure|]. intros Hread.
      destruct (Hread n (HP n ltac:(by left))) as (nd & Hn & _ & Hlen).
      destruct Hst as (_ & _ & Hne & _).
      destruct (visit_total heap query ef st n nd Hne Hn Hlen) as [st' Hst'].
      congruence.
Qed.

Lemma searchLoop_spec heap (query : Point F) (level ef : Z)
  (P : nat -> Prop) :
  closed_at heap (Z.to_nat level) P ->
  forall (fuel : nat) (st : Beam F),
    beam_ok heap query P st -> (beam_measure heap st <= fuel)%nat ->
    search_outcome
      (fun top => entries_ok heap query P top /\ top <> [])
      (0 <= level -> ~ readable_at heap query (Z.to_nat level) P)
      (searchLoop fuel heap query level ef st).
Proof.
  intros Hclosed. induction fuel as [|fuel IH]; intros st Hst Hfuel;
    rewrite searchLoop_unfold;
    pose proof Hst as (Htop & Hcand & Hne & Hvis);
    destruct (candidates st) as [|[dist currNode] rest] eqn:Hc; simpl;
    try done;
    (destruct (flt (lowerBound st) dist); simpl; [done|]).
  - unfold beam_measure in Hfuel. rewrite Hc in Hfuel. simpl in Hfuel. lia.
  - destruct (Hcand dist currNode) as (Hcur & nd & Hnd & _);
      [by left|].
    unfold deref. rewrite Hnd. simpl.
    destruct (vec_at (neighbors nd) level) as [ns|e] eqn:Hns; simpl.
    2:{ split.
        - unfold vec_at in Hns. destruct (level <? 0); [congruence|].
          destruct (neighbors nd !! Z.to_nat level); congruence.
        - intros Hl Hread. destruct (Hread _ Hcur) as (nd' & Hnd' & Hlay & _).
          assert (nd' = nd) as -> by congruence.
          destruct (lookup_lt_is_Some_2 _ _ Hlay) as [ns Hns'].
          assert (vec_at (neighbors nd) level = Ok ns) by by apply vec_at_Ok.
          congruence. }
    destruct (nbrs_vec_at _ _ _ _ _ Hnd Hns) as [Hl Hnbrs].
    set (st0 := mkBeam (topCandidates st) rest (visited st) (lowerBound st)).
    assert (Hst0 : beam_ok heap query P st0).
    { split_and!; simpl; try done.
      intros d p Hp. apply Hcand. by right. }
    assert (Hns_P : forall n, n ∈ ns -> P n).
    { intros n Hn. apply (Hclosed currNode); [done|]. by rewrite Hnbrs. }
    pose proof (visits_spec heap query level ef P ns st0 Hns_P Hst0) as Hvisits.
    destruct (foldM (visit heap query ef) st0 ns) as [st1|e]; simpl in *.
    + destruct Hvisits as [Hst1 Hm1]. apply IH; [done|].
      unfold beam_measure in *. rewrite Hc in Hfuel. simpl in *. lia.
    + destruct Hvisits as [-> Hbad]. split; [done | auto].
Qed.

Lemma searchLayer_spec heap (query : Point F) (enterPoint : nat)
  (level ef : Z) (P : nat -> Prop) :
  P enterPoint -> closed_at heap (Z.to_nat level) P ->
  search_outcome
    (fun top => entries_ok heap query P top /\ top <> [])
    (0 <= level -> ~ readable_at heap query (Z.to_nat level) P)
    (searchLayer heap query enterPoint level ef).
Proof.
  intros Hep Hclosed. unfold searchLayer, deref.
  destruct (heap !! enterPoint) as [ep|] eqn:Hlookup; simpl.
  2:{ split; [done|]. intros _ Hread.
      destruct (Hread _ Hep) as (nd & Hnd & _). congruence. }
  destruct (euclideanDistance query (point ep)) as [lb|e] eqn:Hlb; simpl.
  2:{ split; [by eapply euclideanDistance_failure|]. intros _ Hread.
      destruct (Hread _ Hep) as (nd & Hnd & _ & Hlen).
      assert (nd = ep) as -> by congruence.
      destruct (euclideanDistance_Ok query (point ep) Hlen). congruence. }
  pose proof (lookup_lt_Some _ _ _ Hlookup) as Hlt.
  apply searchLoop_spec; [done | | ].
  - split_and!; simpl; [ | | done | ].
    + intros d p [= -> ->]%list_elem_of_singleton. eauto.
    + intros d p [= -> ->]%list_elem_of_singleton. eauto.
    + intros x ->%elem_of_singleton. done.
  - unfold beam_measure. cbn [candidates visited]. rewrite size_singleton.
    simpl. lia.
Qed.

(** The search loop always has fuel left. *)
Lemma searchLayer_fuel heap (query : Point F) (enterPoint : nat)
  (level ef : Z) :
  searchLayer heap query enterPoint level ef <> Err OutOfFuel.
Proof.
  pose proof (searchLayer_spec heap query enterPoint level ef (fun _ => True)
                I ltac:(done)) as H.
  destruct (searchLayer heap query enterPoint level ef); [done|].
  destruct H as [-> _]. done.
Qed.

Lemma searchLayer_failure heap (query : Point F) (enterPoint : nat)
  (level ef : Z) (e : failure) :
  searchLayer heap query enterPoint level ef = Err e ->
  e = UndefinedBehaviour.
Proof.
  pose proof (searchLayer_spec heap query enterPoint level ef (fun _ => True)
                I ltac:(done)) as H.
  intros Heq. rewrite Heq in H. by destruct H.
Qed.

Lemma searchLayer_Ok heap (query : Point F) (enterPoint : nat)
  (level ef : Z) (P : nat -> Prop) (top : list (F * nat)) :
  P enterPoint -> closed_at heap (Z.to_nat level) P ->
  searchLayer heap query enterPoint level ef = Ok top ->
  entries_ok heap query P top /\ top <> [].
Proof.
  intros Hep Hclosed Heq.
  pose proof (searchLayer_spec heap query enterPoint level ef P Hep Hclosed)
    as H.
  by rewrite Heq in H.
Qed.

Lemma searchLayer_total heap (query : Point F) (enterPoint : nat)
  (level ef : Z) (P : nat -> Prop) :
  P enterPoint -> closed_at heap (Z.to_nat level) P -> 0 <= level ->
  readable_at heap query (Z.to_nat level) P ->
  exists top, searchLayer heap query enterPoint level ef = Ok top.
Proof.
  intros Hep Hclosed Hl Hread.
  pose proof (searchLayer_spec heap query enterPoint level ef P Hep Hclosed)
    as H.
  destruct (searchLayer heap query enterPoint level ef); [eauto|].
  destruct H as [_ Hbad]. by destruct Hbad.
Qed.

(** ** The greedy descent *)

Lemma descend_spec heap (query : Point F) (stop : Z)
  (P : nat -> nat -> Prop) :
  (forall l, closed_at heap l (P l)) ->
  (forall l l' r, (l <= l')%nat -> P l' r -> P l r) ->
  forall (cnt : nat) (enterPoint : nat),
    P (Z.to_nat (stop + Z.of_nat cnt)) enterPoint ->
    search_outcome
      (fun ep => P (Z.to_nat stop) ep)
      (-1 <= stop ->
       ~ forall c, (c < cnt)%nat ->
           readable_at heap query (Z.to_nat (stop + Z.of_nat (S c)))
             (P (Z.to_nat (stop + Z.of_nat (S c)))))
      (descend heap query stop cnt enterPoint).
Proof.
  intros Hclosed Hmono. induction cnt as [|cnt IH]; intros ep Hep.
  - simpl. by rewrite Z.add_0_r in Hep.
  - cbn [descend].
    pose proof (searchLayer_spec heap query ep (stop + Z.of_nat (S cnt)) 1
                  _ Hep (Hclosed _)) as Hsearch.
    destruct (searchLayer heap query ep (stop + Z.of_nat (S cnt)) 1)
      as [top|e]; simpl in *.
    + destruct Hsearch as [Htop Hne].
      destruct top as [|[d best] top]; [done|]. simpl.
      destruct (Htop d best ltac:(by left)) as [Hbest _].
      assert (Hnext : P (Z.to_nat (stop + Z.of_nat cnt)) best).
      { eapply Hmono; [|exact Hbest]. lia. }
      specialize (IH best Hnext).
      destruct (descend heap query stop cnt best); simpl in *; [done|].
      destruct IH as [-> Hbad]. split; [done|].
      intros Hstop Hread. apply Hbad; [done|].
      intros c Hc. apply Hread. lia.
    + destruct Hsearch as [-> Hbad]. split; [done|].
      intros Hstop Hread. apply Hbad; [lia | apply Hread; lia].
Qed.

Lemma descend_failure heap (query : Point F) (stop : Z) (cnt : nat)
  (enterPoint : nat) (e : failure) :
  descend heap query stop cnt enterPoint = Err e -> e = UndefinedBehaviour.
Proof.
  pose proof (descend_spec heap query stop (fun _ _ => True)
                ltac:(done) ltac:(done) cnt enterPoint I) as H.
  intros Heq. rewrite Heq in H. by destruct H.
Qed.

(** ** The loop over the layers of the new node *)


Lemma link_levels_inv (I : nat -> list (Node F) -> Prop) (M ef : Z)
  (newNode enterPoint : nat) :
  (forall l heap nd top heap',
      I (S l) heap -> heap !! newNode = Some nd ->
      searchLayer heap (point nd) enterPoint (Z.of_nat l) ef = Ok top ->
      selectNeighbors M heap newNode top (Z.of_nat l) = Ok heap' ->
      I l heap') ->
  forall (cnt : nat) heap heap',
    I cnt heap ->
    link_levels M ef newNode enterPoint cnt heap = Ok heap' -> I O heap'.
Proof.
  intros Hstep. induction cnt as [|l IH]; intros heap heap' HI H;
    simpl in H.
  - congruence.
  - bind_inv H as nd Hnd. bind_inv H as top Htop. bind_inv H as heap1 Hsel.
    apply deref_Ok in Hnd. eapply IH; [|exact H]. eauto.
Qed.

Lemma link_levels_total (I : nat -> list (Node F) -> Prop) (M ef : Z)
  (newNode enterPoint : nat) :
  (forall l heap, I (S l) heap ->
      exists nd top heap',
        heap !! newNode = Some nd /\
        searchLayer heap (point nd) enterPoint (Z.of_nat l) ef = Ok top /\
        selectNeighbors M heap newNode top (Z.of_nat l) = Ok heap' /\
        I l heap') ->
  forall (cnt : nat) heap,
    I cnt heap ->
    exists heap', link_levels M ef newNode enterPoint cnt heap = Ok heap'.
Proof.
  intros Hstep. induction cnt as [|l IH]; intros heap HI; simpl.
  - eauto.
  - destruct (Hstep l heap HI) as (nd & top & heap1 & Hnd & Hs & Hsel & HI1).
    unfold deref. rewrite Hnd. simpl. rewrite Hs. simpl. rewrite Hsel. simpl.
    by apply IH.
Qed.


(** What the loop never touches: the number of nodes, their layers and
    their points. *)
Lemma link_levels_frame (M ef : Z) (newNode enterPoint : nat) (cnt : nat)
  heap heap' :
  link_levels M ef newNode enterPoint cnt heap = Ok heap' ->
  length heap' = length heap /\
  (forall x, layers heap' x = layers heap x) /\
  (forall x, point <$> heap' !! x = point <$> heap !! x).
Proof.
  apply (link_levels_inv
           (fun _ a => length a = length heap /\
                       (forall x, layers a x = layers heap x) /\
                       (forall x, point <$> a !! x = point <$> heap !! x)));
    [|done].
  intros l a nd top a' (Hlen & Hlay & Hpt) _ _ Hsel. unfold selectNeighbors in Hsel.
  split_and!.
  - rewrite (links_length _ _ _ _ _ Hsel). done.
  - intros x. by rewrite (links_layers _ _ _ _ _ x Hsel).
  - intros x. by rewrite (links_point _ _ _ _ _ x Hsel).
Qed.

(** ** The heap with the new node at its end *)

Lemma nbrs_snoc heap (nd : Node F) (a l : nat) :
  nbrs (heap ++ [nd]) a l =
    if decide (a < length heap)%nat then nbrs heap a l
    else if decide (a = length heap) then default [] (neighbors nd !! l)
    else [].
Proof.
  unfold nbrs. case_decide as Hlt.
  - by rewrite lookup_app_l.
  - case_decide as Heq.
    + subst. by rewrite list_lookup_middle.
    + rewrite lookup_ge_None_2; [done|]. rewrite length_app. simpl. lia.
Qed.

Lemma layers_snoc heap (nd : Node F) (a : nat) :
  layers (heap ++ [nd]) a =
    if decide (a < length heap)%nat then layers heap a
    else if decide (a = length heap) then length (neighbors nd)
    else O.
Proof.
  unfold layers. case_decide as Hlt.
  - by rewrite lookup_app_l.
  - case_decide as Heq.
    + subst. by rewrite list_lookup_middle.
    + rewrite lookup_ge_None_2; [done|]. rewrite length_app. simpl. lia.
Qed.

Lemma fresh_nbrs (nd : Node F) (l : nat) :
  fresh nd -> default [] (neighbors nd !! l) = [].
Proof.
  intros Hfresh. destruct (neighbors nd !! l) as [ns|] eqn:Hl; [|done].
  simpl. apply Hfresh. by eapply list_elem_of_lookup_2.
Qed.

Lemma new_Node_Ok pt (level : Z) (nd : Node F) :
  new_Node pt level = Ok nd ->
  fresh nd /\ point nd = pt /\ -1 <= level /\
  length (neighbors nd) = Z.to_nat (level + 1).
Proof.
  unfold new_Node. destruct (Z.ltb_spec (level + 1) 0); [discriminate|].
  intros [= <-]. simpl. split_and!; [ | done | lia | by rewrite length_replicate].
  intros ns [-> _]%elem_of_replicate. done.
Qed.

Lemma nbrs_lt heap (a l b : nat) :
  b ∈ nbrs heap a l -> (a < length heap)%nat /\ (l < layers heap a)%nat.
Proof.
  unfold nbrs, layers. destruct (heap !! a) as [nd|] eqn:Ha.
  - destruct (neighbors nd !! l) as [ns|] eqn:Hl; simpl.
    + intros _. split; by eapply lookup_lt_Some.
    + by intros ?%elem_of_nil.
  - by intros ?%elem_of_nil.
Qed.

Lemma inserting_init heap (nd : Node F) (cnt : nat) :
  graph_ok heap -> fresh nd -> inserting (length heap) cnt (heap ++ [nd]).
Proof.
  intros Hok Hfresh.
  assert (Hedge : forall a l b, b ∈ nbrs (heap ++ [nd]) a l ->
                    (a < length heap)%nat /\ b ∈ nbrs heap a l).
  { intros a l b. rewrite nbrs_snoc. repeat case_decide.
    - done.
    - rewrite fresh_nbrs by done. by intros ?%elem_of_nil.
    - by intros ?%elem_of_nil. }
  split_and!.
  - rewrite length_app. simpl. lia.
  - intros a l b [Ha Hb]%Hedge. destruct (Hok a l b Hb) as [Hlt Hlay].
    rewrite length_app, layers_snoc. simpl. rewrite decide_True by done.
    split; [lia | done].
  - intros a lv _ [Ha Hb]%Hedge. destruct (Hok _ _ _ Hb). lia.
  - intros lv _. rewrite nbrs_snoc, decide_False, decide_True by lia.
    by apply fresh_nbrs.
Qed.

Lemma inserting_closed (self l : nat) heap :
  inserting self (S l) heap -> closed_at heap l (fun r => (r < self)%nat).
Proof.
  intros (Hlen & Hok & Hin & _) a b Ha Hb.
  destruct (Hok a l b Hb) as [Hlt _].
  assert (b <> self) by (intros ->; by apply (Hin a l ltac:(lia))).
  lia.
Qed.

Lemma inserting_closed_layer (self l : nat) heap :
  inserting self (S l) heap -> closed_at heap l (in_layer heap self l).
Proof.
  intros Hins a b [Ha _] Hb. split.
  - by apply (inserting_closed self l heap Hins a b).
  - destruct Hins as (_ & Hok & _). by destruct (Hok a l b Hb).
Qed.

Lemma links_layer (newNode : nat) (level : Z) (chosen : list nat)
  heap heap' (n : nat) :
  foldM (link newNode level) heap chosen = Ok heap' -> n ∈ chosen ->
  (Z.to_nat level < layers heap newNode)%nat /\
  (Z.to_nat level < layers heap n)%nat.
Proof.
  revert heap. induction chosen as [|m chosen IH]; intros heap H Hn;
    simpl in H.
  - by apply elem_of_nil in Hn.
  - bind_inv H as heap1 Hlink.
    pose proof (link_layer _ _ _ _ _ Hlink) as (_ & Hnew & Hm).
    apply elem_of_cons in Hn as [->|Hn]; [done|].
    destruct (IH heap1 H Hn) as [_ Hlay].
    by rewrite (link_layers _ _ _ _ _ n Hlink) in Hlay.
Qed.

(** One layer of the new node: the search stays among the older nodes, and
    the links keep the heap well formed. *)
Lemma inserting_step (M ef : Z) (self l : nat) heap (query : Point F)
  (enterPoint : nat) (top : list (F * nat)) heap' :
  inserting self (S l) heap -> (enterPoint < self)%nat ->
  searchLayer heap query enterPoint (Z.of_nat l) ef = Ok top ->
  selectNeighbors M heap self top (Z.of_nat l) = Ok heap' ->
  inserting self l heap' /\
  (0 <= M -> degree_le M heap self -> degree_le M heap' self).
Proof.
  intros Hins Hep Hsearch Hsel.
  pose proof (inserting_closed self l heap Hins) as Hclosed.
  rewrite <- (Nat2Z.id l) in Hclosed.
  destruct (searchLayer_Ok heap query enterPoint (Z.of_nat l) ef
              (fun r => (r < self)%nat) top Hep Hclosed Hsearch) as [Htop _].
  destruct Hins as (Hlen & Hok & Hin & Hself).
  unfold selectNeighbors in Hsel.
  destruct (select_loop_chosen M top) as (Hnd & Hsub & Hbound).
  set (chosen := select_loop M top [] ∅) in *.
  assert (Hchosen : forall n, n ∈ chosen -> (n < self)%nat).
  { intros n [d Hd]%Hsub. by destruct (Htop d n Hd). }
  assert (Hnot : self ∉ chosen).
  { intros Hs%Hchosen. lia. }
  assert (Hedge : forall a lv b, b ∈ nbrs heap' a lv <->
             b ∈ nbrs heap a lv \/
             lv = l /\ (a = self /\ b ∈ chosen \/ a ∈ chosen /\ b = self)).
  { intros a lv b. pose proof (links_edge _ _ _ _ _ a lv b Hsel) as He.
    unfold edge in He. by rewrite Nat2Z.id in He. }
  assert (Hlay : forall x, layers heap' x = layers heap x).
  { intros x. by apply (links_layers _ _ _ _ _ x Hsel). }
  split; [split_and!|].
  - by rewrite (links_length _ _ _ _ _ Hsel).
  - intros a lv b [Hold|(-> & [[-> Hb]|[Ha ->]])]%Hedge;
      rewrite (links_length _ _ _ _ _ Hsel), Hlay.
    + by apply (Hok a lv b).
    + destruct (links_layer _ _ _ _ _ b Hsel Hb) as [_ Hlb].
      rewrite Nat2Z.id in Hlb. specialize (Hchosen b Hb). split; [lia|done].
    + destruct (links_layer _ _ _ _ _ a Hsel Ha) as [Hls _].
      rewrite Nat2Z.id in Hls. split; [lia|done].
  - intros a lv Hlv [Hold|(-> & _)]%Hedge; [|lia].
    by apply (Hin a lv ltac:(lia)).
  - intros lv Hlv. rewrite (links_nbrs_new _ _ _ _ _ lv Hnot Hsel).
    rewrite Nat2Z.id, decide_False by lia. rewrite app_nil_r.
    apply Hself. lia.
  - intros HM Hdeg lv. rewrite (links_nbrs_new _ _ _ _ _ lv Hnot Hsel).
    rewrite Nat2Z.id. case_decide as Hlv.
    + subst lv. rewrite (Hself l ltac:(lia)). simpl. by apply Hbound.
    + rewrite app_nil_r. apply Hdeg.
Qed.

(** ** insertNode and insert *)

Lemma edge_snoc_fresh heap (nd : Node F) (a l b : nat) :
  fresh nd -> b ∈ nbrs (heap ++ [nd]) a l <-> b ∈ nbrs heap a l.
Proof.
  intros Hfresh. rewrite nbrs_snoc. repeat case_decide.
  - done.
  - rewrite fresh_nbrs by done. split; [by intros ?%elem_of_nil|].
    intros [? _]%nbrs_lt. lia.
  - split; [by intros ?%elem_of_nil|]. intros [? _]%nbrs_lt. lia.
Qed.

Lemma fmap_point_eq (heap heap' : list (Node F)) :
  (forall x, point <$> heap' !! x = point <$> heap !! x) ->
  point <$> heap' = point <$> heap.
Proof. intros H. apply list_eq. intros i. by rewrite !list_lookup_fmap. Qed.

Lemma descend_older heap (nd : Node F) (query : Point F) (stop : Z)
  (cnt : nat) (enterPoint ep : nat) :
  graph_ok heap -> fresh nd -> (enterPoint < length heap)%nat ->
  descend (heap ++ [nd]) query stop cnt enterPoint = Ok ep ->
  (ep < length heap)%nat.
Proof.
  intros Hok Hfresh Hlt Hdesc.
  pose proof (descend_spec (heap ++ [nd]) query stop
                (fun _ r => (r < length heap)%nat)) as H.
  specialize (H ltac:(intros l; apply inserting_closed;
                      by apply inserting_init) ltac:(done) cnt enterPoint Hlt).
  by rewrite Hdesc in H.
Qed.

(** What a completed [insertNode] leaves behind. *)
Lemma insertNode_Ok h (newNode : Node F) h' :
  graph_ok (nodes h) -> fresh newNode -> insertNode h newNode = Ok h' ->
  graph_ok (nodes h') /\
  length (nodes h') = S (length (nodes h)) /\
  point <$> nodes h' = (point <$> nodes h) ++ [point newNode] /\
  (forall x, layers (nodes h') x = layers (nodes h ++ [newNode]) x) /\
  (0 <= maxNeighbors h ->
   degree_le (maxNeighbors h) (nodes h') (length (nodes h))) /\
  maxNeighbors h' = maxNeighbors h /\
  efConstruction h' = efConstruction h /\
  levelMult h' = levelMult h /\
  generator h' = generator h.
Proof.
  intros Hok Hfresh. unfold insertNode.
  destruct (nodes h) as [|n0 ns] eqn:Hnodes.
  - intros [= <-]. simpl.
    destruct (inserting_init [] newNode O ltac:(by intros ? ? ? ?%elem_of_nil)
                Hfresh) as (_ & Hok' & _).
    split_and!; try done.
    intros HM lv. change [newNode] with ([] ++ [newNode]).
    rewrite nbrs_snoc. simpl. rewrite fresh_nbrs by done. simpl. lia.
  - rewrite <- Hnodes in *. intros H.
    bind_inv H as ep Hep. bind_inv H as heap' Hlink.
    inversion H; subst h'; clear H. simpl.
    assert (Hep_lt : (ep < length (nodes h))%nat).
    { eapply descend_older; [done | done | | exact Hep].
      rewrite Hnodes. simpl. lia. }
    destruct (link_levels_frame _ _ _ _ _ _ _ Hlink) as (Hlen & Hlay & Hpt).
    set (M := maxNeighbors h) in *.
    assert (HI : inserting (length (nodes h)) O heap' /\
                 (0 <= M -> degree_le M heap' (length (nodes h)))).
    { revert Hlink.
      apply (link_levels_inv
               (fun c a => inserting (length (nodes h)) c a /\
                           (0 <= M -> degree_le M a (length (nodes h))))).
      - intros l a nd top a' [Hins Hdeg] _ Hsearch Hsel.
        destruct (inserting_step _ _ _ _ _ _ _ _ _ Hins Hep_lt Hsearch Hsel)
          as [Hins' Hdeg'].
        split; [done|]. intros HM. apply Hdeg'; [done|]. by apply Hdeg.
      - split; [by apply inserting_init|].
        intros HM lv. rewrite nbrs_snoc.
        rewrite decide_False, decide_True by (done || lia).
        rewrite fresh_nbrs by done. simpl. lia. }
    destruct HI as [(_ & Hok' & _) Hdeg].
    split_and!; try done.
    + rewrite Hlen, length_app. simpl. lia.
    + rewrite (fmap_point_eq _ _ Hpt). by rewrite fmap_app.
Qed.

Lemma insertNode_symmetric h (newNode : Node F) h' :
  symmetric (nodes h) -> fresh newNode -> insertNode h newNode = Ok h' ->
  symmetric (nodes h').
Proof.
  intros Hsym Hfresh. unfold insertNode.
  assert (Hinit : symmetric (nodes h ++ [newNode])).
  { intros a l b. unfold edge. rewrite !edge_snoc_fresh by done.
    apply Hsym. }
  destruct (nodes h) as [|n0 ns] eqn:Hnodes.
  - intros [= <-]. simpl. exact Hinit.
  - rewrite <- Hnodes in *. intros H.
    bind_inv H as ep Hep. bind_inv H as heap' Hlink.
    inversion H; subst h'; clear H. simpl.
    revert Hlink. apply (link_levels_inv (fun _ a => symmetric a)); [|done].
    intros l a nd top a' Ha _ _ Hsel x lv y. unfold selectNeighbors in Hsel.
    rewrite !(links_edge _ _ _ _ _ _ _ _ Hsel).
    intros [Hold|Hnew]; [left; by apply Ha | right; tauto].
Qed.

Lemma insert_inv h pt h' :
  insert h pt = Ok h' ->
  exists (level : Z) (g : Engine) (newNode : Node F),
    draw_level (generator h) (levelMult h) = (level, g) /\
    new_Node pt level = Ok newNode /\
    insertNode (mkHNSW (nodes h) (maxLevel h) (maxNeighbors h)
                       (efConstruction h) (levelMult h) g) newNode = Ok h'.
Proof.
  unfold insert, getRandomLevel.
  destruct (draw_level (generator h) (levelMult h)) as [level g].
  intros H. bind_inv H as newNode Hnew. eauto 10.
Qed.

(** What a completed [insert] leaves behind. *)
Lemma insert_Ok h pt h' :
  graph_ok (nodes h) -> insert h pt = Ok h' ->
  graph_ok (nodes h') /\
  length (nodes h') = S (length (nodes h)) /\
  point <$> nodes h' = (point <$> nodes h) ++ [pt] /\
  (forall x, (x < length (nodes h))%nat ->
             layers (nodes h') x = layers (nodes h) x) /\
  (0 <= maxNeighbors h ->
   degree_le (maxNeighbors h) (nodes h') (length (nodes h))) /\
  maxNeighbors h' = maxNeighbors h /\
  efConstruction h' = efConstruction h /\
  levelMult h' = levelMult h /\
  draw_level (generator h) (levelMult h)
    = (Z.of_nat (layers (nodes h') (length (nodes h))) - 1, generator h').
Proof.
  intros Hok (level & g & newNode & Hdraw & Hnew & Hins)%insert_inv.
  destruct (new_Node_Ok _ _ _ Hnew) as (Hfresh & Hpt & Hlevel & Hlayers).
  apply insertNode_Ok in Hins
    as (Hok' & Hlen & Hpts & Hlay & Hdeg & HM & Hef & Hmult & Hgen);
    [ | done | done].
  simpl in *. split_and!; try done.
  - by rewrite <- Hpt.
  - intros x Hx. by rewrite Hlay, layers_snoc, decide_True.
  - rewrite Hdraw, Hlay, layers_snoc, Hgen.
    rewrite decide_False, decide_True by (done || lia).
    f_equal. lia.
Qed.

Lemma reachable_graph_ok h : reachable h -> graph_ok (nodes h).
Proof.
  induction 1 as [M ef mult|h h' pt _ IH Hins].
  - intros a l b. simpl. unfold nbrs. simpl. by intros ?%elem_of_nil.
  - by destruct (insert_Ok _ _ _ IH Hins).
Qed.

Lemma reachable_symmetric h : reachable h -> symmetric (nodes h).
Proof.
  induction 1 as [M ef mult|h h' pt _ IH Hins].
  - intros a l b. unfold edge, nbrs. simpl. by intros ?%elem_of_nil.
  - apply insert_inv in Hins as (level & g & newNode & _ & Hnew & Hins).
    destruct (new_Node_Ok _ _ _ Hnew) as (Hfresh & _).
    by apply insertNode_symmetric in Hins.
Qed.

(** ** When insertNode returns *)

Lemma in_layer_readable heap (query : Point F) (bound l : nat) :
  (bound <= length heap)%nat -> fits heap query ->
  readable_at heap query l (in_layer heap bound l).
Proof.
  intros Hbound Hfits r [Hr Hl].
  destruct (lookup_lt_is_Some_2 heap r ltac:(lia)) as [nd Hnd].
  exists nd. split_and!; [done | | by eapply Hfits].
  unfold layers in Hl. by rewrite Hnd in Hl.
Qed.

Lemma insertNode_total h (newNode : Node F) :
  graph_ok (nodes h) -> fresh newNode -> 0 <= maxLevel h -> entry_ok h ->
  fits (nodes h) (point newNode) ->
  exists h', insertNode h newNode = Ok h'.
Proof.
  intros Hok Hfresh HmL Hentry Hfits. unfold insertNode.
  destruct (nodes h) as [|n0 ns] eqn:Hnodes; [eauto|].
  assert (Hne : nodes h <> []) by (by rewrite Hnodes).
  rewrite <- Hnodes in *. specialize (Hentry Hne).
  set (N := length (nodes h)). set (heap0 := nodes h ++ [newNode]).
  set (top := Z.of_nat (length (neighbors newNode)) - 1).
  set (cap := Z.to_nat (maxLevel h)) in *.
  set (pt := point newNode) in *.
  assert (HN : (0 < N)%nat) by (subst N; rewrite Hnodes; simpl; lia).
  assert (Hlen0 : length heap0 = S N).
  { subst heap0 N. rewrite length_app. simpl. lia. }
  assert (Hfits0 : fits heap0 pt).
  { intros r nd [Hr|[_ Hr]]%lookup_app_Some; [by apply (Hfits r)|].
    apply list_lookup_singleton_Some in Hr as [_ <-]. done. }
  assert (Hlay0 : forall x, (x < N)%nat -> layers heap0 x = layers (nodes h) x).
  { intros x Hx. subst heap0. rewrite layers_snoc. by rewrite decide_True. }
  assert (HlayN : layers heap0 N = length (neighbors newNode)).
  { subst heap0 N. rewrite layers_snoc.
    by rewrite decide_False, decide_True by lia. }
  assert (Hins0 : forall c, inserting N c heap0).
  { intros c. by apply inserting_init. }
  (* the descent *)
  pose proof (descend_spec heap0 pt top
                (fun l r => in_layer heap0 N (l `min` cap) r)) as Hdesc.
  specialize (Hdesc
    ltac:(intros l a b [Ha Hla] Hb; split;
          [ by apply (inserting_closed N l heap0 (Hins0 (S l)) a b)
          | destruct (Hins0 O) as (_ & Hg & _);
            destruct (Hg a l b Hb); lia ])
    ltac:(intros l l' r Hll [Hr Hl]; split; [done | lia])
    (Z.to_nat (maxLevel h - top)) O
    ltac:(split; [done | rewrite Hlay0 by done; lia])).
  destruct (descend heap0 pt top (Z.to_nat (maxLevel h - top)) 0)
    as [ep|e]; simpl in Hdesc.
  2:{ destruct Hdesc as [_ Hbad]. exfalso. apply Hbad; [lia|].
      intros c Hc.
      replace (Z.to_nat (top + Z.of_nat (S c)) `min` cap)%nat
        with (Z.to_nat (top + Z.of_nat (S c))) by lia.
      apply in_layer_readable; [lia | done]. }
  simpl. destruct Hdesc as [Hep Hep_lay].
  (* the layers of the new node *)
  set (cnt := Z.to_nat (Z.min (maxLevel h) top + 1)).
  destruct (link_levels_total
              (fun c a => (c <= cnt)%nat /\ inserting N c a /\ fits a pt /\
                          (forall x, layers a x = layers heap0 x) /\
                          exists nd, a !! N = Some nd /\ point nd = pt)
              (maxNeighbors h) (efConstruction h) N ep) with cnt heap0
    as [heap' Hlink].
  - intros l a (Hl & Hins & Hfit & Hlay & nd & Hnd & Hpt).
    assert (Hla : length a = S N) by by destruct Hins.
    assert (Hep_l : in_layer a N l ep).
    { split; [done|]. rewrite Hlay. lia. }
    pose proof (inserting_closed_layer N l a Hins) as Hclosed.
    rewrite <- (Nat2Z.id l) in Hclosed at 1.
    destruct (searchLayer_total a pt ep (Z.of_nat l) (efConstruction h)
                (in_layer a N l) Hep_l Hclosed ltac:(lia))
      as [tp Htp].
    { rewrite Nat2Z.id. apply in_layer_readable; [lia | done]. }
    destruct (searchLayer_Ok a pt ep (Z.of_nat l) (efConstruction h)
                (in_layer a N l) tp Hep_l Hclosed Htp) as [Hentries _].
    destruct (select_loop_chosen (maxNeighbors h) tp) as (_ & Hsub & _).
    destruct (links_total N (Z.of_nat l)
                (select_loop (maxNeighbors h) tp [] ∅) a) as [a' Ha'].
    { lia. }
    { rewrite Nat2Z.id, Hlay, HlayN. lia. }
    { intros n [d Hd]%Hsub. rewrite Nat2Z.id.
      by destruct (Hentries d n Hd) as [[_ ?] _]. }
    exists nd, tp, a'. rewrite Hpt. split_and!; try done; [lia | | | | ].
    + by destruct (inserting_step (maxNeighbors h) (efConstruction h) N l a
                     pt ep tp a' Hins Hep Htp Ha').
    + intros r nd' Hr.
      pose proof (links_point _ _ _ _ _ r Ha') as Hp. rewrite Hr in Hp.
      destruct (a !! r) as [nd0|] eqn:Hr0; [|done].
      simpl in Hp. injection Hp as Hp. rewrite Hp. by apply (Hfit r).
    + intros x. by rewrite (links_layers _ _ _ _ _ x Ha').
    + pose proof (links_point _ _ _ _ _ N Ha') as Hp. rewrite Hnd in Hp.
      destruct (a' !! N) as [nd'|]; [|done].
      simpl in Hp. injection Hp as Hp. exists nd'. split; [done | congruence].
  - split_and!; [done | done | done | done | ].
    exists newNode. split; [|done]. subst heap0 N. apply list_lookup_middle.
    done.
  - rewrite Hlink. simpl. eauto.
Qed.

(** ** Failures of insert and search *)



Lemma drain_failure heap (top : list (F * nat)) (e : failure) :
  drain heap top = Err e -> e = UndefinedBehaviour.
Proof.
  induction top as [|[d p] top IH]; simpl; [discriminate|]. intros H.
  apply bind_Err in H as [H | (nd & _ & H)].
  { unfold deref in H. destruct (heap !! p); congruence. }
  apply bind_Err in H as [H | (rest & _ & H)]; [auto | discriminate].
Qed.

Lemma search_failure h (query : Point F) (k : Z) (e : failure) :
  search h query k = Err e -> e = UndefinedBehaviour.
Proof.
  unfold search. destruct (nodes h) as [|n0 ns]; [discriminate|].
  intros H. apply bind_Err in H as [H | (ep & _ & H)].
  { by eapply descend_failure. }
  apply bind_Err in H as [H | (top & _ & H)].
  { by eapply searchLayer_failure. }
  by eapply drain_failure.
Qed.

Lemma search_empty (M ef : Z) (mult : F) (query : Point F) (k : Z) :
  search (HNSW_new M ef mult) query k = Ok [].
Proof. reflexivity. Qed.

(** ** The order of the results of search *)

Lemma drain_Ok heap (top : list (F * nat)) (results : list (Point F)) :
  drain heap top = Ok results ->
  Forall2 (fun e p => exists nd, heap !! e.2 = Some nd /\ point nd = p)
          top results.
Proof.
  revert results. induction top as [|[d p] top IH]; intros results H;
    simpl in H.
  - inversion H. constructor.
  - bind_inv H as nd Hnd. bind_inv H as rest Hrest. inversion H; subst.
    apply deref_Ok in Hnd. constructor; [by exists nd | by apply IH].
Qed.

Lemma reachable_insert_all h (pts : list (Point F)) h' :
  reachable h -> insert_all h pts = Ok h' -> reachable h'.
Proof.
  unfold insert_all. revert h. induction pts as [|pt pts IH]; intros h Hr H;
    simpl in H.
  - congruence.
  - bind_inv H as h1 Hh1. eapply IH; [|exact H].
    by eapply reachable_insert.
Qed.

Lemma insert_all_snoc h (pts : list (Point F)) pt :
  insert_all h (pts ++ [pt]) = (h' <-- insert_all h pts ;; insert h' pt).
Proof.
  unfold insert_all. revert h. induction pts as [|p pts IH]; intros h; simpl.
  - by destruct (insert h pt).
  - destruct (insert h p); simpl; [apply IH | done].
Qed.

Lemma reachable_config h :
  reachable h ->
  exists (M ef : Z) (mult : F) (pts : list (Point F)),
    insert_all (HNSW_new M ef mult) pts = Ok h.
Proof.
  induction 1 as [M ef mult|h h' pt _ (M & ef & mult & pts & IH) Hins].
  - by exists M, ef, mult, [].
  - exists M, ef, mult, (pts ++ [pt]). by rewrite insert_all_snoc, IH.
Qed.

(** The configuration never changes, and [maxLevel] never drops below 0. *)
Lemma insert_all_config (M ef : Z) (mult : F) (pts : list (Point F)) h :
  insert_all (HNSW_new M ef mult) pts = Ok h ->
  maxNeighbors h = M /\ efConstruction h = ef /\ levelMult h = mult /\
  0 <= maxLevel h.
Proof.
  intros Hall.
  assert (Hgen : forall h0, reachable h0 ->
            maxNeighbors h0 = M /\ efConstruction h0 = ef /\
            levelMult h0 = mult /\ 0 <= maxLevel h0 ->
            forall h1, insert_all h0 pts = Ok h1 ->
            maxNeighbors h1 = M /\ efConstruction h1 = ef /\
            levelMult h1 = mult /\ 0 <= maxLevel h1).
  { clear Hall. unfold insert_all.
    induction pts as [|pt pts IH]; intros h0 Hr H0 h1 H1; simpl in H1.
    - congruence.
    - bind_inv H1 as h' Hh'.
      apply (IH h'); [by eapply reachable_insert | | done].
      pose proof (reachable_graph_ok _ Hr) as Hok.
      destruct (insert_Ok _ _ _ Hok Hh') as (_ & _ & _ & _ & _ & -> & -> & -> & _).
      destruct H0 as (? & ? & ? & HmL). split_and!; try done.
      apply insert_inv in Hh' as (level & g & nd & _ & _ & Hins).
      unfold insertNode in Hins. simpl in Hins.
      destruct (nodes h0); [by inversion Hins|].
      bind_inv Hins as ep Hep. bind_inv Hins as heap' Hl.
      inversion Hins; subst h'; simpl. destruct (_ <? _) eqn:Hlt; lia. }
  apply (Hgen _ (reachable_new M ef mult)); [|done]. simpl.
  split_and!; (done || lia).
Qed.

(** ** What the search loop keeps *)

(** The ways one step of the neighbour loop can go. *)
Lemma visit_cases heap (query : Point F) (ef : Z) (st st' : Beam F)
  (n : nat) :
  visit heap query ef st n = Ok st' ->
  (st' = st /\ n ∈ visited st) \/
  (n ∉ visited st) /\ (visited st' = {[n]} ∪ visited st) /\
  exists d, dist_to heap query n d /\
    let accepted := (Z.of_nat (length (topCandidates st)) <? size_t_of_int ef)
                 || flt d (lowerBound st) in
    let top := pq_push pair_lt (d, n) (topCandidates st) in
    (accepted = false /\ topCandidates st' = topCandidates st /\
     candidates st' = candidates st /\ lowerBound st' = lowerBound st \/
     accepted = true /\
     candidates st' = pq_push pair_gt (d, n) (candidates st) /\
     ((size_t_of_int ef <? Z.of_nat (length top)) = false /\
      topCandidates st' = top /\ lowerBound st' = lowerBound st \/
      (size_t_of_int ef <? Z.of_nat (length top)) = true /\
      exists w rest, tail top = w :: rest /\
        topCandidates st' = tail top /\ lowerBound st' = w.1)).
Proof.
  unfold visit. case_decide as Hin; [intros [= <-]; by left|].
  intros H. bind_inv H as nd Hnd. bind_inv H as d Hd.
  apply deref_Ok in Hnd. right. split_and!; [done | | ].
  - destruct (_ || _); [destruct (_ <? _)|]; [bind_inv H as w Hw| |];
      by inversion H.
  - exists d. split; [by exists nd|]. cbv zeta.
    destruct (_ || _); [|left; by inversion H].
    right. split; [done|].
    destruct (_ <? _).
    + bind_inv H as w Hw. apply pq_top_Ok in Hw as [rest Hrest].
      inversion H; subst; simpl. split; [done|]. right. split; [done|].
      by exists w, rest.
    + inversion H; subst; simpl. split; [done|]. by left.
Qed.

(** A property of [topCandidates], [visited] and [lowerBound] that every
    step of the neighbour loop keeps holds when the search ends. *)
Lemma searchLoop_keeps (I : list (F * nat) -> gset nat -> F -> Prop) heap
  (query : Point F) (level ef : Z) :
  (forall st n st',
      I (topCandidates st) (visited st) (lowerBound st) ->
      visit heap query ef st n = Ok st' ->
      I (topCandidates st') (visited st') (lowerBound st')) ->
  forall (fuel : nat) (st : Beam F) (top : list (F * nat)),
    I (topCandidates st) (visited st) (lowerBound st) ->
    searchLoop fuel heap query level ef st = Ok top ->
    exists vis lb, I top vis lb.
Proof.
  intros Hstep.
  induction fuel as [|fuel IH]; intros st top HI; rewrite searchLoop_unfold;
    destruct (candidates st) as [|[dist currNode] rest];
    try (intros [= <-]; eauto);
    (destruct (flt (lowerBound st) dist); [intros [= <-]; eauto|]);
    [done|].
  intros H. bind_inv H as cur Hcur. bind_inv H as ns Hns.
  bind_inv H as st' Hst'. apply (IH st' top); [|done].
  revert Hst'.
  apply (foldM_inv (fun a => I (topCandidates a) (visited a) (lowerBound a)));
    [|done].
  intros a b a' _ Ha Hvisit. by eapply Hstep.
Qed.

Lemma searchLayer_keeps (I : list (F * nat) -> gset nat -> F -> Prop) heap
  (query : Point F) (enterPoint : nat) (level ef : Z) (top : list (F * nat)) :
  (forall st n st',
      I (topCandidates st) (visited st) (lowerBound st) ->
      visit heap query ef st n = Ok st' ->
      I (topCandidates st') (visited st') (lowerBound st')) ->
  (forall lb, dist_to heap query enterPoint lb ->
              I [(lb, enterPoint)] {[enterPoint]} lb) ->
  searchLayer heap query enterPoint level ef = Ok top ->
  exists vis lb, I top vis lb.
Proof.
  intros Hstep Hinit. unfold searchLayer. intros H.
  bind_inv H as ep Hep. bind_inv H as lb Hlb. apply deref_Ok in Hep.
  eapply searchLoop_keeps; [exact Hstep | | exact H]. simpl.
  apply Hinit. by exists ep.
Qed.


(** ** The levels of the nodes come from the engine alone *)

Lemma layers_snoc_list (heap heap' : list (Node F)) :
  length heap' = S (length heap) ->
  (forall x, (x < length heap)%nat -> layers heap' x = layers heap x) ->
  (fun nd => length (neighbors nd)) <$> heap' =
    ((fun nd => length (neighbors nd)) <$> heap)
      ++ [layers heap' (length heap)].
Proof.
  intros Hlen Hlay. apply list_eq. intros i.
  rewrite list_lookup_fmap.
  destruct (decide (i < length heap)%nat) as [Hi|Hi].
  - rewrite lookup_app_l by by rewrite length_fmap.
    rewrite list_lookup_fmap. specialize (Hlay i Hi). unfold layers in Hlay.
    destruct (lookup_lt_is_Some_2 heap i Hi) as [nd Hnd].
    destruct (lookup_lt_is_Some_2 heap' i ltac:(lia)) as [nd' Hnd'].
    rewrite Hnd, Hnd' in *. simpl. by rewrite Hlay.
  - rewrite lookup_app_r by (rewrite length_fmap; lia). rewrite length_fmap.
    destruct (decide (i = length heap)) as [->|Hne].
    + rewrite Nat.sub_diag. simpl. unfold layers.
      destruct (lookup_lt_is_Some_2 heap' (length heap) ltac:(lia))
        as [nd' Hnd'].
      by rewrite Hnd'.
    + rewrite lookup_ge_None_2 by lia. simpl.
      destruct (i - length heap)%nat as [|j] eqn:Hj; [lia|]. done.
Qed.

Lemma insert_all_levels h (pts : list (Point F)) h' :
  reachable h -> insert_all h pts = Ok h' ->
  let drawn := drawn_levels (levelMult h) (length pts) (generator h) in
  generator h' = drawn.2 /\
  (fun nd => length (neighbors nd)) <$> nodes h' =
    ((fun nd => length (neighbors nd)) <$> nodes h)
      ++ ((fun level => Z.to_nat (level + 1)) <$> drawn.1).
Proof.
  unfold insert_all. revert h. induction pts as [|pt pts IH]; intros h Hr H;
    simpl in H.
  - injection H as <-. simpl. by rewrite app_nil_r.
  - bind_inv H as h1 Hh1.
    destruct (insert_Ok _ _ _ (reachable_graph_ok _ Hr) Hh1)
      as (_ & Hlen & _ & Hlay & _ & _ & _ & Hmult & Hdraw).
    destruct (IH h1 ltac:(by eapply reachable_insert) H) as [Hgen Hlist].
    cbn [length drawn_levels]. rewrite Hdraw. rewrite Hmult in Hgen, Hlist.
    destruct (drawn_levels (levelMult h) (length pts) (generator h1))
      as [levels g] eqn:Hrest.
    simpl in *. split; [done|].
    rewrite Hlist, (layers_snoc_list _ _ Hlen Hlay), <- app_assoc. simpl.
    do 3 f_equal. lia.
Qed.

(** ** Searches without ties *)

Lemma visit_entries_visited heap (query : Point F) (ef : Z)
  (st st' : Beam F) (n : nat) :
  entries_visited st -> visit heap query ef st n = Ok st' ->
  entries_visited st'.
Proof.
  intros Hseen. unfold visit. case_decide as Hin; [by intros [= <-]|].
  intros H. bind_inv H as nd Hnd. bind_inv H as dn Hdn.
  assert (Hnew : forall comp (q : list (F * nat)) d p,
             (forall d' p', (d', p') ∈ q -> p' ∈ visited st) ->
             (d, p) ∈ pq_push comp (dn, n) q ->
             p ∈ ({[n]} ∪ visited st : gset nat)).
  { intros comp q d p Hq [[= -> ->]|Hp]%elem_of_pq_push; [set_solver|].
    specialize (Hq d p Hp). set_solver. }
  assert (Htop : forall d p, (d, p) ∈ topCandidates st -> p ∈ visited st)
    by (intros d p Hp; apply (Hseen d p); by left).
  assert (Hcand : forall d p, (d, p) ∈ candidates st -> p ∈ visited st)
    by (intros d p Hp; apply (Hseen d p); by right).
  destruct (_ || _).
  - destruct (_ <? _).
    + bind_inv H as w Hw. inversion H; subst; simpl.
      intros d p [Hp|Hp]; simpl in Hp; [apply elem_of_tail in Hp|];
        (eapply Hnew; [|exact Hp]; assumption).
    + inversion H; subst; simpl.
      intros d p [Hp|Hp]; simpl in Hp;
        (eapply Hnew; [|exact Hp]; assumption).
  - inversion H; subst; simpl.
    intros d p Hp. simpl in Hp. specialize (Hseen d p Hp). simpl.
    set_solver.
Qed.

Lemma no_ties_prefix heap (query : Point F) (n : nat) :
  no_ties (point <$> take n heap) query ->
  no_ties_in heap query (fun r => (r < n)%nat).
Proof.
  intros Hties a b nda ndb da db Ha Hb Hab Hnda Hndb Hda Hdb.
  apply (Hties a b (point nda) (point ndb)); try done.
  - by rewrite list_lookup_fmap, lookup_take_lt, Hnda.
  - by rewrite list_lookup_fmap, lookup_take_lt, Hndb.
Qed.

(** ** insert returns when every read is in range *)

Lemma insert_total h pt :
  graph_ok (nodes h) -> 0 <= maxLevel h -> entry_ok h -> fits (nodes h) pt ->
  -1 <= (draw_level (generator h) (levelMult h)).1 ->
  exists h', insert h pt = Ok h'.
Proof.
  intros Hok HmL Hentry Hfits. unfold insert, getRandomLevel.
  destruct (draw_level (generator h) (levelMult h)) as [level g]. simpl.
  intros Hlevel. unfold new_Node.
  destruct (Z.ltb_spec (level + 1) 0); [lia|]. simpl.
  apply insertNode_total; try done.
  intros ns [-> _]%elem_of_replicate. done.
Qed.

Lemma searchLayer_long heap (query : Point F) (enterPoint : nat)
  (level ef : Z) (nd : Node F) :
  heap !! enterPoint = Some nd ->
  (length (coordinates (point nd)) < length (coordinates query))%nat ->
  searchLayer heap query enterPoint level ef = Err UndefinedBehaviour.
Proof.
  intros Hnd Hlong. unfold searchLayer, deref. rewrite Hnd. simpl.
  by rewrite euclideanDistance_Err.
Qed.

Lemma insert_long h pt (nd : Node F) :
  0 <= maxLevel h -> nodes h !! O = Some nd ->
  (length (coordinates (point nd)) < length (coordinates pt))%nat ->
  -1 <= (draw_level (generator h) (levelMult h)).1 ->
  insert h pt = Err UndefinedBehaviour.
Proof.
  intros HmL Hnd Hlong. unfold insert, getRandomLevel.
  destruct (draw_level (generator h) (levelMult h)) as [level g]. simpl.
  intros Hlevel. unfold new_Node.
  destruct (Z.ltb_spec (level + 1) 0); [lia|]. simpl.
  unfold insertNode. simpl.
  destruct (nodes h) as [|n0 ns] eqn:Hnodes; [done|].
  rewrite <- Hnodes in *.
  set (newNode := mkNode pt (replicate (Z.to_nat (level + 1)) [])).
  assert (H0 : (nodes h ++ [newNode]) !! O = Some nd).
  { rewrite lookup_app_l; [done|]. rewrite Hnodes. simpl. lia. }
  rewrite length_replicate.
  destruct (Z.to_nat (maxLevel h - (Z.of_nat (Z.to_nat (level + 1)) - 1)))
    as [|c] eqn:Hcnt.
  - cbn [descend bind].
    destruct (Z.to_nat
                (Z.min (maxLevel h) (Z.of_nat (Z.to_nat (level + 1)) - 1) + 1))
      as [|l] eqn:Hl; [lia|].
    cbn [link_levels]. unfold deref at 1.
    rewrite list_lookup_middle by done. cbn [bind point newNode].
    by rewrite (searchLayer_long _ pt O _ _ nd H0 Hlong).
  - cbn [descend]. by rewrite (searchLayer_long _ pt O _ _ nd H0 Hlong).
Qed.

Lemma insert_all_points h (pts : list (Point F)) h' :
  reachable h -> insert_all h pts = Ok h' ->
  point <$> nodes h' = (point <$> nodes h) ++ pts.
Proof.
  unfold insert_all. revert h. induction pts as [|pt pts IH]; intros h Hr H;
    simpl in H.
  - injection H as <-. by rewrite app_nil_r.
  - bind_inv H as h1 Hh1.
    rewrite (IH h1 ltac:(by eapply reachable_insert) H).
    destruct (insert_Ok _ _ _ (reachable_graph_ok _ Hr) Hh1)
      as (_ & _ & -> & _).
    by rewrite <- app_assoc.
Qed.

(** ** The claims *)

Lemma pq_push_descending_on (D : F -> Prop) (x : F * nat)
  (q : list (F * nat)) :
  (forall a b : F, D a -> D b -> flt a b = true -> flt b a = false) ->
  D x.1 -> (forall y, y ∈ q -> D y.1) ->
  descending q -> descending (pq_push pair_lt x q).
Proof.
  intros Hasym Hx. induction q as [|y q IH]; intros HD Hq; simpl; [done|].
  assert (Hy : D y.1) by (apply HD; by left).
  assert (Hxy' : pair_lt x y = true -> flt y.1 x.1 = false).
  { unfold pair_lt. destruct (flt x.1 y.1) eqn:Hlt; [intros _; by apply Hasym|].
    simpl. by destruct (flt y.1 x.1). }
  destruct (pair_lt x y) eqn:Hxy.
  - destruct Hq as [Hhead Hq].
    specialize (IH ltac:(intros z Hz; apply HD; by right) Hq).
    change (match pq_push pair_lt x q with
            | [] => True
            | z :: _ => flt y.1 z.1 = false
            end /\ descending (pq_push pair_lt x q)).
    split; [|done].
    destruct q as [|z q]; simpl; [by apply Hxy'|].
    destruct (pair_lt x z); [done | by apply Hxy'].
  - change (flt x.1 y.1 = false /\ descending (y :: q)). split; [|done].
    unfold pair_lt in Hxy. by destruct (flt x.1 y.1).
Qed.

Lemma descending_head (D : F -> Prop) (x : F * nat) (q : list (F * nat)) :
  (forall a b c : F, D a -> D b -> D c ->
     flt a c = true -> flt a b = true \/ flt b c = true) ->
  D x.1 -> (forall y, y ∈ q -> D y.1) ->
  descending (x :: q) -> forall y, y ∈ q -> flt x.1 y.1 = false.
Proof.
  intros Hco. revert x. induction q as [|y0 q IH]; intros x Hx HD Hq y Hy.
  - by apply elem_of_nil in Hy.
  - destruct Hq as [Hxy0 Hq].
    assert (Hy0 : D y0.1) by (apply HD; by left).
    apply elem_of_cons in Hy as [->|Hy]; [done|].
    specialize (IH y0 Hy0 ltac:(intros z Hz; apply HD; by right) Hq y Hy).
    destruct (flt x.1 y.1) eqn:Hxy; [|done].
    destruct (Hco x.1 y0.1 y.1 Hx Hy0 ltac:(apply HD; by right) Hxy)
      as [H|H]; congruence.
Qed.

Lemma descending_sorted (D : F -> Prop) (q : list (F * nat)) (i j : nat)
  (x y : F * nat) :
  (forall a b c : F, D a -> D b -> D c ->
     flt a c = true -> flt a b = true \/ flt b c = true) ->
  (forall z, z ∈ q -> D z.1) ->
  descending q -> (i < j)%nat -> q !! i = Some x -> q !! j = Some y ->
  flt x.1 y.1 = false.
Proof.
  intros Hco. revert i j.
  induction q as [|z q IH]; intros i j HD Hq Hij Hx Hy.
  - by rewrite lookup_nil in Hx.
  - destruct j as [|j]; [lia|]. simpl in Hy. destruct i as [|i].
    + injection Hx as ->.
      apply (descending_head D x q Hco); [apply HD; by left | | done | ].
      * intros w Hw. apply HD. by right.
      * by eapply list_elem_of_lookup_2.
    + simpl in Hx. apply (IH i j); [ | by destruct Hq | lia | done | done].
      intros w Hw. apply HD. by right.
Qed.

(** The queue a layer search returns is ordered: the distances never
    increase from [top()] to the back. *)
Lemma searchLayer_descending heap (query : Point F) (enterPoint : nat)
  (level ef : Z) (top : list (F * nat)) :
  (forall a b : F, distance_of heap query a -> distance_of heap query b ->
     flt a b = true -> flt b a = false) ->
  searchLayer heap query enterPoint level ef = Ok top ->
  descending top /\ forall e, e ∈ top -> distance_of heap query e.1.
Proof.
  intros Hasym H.
  destruct (searchLayer_keeps
              (fun t _ _ => descending t /\
                            forall e, e ∈ t -> distance_of heap query e.1)
              heap query enterPoint level ef top) as (_ & _ & Hkeep);
    [ | | exact H | exact Hkeep].
  - intros st n st' [Hdesc HD]
      [[-> _]|(_ & _ & d & (nd & Hnd & Hd) & Hcase)]%visit_cases; [done|].
    cbv zeta in Hcase.
    destruct Hcase as [(_ & -> & _)|(_ & _ & Hcase)]; [done|].
    assert (Hdn : distance_of heap query d) by by exists n, nd.
    assert (Hpush : descending (pq_push pair_lt (d, n) (topCandidates st)) /\
                    forall e, e ∈ pq_push pair_lt (d, n) (topCandidates st) ->
                              distance_of heap query e.1).
    { split; [by apply (pq_push_descending_on (distance_of heap query))|].
      intros e [->|He]%elem_of_pq_push; [done | by apply HD]. }
    destruct Hcase as [(_ & -> & _)|(_ & w & rest & Hw & -> & _)]; [done|].
    destruct Hpush as [Hdesc' HD']. split; [by apply descending_tail|].
    intros e He%elem_of_tail. by apply HD'.
  - intros lb (ep & Hep & Hlb). split; [done|].
    intros e ->%list_elem_of_singleton. by exists enterPoint, ep.
Qed.

(** C1, as amended.  The sequence returned by [search] is ordered from the
    farthest result to the nearest: no result is strictly closer to the
    query than a result that comes after it.  ([search] empties the
    max-heap [topCandidates] from its top and never sorts the vector it
    returns.)  [<] is taken to be a strict weak order on the distances of
    the stored points to the query, asymmetric and negatively transitive,
    as [std::priority_queue] requires of the comparison it is given: none
    of these distances is NaN. *)
Theorem search_descending h (query : Point F) (k : Z)
  (results : list (Point F)) :
  strict_weak_order_on (distance_of (nodes h) query) ->
  search h query k = Ok results ->
  forall (i j : nat) (p1 p2 : Point F),
    (i < j)%nat -> results !! i = Some p1 -> results !! j = Some p2 ->
    exists d1 d2,
      euclideanDistance query p1 = Ok d1 /\
      euclideanDistance query p2 = Ok d2 /\
      flt d1 d2 = false.
Proof.
  intros [Hasym Hco]. unfold search.
  destruct (nodes h) as [|n0 ns] eqn:Hnodes.
  { intros [= <-] i j p1 p2 _ Hp1. by rewrite lookup_nil in Hp1. }
  rewrite <- Hnodes in *. intros H i j p1 p2 Hij Hp1 Hp2.
  bind_inv H as ep Hep. bind_inv H as top Htop.
  destruct (searchLayer_descending _ _ _ _ _ _ Hasym Htop) as [Hdesc HD].
  destruct (searchLayer_Ok _ _ _ _ _ (fun _ => True) _ I ltac:(done) Htop)
    as [Hentries _].
  apply drain_Ok in H.
  destruct (Forall2_lookup_r _ _ _ _ _ H Hp1) as ([d1 n1] & Hn1 & nd1 & Hnd1 & <-).
  destruct (Forall2_lookup_r _ _ _ _ _ H Hp2) as ([d2 n2] & Hn2 & nd2 & Hnd2 & <-).
  exists d1, d2. simpl in *. split_and!.
  - destruct (Hentries d1 n1 ltac:(by eapply list_elem_of_lookup_2))
      as (_ & nd & Hnd & Hd). congruence.
  - destruct (Hentries d2 n2 ltac:(by eapply list_elem_of_lookup_2))
      as (_ & nd & Hnd & Hd). congruence.
  - apply (descending_sorted (distance_of (nodes h) query) top i j
             (d1, n1) (d2, n2) Hco HD Hdesc Hij Hn1 Hn2).
Qed.

(** C5.  After any sequence of insertions that the index completed, the
    edge relation is symmetric at every layer: [B] is in the layer-[l]
    neighbour list of [A] if and only if [A] is in the layer-[l] neighbour
    list of [B]. *)
Theorem edges_symmetric (M ef : Z) (mult : F) (pts : list (Point F)) h :
  insert_all (HNSW_new M ef mult) pts = Ok h ->
  forall A B l : nat, edge (nodes h) A l B <-> edge (nodes h) B l A.
Proof.
  intros Hall.
  pose proof (reachable_symmetric h
                (reachable_insert_all _ _ _ (reachable_new M ef mult) Hall))
    as Hsym.
  intros A B l. split; apply Hsym.
Qed.

(** C8.  Right after the insertion that creates it, the new node (the last
    node of the store) has at most [maxNeighbors] neighbours at each of its
    layers.  [maxNeighbors] is taken non-negative, as a count is. *)
Theorem new_node_degree (M ef : Z) (mult : F) (pts : list (Point F)) h pt h' :
  insert_all (HNSW_new M ef mult) pts = Ok h -> 0 <= M ->
  insert h pt = Ok h' ->
  exists nd : Node F,
    last (nodes h') = Some nd /\ point nd = pt /\
    forall ns, ns ∈ neighbors nd -> Z.of_nat (length ns) <= M.
Proof.
  intros Hall HM Hins.
  pose proof (reachable_insert_all _ _ _ (reachable_new M ef mult) Hall) as Hr.
  destruct (insert_all_config _ _ _ _ _ Hall) as (HMh & _).
  destruct (insert_Ok _ _ _ (reachable_graph_ok _ Hr) Hins)
    as (_ & Hlen & Hpts & _ & Hdeg & _).
  rewrite HMh in Hdeg. specialize (Hdeg HM).
  destruct (lookup_lt_is_Some_2 (nodes h') (length (nodes h)) ltac:(lia))
    as [nd Hnd].
  exists nd. split_and!.
  - rewrite last_lookup, Hlen. done.
  - assert (Hl : (point <$> nodes h') !! length (nodes h) = Some (point nd))
      by by rewrite list_lookup_fmap, Hnd.
    rewrite Hpts in Hl.
    rewrite lookup_app_r in Hl by by rewrite length_fmap.
    rewrite length_fmap, Nat.sub_diag in Hl. simpl in Hl. congruence.
  - intros ns [lv Hlv]%list_elem_of_lookup_1.
    specialize (Hdeg lv). unfold nbrs in Hdeg. by rewrite Hnd, Hlv in Hdeg.
Qed.


(** C4, as amended.  [insert] has no dimension check and no
    [DimensionMismatch] outcome.  On an index that completed its
    insertions, with a sampled level of at least -1: a point whose vector is
    no longer than the stored ones (shorter than the established dimension,
    say) is inserted like any other when the first node has every layer up
    to [maxLevel], and the store gains the node; a point whose vector is
    longer than the one of the first node makes [euclideanDistance] read
    past the end of the stored vector, which is undefined behaviour. *)
Theorem insert_ignores_dimension (M ef : Z) (mult : F)
  (pts : list (Point F)) h pt :
  insert_all (HNSW_new M ef mult) pts = Ok h ->
  -1 <= (draw_level (generator h) (levelMult h)).1 ->
  (entry_ok h -> fits (nodes h) pt ->
   exists h', insert h pt = Ok h' /\ point <$> nodes h' = pts ++ [pt]) /\
  (forall nd : Node F,
     nodes h !! O = Some nd ->
     (length (coordinates (point nd)) < length (coordinates pt))%nat ->
     insert h pt = Err UndefinedBehaviour).
Proof.
  intros Hall Hlevel.
  pose proof (reachable_insert_all _ _ _ (reachable_new M ef mult) Hall) as Hr.
  destruct (insert_all_config _ _ _ _ _ Hall) as (_ & _ & _ & HmL).
  split.
  - intros Hentry Hfits.
    destruct (insert_total h pt (reachable_graph_ok _ Hr) HmL Hentry Hfits
                Hlevel) as [h' Hins].
    exists h'. split; [done|].
    destruct (insert_Ok _ _ _ (reachable_graph_ok _ Hr) Hins)
      as (_ & _ & -> & _).
    by rewrite (insert_all_points _ _ _ (reachable_new M ef mult) Hall).
  - intros nd Hnd Hlong. by eapply insert_long.
Qed.

End Properties.

(** ** Two runs with the same configuration and the same insertions *)

Section TwoRuns.

Context {F : Type} {float_ops : Float F}.
Context {Engine : Type} {engine : RandomEngine F Engine}.

(** The allocator may order the addresses of the nodes differently in the
    two runs. *)
Variables order1 order2 : AddressOrder.

Implicit Types (heap : list (Node F)) (h : HNSW F Engine).

(** Two comparisons that agree on the new element against the content of a
    queue put it at the same place. *)
Lemma pq_push_agree (comp1 comp2 : F * nat -> F * nat -> bool) (x : F * nat)
  (q : list (F * nat)) :
  (forall y, y ∈ q -> comp1 x y = comp2 x y) ->
  pq_push comp1 x q = pq_push comp2 x q.
Proof.
  induction q as [|y q IH]; intros Hq; simpl; [done|].
  rewrite (Hq y) by by left.
  destruct (comp2 x y); [|done]. f_equal. apply IH.
  intros z Hz. apply Hq. by right.
Qed.

(** When one of two distances is strictly below the other, the pointers
    play no part in the comparison of the pairs. *)
Lemma pair_lt_no_tie (x y : F * nat) :
  flt x.1 y.1 = true \/ flt y.1 x.1 = true ->
  @pair_lt F float_ops order1 x y = @pair_lt F float_ops order2 x y.
Proof. unfold pair_lt. by intros [-> | ->]. Qed.

Lemma visit_agree heap (query : Point F) (ef : Z) (P : nat -> Prop)
  (st : Beam F) (n : nat) :
  no_ties_in heap query P ->
  beam_ok heap query P st -> entries_visited st -> P n ->
  @visit F float_ops order1 heap query ef st n =
  @visit F float_ops order2 heap query ef st n.
Proof.
  intros Hties (Htop & Hcand & _) Hseen Hn. unfold visit.
  case_decide as Hin; [done|].
  destruct (deref heap n) as [nd|] eqn:Hnd; simpl; [|done].
  apply deref_Ok in Hnd.
  destruct (euclideanDistance query (point nd)) as [d|] eqn:Hd; simpl; [|done].
  assert (Hcmp : forall y : F * nat,
             y ∈ topCandidates st \/ y ∈ candidates st ->
             flt d y.1 = true \/ flt y.1 d = true).
  { intros [dy ry] Hy.
    assert (Hvis : ry ∈ visited st) by by apply (Hseen dy ry).
    assert (Hy' : P ry /\ exists ndy, heap !! ry = Some ndy /\
                    euclideanDistance query (point ndy) = Ok dy).
    { destruct Hy as [Hy|Hy]; [by apply Htop | by apply Hcand]. }
    destruct Hy' as (Hry & ndy & Hndy & Hdy).
    apply (Hties n ry nd ndy d dy); try done.
    intros ->. done. }
  rewrite (pq_push_agree (@pair_lt F float_ops order1)
             (@pair_lt F float_ops order2) (d, n) (topCandidates st)).
  2:{ intros y Hy. apply pair_lt_no_tie. apply Hcmp. by left. }
  rewrite (pq_push_agree (@pair_gt F float_ops order1)
             (@pair_gt F float_ops order2) (d, n) (candidates st)).
  2:{ intros y Hy. unfold pair_gt. apply pair_lt_no_tie.
      destruct (Hcmp y ltac:(by right)); [by right | by left]. }
  done.
Qed.

Lemma visits_agree heap (query : Point F) (ef : Z) (P : nat -> Prop)
  (ns : list nat) (st : Beam F) :
  no_ties_in heap query P -> (forall n, n ∈ ns -> P n) ->
  beam_ok heap query P st -> entries_visited st ->
  foldM (@visit F float_ops order1 heap query ef) st ns =
  foldM (@visit F float_ops order2 heap query ef) st ns.
Proof.
  intros Hties. revert st.
  induction ns as [|n ns IH]; intros st Hns Hst Hseen; simpl; [done|].
  rewrite (visit_agree heap query ef P st n Hties Hst Hseen)
    by (apply Hns; by left).
  destruct (@visit F float_ops order2 heap query ef st n) as [st1|e]
    eqn:Hvisit; simpl; [|done].
  apply IH.
  - intros m Hm. apply Hns. by right.
  - eapply visit_ok; [exact Hst | | exact Hvisit]. apply Hns. by left.
  - by eapply visit_entries_visited.
Qed.

Lemma searchLoop_agree heap (query : Point F) (level ef : Z)
  (P : nat -> Prop) :
  no_ties_in heap query P -> closed_at heap (Z.to_nat level) P ->
  forall (fuel : nat) (st : Beam F),
    beam_ok heap query P st -> entries_visited st ->
    @searchLoop F float_ops order1 fuel heap query level ef st =
    @searchLoop F float_ops order2 fuel heap query level ef st.
Proof.
  intros Hties Hclosed.
  induction fuel as [|fuel IH]; intros st Hst Hseen;
    rewrite !searchLoop_unfold; [done|].
  pose proof Hst as (Htop & Hcand & Hne & Hvis).
  destruct (candidates st) as [|[dist currNode] rest] eqn:Hc; [done|].
  destruct (flt (lowerBound st) dist); [done|].
  destruct (deref heap currNode) as [cur|] eqn:Hcur; simpl; [|done].
  apply deref_Ok in Hcur.
  destruct (vec_at (neighbors cur) level) as [ns|] eqn:Hns; simpl; [|done].
  destruct (nbrs_vec_at _ _ _ _ _ Hcur Hns) as [_ Hnbrs].
  destruct (Hcand dist currNode ltac:(by left)) as [HPcur _].
  set (st0 := mkBeam (topCandidates st) rest (visited st) (lowerBound st)).
  assert (Hst0 : beam_ok heap query P st0).
  { split_and!; simpl; try done.
    intros d p Hp. apply Hcand. by right. }
  assert (Hseen0 : entries_visited st0).
  { intros d p [Hp|Hp]; simpl in Hp; apply (Hseen d p);
      [by left | right; rewrite Hc; by right]. }
  assert (Hns_P : forall n, n ∈ ns -> P n).
  { intros n Hn. apply (Hclosed currNode); [done|]. by rewrite Hnbrs. }
  rewrite (visits_agree heap query ef P ns st0 Hties Hns_P Hst0 Hseen0).
  destruct (foldM (@visit F float_ops order2 heap query ef) st0 ns)
    as [st1|e] eqn:Hfold; simpl; [|done].
  assert (H1 : beam_ok heap query P st1 /\ entries_visited st1).
  { revert Hfold.
    apply (foldM_inv (fun a => beam_ok heap query P a /\ entries_visited a));
      [|done].
    intros a b a' Hb [Ha Hva] Hvisit. split.
    - eapply visit_ok; [exact Ha | by apply Hns_P | exact Hvisit].
    - by eapply visit_entries_visited. }
  destruct H1 as [Hst1 Hseen1]. by apply IH.
Qed.

Lemma searchLayer_agree heap (query : Point F) (enterPoint : nat)
  (level ef : Z) (P : nat -> Prop) :
  no_ties_in heap query P -> P enterPoint ->
  closed_at heap (Z.to_nat level) P ->
  @searchLayer F float_ops order1 heap query enterPoint level ef =
  @searchLayer F float_ops order2 heap query enterPoint level ef.
Proof.
  intros Hties Hep Hclosed. unfold searchLayer.
  destruct (deref heap enterPoint) as [ep|] eqn:Hlookup; simpl; [|done].
  apply deref_Ok in Hlookup.
  destruct (euclideanDistance query (point ep)) as [lb|] eqn:Hlb; simpl;
    [|done].
  apply (searchLoop_agree heap query level ef P Hties Hclosed).
  - split_and!; simpl; [ | | done | ].
    + intros d p [= -> ->]%list_elem_of_singleton. eauto.
    + intros d p [= -> ->]%list_elem_of_singleton. eauto.
    + intros x ->%elem_of_singleton. by eapply lookup_lt_Some.
  - intros d p [Hp|Hp]; simpl in Hp;
      apply list_elem_of_singleton in Hp as [= -> ->]; set_solver.
Qed.

Lemma descend_agree heap (query : Point F) (stop : Z) (P : nat -> Prop) :
  no_ties_in heap query P -> (forall l, closed_at heap l P) ->
  forall (cnt : nat) (enterPoint : nat),
    P enterPoint ->
    @descend F float_ops order1 heap query stop cnt enterPoint =
    @descend F float_ops order2 heap query stop cnt enterPoint.
Proof.
  intros Hties Hclosed. induction cnt as [|cnt IH]; intros ep Hep; [done|].
  cbn [descend].
  rewrite (searchLayer_agree heap query ep _ 1 P Hties Hep (Hclosed _)).
  destruct (@searchLayer F float_ops order2 heap query ep
              (stop + Z.of_nat (S cnt)) 1) as [top|e] eqn:Hsearch; simpl;
    [|done].
  destruct (searchLayer_Ok _ _ _ _ _ P _ Hep (Hclosed _) Hsearch)
    as [Htop _].
  destruct top as [|[d best] top]; simpl; [done|].
  apply IH. by destruct (Htop d best ltac:(by left)).
Qed.

Lemma link_levels_agree (M ef : Z) (self enterPoint : nat)
  (stored : list (Point F)) (pt : Point F) :
  (enterPoint < self)%nat -> length stored = self -> no_ties stored pt ->
  forall (cnt : nat) heap,
    inserting self cnt heap -> point <$> heap = stored ++ [pt] ->
    @link_levels F float_ops order1 M ef self enterPoint cnt heap =
    @link_levels F float_ops order2 M ef self enterPoint cnt heap.
Proof.
  intros Hep Hlen Hties.
  induction cnt as [|l IH]; intros heap Hins Hpts; [done|].
  cbn [link_levels].
  destruct (deref heap self) as [nd|] eqn:Hnd; simpl; [|done].
  apply deref_Ok in Hnd.
  assert (Hpt : point nd = pt).
  { assert (Hl : (point <$> heap) !! self = Some (point nd))
      by by rewrite list_lookup_fmap, Hnd.
    rewrite Hpts, <- Hlen, list_lookup_middle in Hl by done. congruence. }
  assert (Hties' : no_ties_in heap (point nd) (fun r => (r < self)%nat)).
  { apply no_ties_prefix. rewrite fmap_take, Hpts, Hpt.
    by rewrite <- Hlen, take_app_length. }
  pose proof (inserting_closed self l heap Hins) as Hclosed.
  rewrite <- (Nat2Z.id l) in Hclosed.
  rewrite (searchLayer_agree heap (point nd) enterPoint (Z.of_nat l) ef
             _ Hties' Hep Hclosed).
  destruct (@searchLayer F float_ops order2 heap (point nd) enterPoint
              (Z.of_nat l) ef) as [top|e] eqn:Hsearch; simpl; [|done].
  destruct (selectNeighbors M heap self top (Z.of_nat l)) as [heap'|e]
    eqn:Hsel; simpl; [|done].
  apply IH.
  - by destruct (inserting_step M ef self l heap (point nd) enterPoint top
                   heap' Hins Hep Hsearch Hsel).
  - rewrite <- Hpts. apply fmap_point_eq. intros x.
    unfold selectNeighbors in Hsel. by apply (links_point _ _ _ _ _ x Hsel).
Qed.

Lemma insert_agree h (pt : Point F) :
  graph_ok (nodes h) -> no_ties (point <$> nodes h) pt ->
  @insert F float_ops order1 Engine engine h pt =
  @insert F float_ops order2 Engine engine h pt.
Proof.
  intros Hok Hties. unfold insert, getRandomLevel.
  destruct (draw_level (generator h) (levelMult h)) as [level g].
  destruct (new_Node pt level) as [newNode|] eqn:Hnew; simpl; [|done].
  destruct (new_Node_Ok _ _ _ Hnew) as (Hfresh & Hpt & _).
  unfold insertNode. simpl.
  destruct (nodes h) as [|n0 ns] eqn:Hnodes; [done|].
  rewrite <- Hnodes in *.
  set (heap := nodes h ++ [newNode]).
  assert (Hinit : forall cnt, inserting (length (nodes h)) cnt heap)
    by (intros cnt; by apply inserting_init).
  assert (Hpts : point <$> heap = (point <$> nodes h) ++ [pt])
    by (unfold heap; by rewrite fmap_app, <- Hpt).
  assert (Hlt : (0 < length (nodes h))%nat)
    by (rewrite Hnodes; simpl; lia).
  assert (Hties' : no_ties_in heap (point newNode)
                     (fun r => (r < length (nodes h))%nat)).
  { apply no_ties_prefix. unfold heap.
    by rewrite take_app_length, Hpt. }
  rewrite (descend_agree heap (point newNode) _
             (fun r => (r < length (nodes h))%nat) Hties'
             ltac:(intros l; apply inserting_closed, Hinit) _ O Hlt).
  destruct (@descend F float_ops order2 heap (point newNode)
              (Z.of_nat (length (neighbors newNode)) - 1)
              (Z.to_nat (maxLevel h
                         - (Z.of_nat (length (neighbors newNode)) - 1)))
              0) as [ep|e] eqn:Hdesc; simpl; [|done].
  assert (Hep : (ep < length (nodes h))%nat)
    by (eapply descend_older; [exact Hok | exact Hfresh | exact Hlt
                              | exact Hdesc]).
  by rewrite (link_levels_agree _ _ _ ep (point <$> nodes h) pt Hep
                ltac:(by rewrite length_fmap) Hties _ heap (Hinit _) Hpts).
Qed.

Lemma insert_all_agree (pts : list (Point F)) :
  forall h (stored : list (Point F)),
    @reachable F float_ops order1 Engine engine h ->
    point <$> nodes h = stored ->
    (forall i pt, pts !! i = Some pt -> no_ties (stored ++ take i pts) pt) ->
    @insert_all F float_ops order1 Engine engine h pts =
    @insert_all F float_ops order2 Engine engine h pts.
Proof.
  unfold insert_all.
  induction pts as [|pt pts IH]; intros h stored Hr Hstored Hties; simpl;
    [done|].
  pose proof (reachable_graph_ok h Hr) as Hok.
  rewrite <- (insert_agree h pt Hok).
  2:{ rewrite Hstored. specialize (Hties O pt eq_refl). simpl in Hties.
      by rewrite app_nil_r in Hties. }
  destruct (@insert F float_ops order1 Engine engine h pt) as [h1|e]
    eqn:Hins; simpl; [|done].
  apply (IH h1 (stored ++ [pt])).
  - by eapply reachable_insert.
  - destruct (insert_Ok _ _ _ Hok Hins) as (_ & _ & -> & _).
    by rewrite Hstored.
  - intros i p Hp. specialize (Hties (S i) p Hp). simpl in Hties.
    by rewrite <- app_assoc.
Qed.

Lemma search_agree h (query : Point F) (k : Z) :
  graph_ok (nodes h) -> no_ties (point <$> nodes h) query ->
  @search F float_ops order1 Engine h query k =
  @search F float_ops order2 Engine h query k.
Proof.
  intros Hok Hties. unfold search.
  destruct (nodes h) as [|n0 ns] eqn:Hnodes; [done|].
  rewrite <- Hnodes in *.
  set (P := fun r : nat => (r < length (nodes h))%nat).
  assert (Hclosed : forall l, closed_at (nodes h) l P).
  { intros l a b _ Hb. by destruct (Hok a l b Hb). }
  assert (Hties' : no_ties_in (nodes h) query P).
  { apply no_ties_prefix. by rewrite firstn_all. }
  assert (H0 : P O) by (unfold P; rewrite Hnodes; simpl; lia).
  rewrite (descend_agree (nodes h) query 0 P Hties' Hclosed _ O H0).
  pose proof (@descend_spec F float_ops order2 (nodes h) query 0
                (fun _ => P) Hclosed ltac:(done)
                (Z.to_nat (maxLevel h)) O H0) as Hdesc.
  destruct (@descend F float_ops order2 (nodes h) query 0
              (Z.to_nat (maxLevel h)) 0) as [ep|e]; simpl; [|done].
  simpl in Hdesc.
  by rewrite (searchLayer_agree (nodes h) query ep 0 k P Hties' Hdesc
                (Hclosed _)).
Qed.

End TwoRuns.

(** C9, as amended.  Two indexes built with the same configuration from the
    same insertion sequence sample the same levels (the engine is default
    constructed and its state depends on the number of draws only), so they
    hold the same points with the same numbers of layers, wherever the
    allocator puts the nodes.  The addresses of the nodes can only decide
    between two nodes at the same distance of the point that is searched
    for.  When no insertion of the run meets such a tie, the second run
    builds the very index the first one built, however differently the two
    allocators order the addresses, and the two indexes give the same
    answer to every query that has no two stored points at the same
    distance.  (Floats without ties are not NaN and [<] orders them
    totally, so the pairs of a queue are ordered by their distances alone
    and the queue holds them in the one order its comparison allows.) *)
Theorem runs_agree {F Engine : Type} {float_ops : Float F}
  {engine : RandomEngine F Engine} (order1 order2 : AddressOrder)
  (M ef : Z) (mult : F) (pts : list (Point F)) (h1 : HNSW F Engine) :
  @insert_all F float_ops order1 Engine engine (HNSW_new M ef mult) pts
    = Ok h1 ->
  (forall h2 : HNSW F Engine,
     @insert_all F float_ops order2 Engine engine (HNSW_new M ef mult) pts
       = Ok h2 ->
     generator h1 = generator h2 /\
     point <$> nodes h1 = point <$> nodes h2 /\
     (fun nd => length (neighbors nd)) <$> nodes h1
       = (fun nd => length (neighbors nd)) <$> nodes h2) /\
  (no_ties_run pts ->
   @insert_all F float_ops order2 Engine engine (HNSW_new M ef mult) pts
     = Ok h1 /\
   forall (query : Point F) (k : Z),
     no_ties pts query ->
     @search F float_ops order1 Engine h1 query k
       = @search F float_ops order2 Engine h1 query k).
Proof.
  intros H1.
  pose proof (@insert_all_points F float_ops order1 Engine engine _ _ _
                (reachable_new M ef mult) H1) as Hp1.
  split.
  - intros h2 H2.
    pose proof (@insert_all_levels F float_ops order1 Engine engine _ _ _
                  (reachable_new M ef mult) H1) as [Hg1 Hl1].
    pose proof (@insert_all_levels F float_ops order2 Engine engine _ _ _
                  (reachable_new M ef mult) H2) as [Hg2 Hl2].
    pose proof (@insert_all_points F float_ops order2 Engine engine _ _ _
                  (reachable_new M ef mult) H2) as Hp2.
    split_and!; congruence.
  - intros Hties. split.
    + rewrite <- (insert_all_agree order1 order2 pts (HNSW_new M ef mult) []
                    (reachable_new M ef mult) eq_refl); [done|].
      intros i pt Hpt. simpl. by apply Hties.
    + intros query k Hq. apply search_agree.
      * apply (@reachable_graph_ok F float_ops order1 Engine engine).
        by eapply reachable_insert_all; [apply reachable_new|].
      * by rewrite Hp1.
Qed.

(** ** The model at work *)

Module ScenarioFacts.

Import Scenario.

Lemma Z_ltb_asym (a b : Z) : (a <? b) = true -> (b <? a) = false.
Proof. intros H. apply Z.ltb_lt in H. apply Z.ltb_ge. lia. Qed.

(** C1 fails as stated: [HNSW(4, 200, 0.0f)] holding [A = (0)] and
    [B = (10)] answers [search((1), 2)] with [B] before [A], at distances 9
    and 1. *)
Lemma search_not_ascending :
  build ascending [] 4 200 [A; B] = Ok wide /\
  query ascending wide Q 2 = Ok [B; A] /\
  @euclideanDistance Z Z_float Q B = Ok 9 /\
  @euclideanDistance Z Z_float Q A = Ok 1 /\
  ~ 9 <= 1.
Proof. split_and!; try (vm_compute; reflexivity). lia. Qed.

Lemma Z_ltb_strict_weak_order (D : Z -> Prop) :
  @strict_weak_order_on Z Z_float D.
Proof.
  split.
  - intros a b _ _. apply Z_ltb_asym.
  - intros a b c _ _ _. simpl. rewrite !Z.ltb_lt. lia.
Qed.

Lemma search_descending_witness :
  query ascending wide Q 2 = Ok [B; A] /\
  exists d1 d2,
    @euclideanDistance Z Z_float Q B = Ok d1 /\
    @euclideanDistance Z Z_float Q A = Ok d2 /\
    (d1 <? d2) = false.
Proof.
  assert (H : query ascending wide Q 2 = Ok [B; A])
    by (vm_compute; reflexivity).
  split; [exact H|].
  apply (@search_descending Z Z_float ascending (list Z) wide Q 2 [B; A]
           (Z_ltb_strict_weak_order _) H 0%nat 1%nat B A);
    [lia | reflexivity | reflexivity].
Defined.

(** C2 on the code: while [C = (4)] is inserted into [HNSW(1, 2, 0.0f)]
    holding [A = (0)] and [B = (10)], the candidates are [B] at distance 6
    and [A] at distance 4, and [selectNeighbors] links [C] with [B], the
    farthest of the two: the loop pops the max-heap from its top. *)
Theorem selectNeighbors_keeps_farthest :
  let heap := nodes two ++ [mkNode C [[]]] in
  @searchLayer Z Z_float ascending heap C 0 0 2 = Ok [(6, 1%nat); (4, O)] /\
  select_loop 1 [(6, 1%nat); (4, O)] [] ∅ = [1%nat] /\
  selectNeighbors 1 heap 2 [(6, 1%nat); (4, O)] 0 = Ok (nodes chain) /\
  insert_in ascending [] two C = Ok chain.
Proof. split_and!; vm_compute; reflexivity. Qed.

(** C3 on the code: the index [chain] holds 3 points, yet [search((1), 3)]
    returns 2 of them, and [search((1), 0)] returns 1 point. *)
Theorem search_result_size :
  build ascending [] 1 2 [A; B; C] = Ok chain /\
  query ascending chain Q 3 = Ok [B; A] /\
  query ascending chain Q 0 = Ok [A].
Proof. split_and!; vm_compute; reflexivity. Qed.

(** C4 fails as stated: an index that holds the 4-dimensional [A4] accepts
    the 2-dimensional [P2]; the call returns, the store has a second node
    and the first node has a new edge. *)
Lemma insert_accepts_short_vector :
  build ascending [] 4 200 [A4] = Ok single /\
  exists h',
    insert_in ascending [] single P2 = Ok h' /\
    length (nodes h') = 2%nat /\
    nbrs (nodes single) 0 0 = [] /\
    nbrs (nodes h') 0 0 = [1%nat].
Proof.
  split; [vm_compute; reflexivity|].
  eexists. split_and!; vm_compute; reflexivity.
Qed.

Lemma insert_ignores_dimension_witness :
  build ascending [] 4 200 [A4] = Ok single /\
  (exists h',
     insert_in ascending [] single P2 = Ok h' /\
     point <$> nodes h' = [A4; P2]) /\
  insert_in ascending [] single L5 = Err UndefinedBehaviour.
Proof.
  assert (H : build ascending [] 4 200 [A4] = Ok single)
    by (vm_compute; reflexivity).
  split; [exact H|].
  split.
  - refine (proj1 (@insert_ignores_dimension Z Z_float ascending (list Z)
                     (scripted []) 4 200 0 [A4] single P2 H _) _ _).
    + vm_compute. discriminate.
    + intros _. vm_compute. lia.
    + intros [|r] nd Hnd; simpl in Hnd.
      * injection Hnd as <-. simpl. lia.
      * destruct r; discriminate.
  - refine (proj2 (@insert_ignores_dimension Z Z_float ascending (list Z)
                     (scripted []) 4 200 0 [A4] single L5 H _)
              (mkNode A4 [[]]) _ _).
    + vm_compute. discriminate.
    + reflexivity.
    + simpl. lia.
Defined.

Lemma edges_symmetric_witness :
  build ascending [] 1 2 [A; B; C] = Ok chain /\
  (edge (nodes chain) 1 0 2 <-> edge (nodes chain) 2 0 1).
Proof.
  assert (H : build ascending [] 1 2 [A; B; C] = Ok chain)
    by (vm_compute; reflexivity).
  split; [exact H|].
  apply (@edges_symmetric Z Z_float ascending (list Z) (scripted []) 1 2 0
           [A; B; C] chain H).
Defined.

(** C6 on the code: in the index [chain] the search for [(1)] with
    [ef = 3] pops [B] at distance 9 while the result holds 2 entries, the
    farthest of them at distance 9, and stops there because 9 exceeds
    [lowerBound], which is still the distance 1 of the entry point.  The
    neighbour [C] of [B], at distance 3, is never visited. *)
Theorem searchLayer_stops_early :
  @searchLayer Z Z_float ascending (nodes chain) Q 0 0 3
    = Ok [(9, 1%nat); (1, O)] /\
  @searchLoop Z Z_float ascending 3 (nodes chain) Q 0 3
    (mkBeam [(9, 1%nat); (1, O)] [(9, 1%nat)] {[O; 1%nat]} 1)
    = Ok [(9, 1%nat); (1, O)] /\
  nbrs (nodes chain) 1 0 = [O; 2%nat] /\
  @euclideanDistance Z Z_float Q C = Ok 3.
Proof. split_and!; vm_compute; reflexivity. Qed.

(** C7 on the code.  When the first insertion samples level 2, [maxLevel]
    stays 0 although the only node has top layer 2: the early return of
    [insertNode] skips the update.  When the first insertion samples level
    0 and the second level 2, [maxLevel] becomes 2 but every descent still
    starts from [graph.nodes[0]], whose top layer is 0, and [search] reads
    [neighbors[2]] of that node. *)
Theorem maxLevel_and_entry_point :
  (build ascending [2] 4 200 [A] = Ok tall /\
   maxLevel tall = 0 /\ top_layer <$> nodes tall = [2]) /\
  (build ascending [0; 2] 4 200 [A; B] = Ok stale /\
   maxLevel stale = 2 /\ top_layer <$> nodes stale = [0; 2] /\
   query ascending stale Q 1 = Err UndefinedBehaviour).
Proof. split_and!; vm_compute; reflexivity. Qed.

Lemma new_node_degree_witness :
  build ascending [] 1 2 [A; B] = Ok two /\ 0 <= 1 /\
  insert_in ascending [] two C = Ok chain /\
  exists nd : Node Z,
    last (nodes chain) = Some nd /\ point nd = C /\
    forall ns, ns ∈ neighbors nd -> Z.of_nat (length ns) <= 1.
Proof.
  assert (H : build ascending [] 1 2 [A; B] = Ok two)
    by (vm_compute; reflexivity).
  assert (HM : 0 <= 1) by lia.
  assert (Hins : insert_in ascending [] two C = Ok chain)
    by (vm_compute; reflexivity).
  split_and!; [exact H | exact HM | exact Hins | ].
  apply (@new_node_degree Z Z_float ascending (list Z) (scripted []) 1 2 0
           [A; B] two C chain H HM Hins).
Defined.

(** C9 fails as stated: [A] and [A2] are at the same distance of every
    query, and the pointer comparison decides between them.  With the
    addresses in one order, [C5] is linked with [A2] and [search((5), 2)]
    returns [A2] first; with the addresses in the other order, [C5] is
    linked with [A] and the search returns [A] first. *)
Lemma runs_differ_on_ties :
  (build ascending [] 1 2 [A; A2; C5] = Ok twins_up /\
   build descending_addresses [] 1 2 [A; A2; C5] = Ok twins_down /\
   twins_up <> twins_down) /\
  (build ascending [] 1 2 [A; A2] = Ok twins /\
   build descending_addresses [] 1 2 [A; A2] = Ok twins /\
   query ascending twins C5 2 = Ok [A2; A] /\
   query descending_addresses twins C5 2 = Ok [A; A2]).
Proof. split_and!; try (vm_compute; reflexivity). discriminate. Qed.

(** No insertion of [A], [B], [C] and no search for [Q] meets a tie: [C]
    is at distances 4 and 6 of [A] and [B], and [Q] at distances 1, 9 and
    3 of the three points. *)
Lemma no_ties_run_ABC : @no_ties_run Z Z_float [A; B; C].
Proof.
  intros i pt Hi a b pa pb da db Hab Ha Hb Hda Hdb.
  destruct i as [|[|[|i]]]; simpl in Hi; try discriminate;
    injection Hi as <-;
    destruct a as [|[|a]]; simpl in Ha; try discriminate;
    destruct b as [|[|b]]; simpl in Hb; try discriminate;
    try congruence;
    injection Ha as <-; injection Hb as <-;
    vm_compute in Hda, Hdb; injection Hda as <-; injection Hdb as <-;
    vm_compute; auto.
Qed.

Lemma no_ties_ABC_Q : @no_ties Z Z_float [A; B; C] Q.
Proof.
  intros a b pa pb da db Hab Ha Hb Hda Hdb.
  destruct a as [|[|[|a]]]; simpl in Ha; try discriminate;
    destruct b as [|[|[|b]]]; simpl in Hb; try discriminate;
    try congruence;
    injection Ha as <-; injection Hb as <-;
    vm_compute in Hda, Hdb; injection Hda as <-; injection Hdb as <-;
    vm_compute; auto.
Qed.

Lemma runs_agree_witness :
  build ascending [] 1 2 [A; B; C] = Ok chain /\
  build descending_addresses [] 1 2 [A; B; C] = Ok chain /\
  query ascending chain Q 3 = query descending_addresses chain Q 3.
Proof.
  assert (H1 : build ascending [] 1 2 [A; B; C] = Ok chain)
    by (vm_compute; reflexivity).
  destruct (@runs_agree Z (list Z) Z_float (scripted [])
              ascending descending_addresses 1 2 0 [A; B; C] chain H1)
    as [_ H].
  destruct (H no_ties_run_ABC) as [H2 Hsearch].
  split_and!; [exact H1 | exact H2 | exact (Hsearch Q 3 no_ties_ABC_Q)].
Defined.



End ScenarioFacts.

(** * More properties of the index *)

Section MoreProperties.

Context {F : Type} {float_ops : Float F}.
Context {addresses : AddressOrder}.
Context {Engine : Type} {engine : RandomEngine F Engine}.

Implicit Types (heap : list (Node F)) (h : HNSW F Engine) (pt : Point F).

(** ** The edges one insertion adds *)

Lemma links_nbrs_old (newNode : nat) (level : Z) (chosen : list nat)
  heap heap' (a l : nat) :
  a <> newNode -> NoDup chosen ->
  foldM (link newNode level) heap chosen = Ok heap' ->
  nbrs heap' a l =
    nbrs heap a l
      ++ (if decide (a ∈ chosen /\ l = Z.to_nat level) then [newNode] else []).
Proof.
  intros Hne. revert heap.
  induction chosen as [|n chosen IH]; intros heap Hnd H; simpl in H.
  - injection H as <-. rewrite decide_False; [by rewrite app_nil_r|].
    intros [?%elem_of_nil _]. done.
  - bind_inv H as heap1 Hlink. apply NoDup_cons in Hnd as [Hn Hnd].
    rewrite (IH heap1 Hnd H), (link_nbrs _ _ _ _ _ a l Hlink).
    rewrite (decide_False (P := a = newNode /\ _)) by naive_solver.
    simpl. rewrite <- app_assoc. f_equal.
    destruct (decide (a = n /\ l = Z.to_nat level)) as [[-> ->]|Hno].
    + rewrite decide_False by naive_solver.
      rewrite decide_True; [done|]. split; [by left | done].
    + simpl. destruct (decide (a ∈ chosen /\ l = Z.to_nat level))
        as [[Hin ->]|Hno'].
      * rewrite decide_True; [done|]. split; [by right | done].
      * rewrite decide_False; [done|].
        intros [[->|Hin]%elem_of_cons ->]; naive_solver.
Qed.

Lemma select_loop_prefix (M : Z) (top : list (F * nat)) (chosen : list nat)
  (selected : gset nat) :
  chosen `prefix_of` select_loop M top chosen selected.
Proof.
  revert chosen selected.
  induction top as [|[d n] top IH]; intros chosen selected; simpl; [done|].
  destruct (_ <? _); [|done]. case_decide; [apply IH|].
  etrans; [|apply IH]. by apply prefix_app_r.
Qed.

Lemma select_loop_nonempty (M : Z) (top : list (F * nat)) :
  top <> [] -> 0 < size_t_of_int M -> select_loop M top [] ∅ <> [].
Proof.
  intros Hne HM. destruct top as [|[d n] top]; [done|]. simpl.
  replace (Z.of_nat 0 <? size_t_of_int M) with true
    by (symmetry; apply Z.ltb_lt; lia).
  pose proof (select_loop_prefix M top [n] ({[n]} ∪ ∅)) as [k Hk].
  rewrite Hk. done.
Qed.


Lemma extends_init heap (nd : Node F) :
  fresh nd ->
  extends heap (heap ++ [nd]) (length heap) (fun _ => []).
Proof.
  intros Hfresh. split_and!.
  - intros _. constructor.
  - by intros l b ?%elem_of_nil.
  - intros a l Ha. rewrite nbrs_snoc, decide_True by done.
    rewrite decide_False; [by rewrite app_nil_r | by intros ?%elem_of_nil].
  - intros l. rewrite nbrs_snoc, decide_False, decide_True by lia.
    by apply fresh_nbrs.
Qed.

Lemma extends_step (M ef : Z) (self l : nat) heap0 heap heap'
  (query : Point F) (enterPoint : nat) (top : list (F * nat))
  (added : nat -> list nat) :
  inserting self (S l) heap -> (enterPoint < self)%nat ->
  extends heap0 heap self added -> added l = [] ->
  searchLayer heap query enterPoint (Z.of_nat l) ef = Ok top ->
  selectNeighbors M heap self top (Z.of_nat l) = Ok heap' ->
  let chosen := select_loop M top [] ∅ in
  extends heap0 heap' self
    (fun lv => if decide (lv = l) then chosen else added lv) /\
  (0 < size_t_of_int M -> chosen <> []).
Proof.
  intros Hins Hep (Hnd & Hlt & Hold & Hnew) Hl Hsearch Hsel chosen.
  pose proof (inserting_closed self l heap Hins) as Hclosed.
  rewrite <- (Nat2Z.id l) in Hclosed.
  destruct (searchLayer_Ok heap query enterPoint (Z.of_nat l) ef
              (fun r => (r < self)%nat) top Hep Hclosed Hsearch)
    as [Htop Hne].
  destruct (select_loop_chosen M top) as (Hnd' & Hsub & _).
  fold chosen in Hnd', Hsub.
  assert (Hchosen : forall n, n ∈ chosen -> (n < self)%nat).
  { intros n [d Hd]%Hsub. by destruct (Htop d n Hd). }
  assert (Hnot : self ∉ chosen) by (intros Hs%Hchosen; lia).
  unfold selectNeighbors in Hsel. fold chosen in Hsel.
  split; [split_and!|].
  - intros lv. case_decide; [done | apply Hnd].
  - intros lv b. case_decide; [apply Hchosen | apply Hlt].
  - intros a lv Ha.
    rewrite (links_nbrs_old self (Z.of_nat l) chosen heap heap' a lv
               ltac:(lia) Hnd' Hsel).
    rewrite Nat2Z.id, (Hold a lv Ha), <- app_assoc. f_equal.
    destruct (decide (lv = l)) as [->|Hlv].
    + rewrite Hl. rewrite (decide_False (P := a ∈ [])) by by intros ?%elem_of_nil.
      simpl. destruct (decide (a ∈ chosen)).
      * by rewrite decide_True.
      * rewrite decide_False; [done | naive_solver].
    + rewrite (decide_False (P := a ∈ chosen /\ lv = l)) by naive_solver.
      by rewrite app_nil_r.
  - intros lv. rewrite (links_nbrs_new self (Z.of_nat l) chosen heap heap' lv
                          Hnot Hsel).
    rewrite Nat2Z.id, Hnew. destruct (decide (lv = l)) as [->|Hlv].
    + by rewrite Hl.
    + by rewrite app_nil_r.
  - intros HM. by apply select_loop_nonempty.
Qed.

(** The edges of a completed [insertNode]. *)
Lemma insertNode_edges h (newNode : Node F) h' :
  graph_ok (nodes h) -> fresh newNode -> insertNode h newNode = Ok h' ->
  exists added : nat -> list nat,
    extends (nodes h) (nodes h') (length (nodes h)) added /\
    (forall l, (linked_layers h (top_layer newNode) <= l)%nat ->
               added l = []) /\
    (0 < size_t_of_int (maxNeighbors h) ->
     forall l, (l < linked_layers h (top_layer newNode))%nat ->
               added l <> []).
Proof.
  intros Hok Hfresh. unfold insertNode, linked_layers, top_layer.
  destruct (nodes h) as [|n0 ns] eqn:Hnodes.
  - intros [= <-]. simpl. exists (fun _ => []).
    split_and!; [apply (extends_init [] newNode Hfresh) | done | ].
    intros _ l Hl. lia.
  - rewrite <- Hnodes in *. intros H.
    bind_inv H as ep Hep. bind_inv H as heap' Hlink.
    inversion H; subst h'; clear H. simpl.
    assert (Hep_lt : (ep < length (nodes h))%nat).
    { eapply descend_older; [done | done | | exact Hep].
      rewrite Hnodes. simpl. lia. }
    set (N := length (nodes h)) in *.
    set (cnt := Z.to_nat
                  (Z.min (maxLevel h)
                     (Z.of_nat (length (neighbors newNode)) - 1) + 1)) in *.
    set (M := maxNeighbors h) in *.
    set (I := fun (c : nat) (a : list (Node F)) =>
         (c <= cnt)%nat /\ inserting N c a /\
         exists added,
           extends (nodes h) a N added /\
           (forall l, (l < c)%nat \/ (cnt <= l)%nat -> added l = []) /\
           (0 < size_t_of_int M ->
            forall l, (c <= l < cnt)%nat -> added l <> [])).
    assert (HI : I O heap').
    { revert Hlink. apply (link_levels_inv I); unfold I.
      - intros l a nd top a' (Hc & Hins & added & Hext & Hempty & Hfull)
          _ Hsearch Hsel.
        destruct (inserting_step M (efConstruction h) N l a (point nd) ep top
                    a' Hins Hep_lt Hsearch Hsel) as [Hins' _].
        destruct (extends_step M (efConstruction h) N l (nodes h) a a'
                    (point nd) ep top added Hins Hep_lt Hext
                    (Hempty l ltac:(lia)) Hsearch Hsel) as [Hext' Hne].
        split_and!; [lia | done | ].
        eexists. split_and!; [exact Hext' | | ].
        + intros lv Hlv. cbv beta. rewrite decide_False by lia.
          apply Hempty. lia.
        + intros HM lv Hlv. cbv beta. case_decide as Hd; [by apply Hne|].
          apply Hfull; [done | lia].
      - split_and!; [done | by apply inserting_init | ].
        exists (fun _ => []). split_and!; [by apply extends_init | done | ].
        intros _ l Hl. lia. }
    destruct HI as (_ & _ & added & Hext & Hempty & Hfull).
    exists added. split_and!; [done | | ].
    + intros l Hl. apply Hempty. by right.
    + intros HM l Hl. apply Hfull; [done | lia].
Qed.

Lemma reachable_maxLevel h : reachable h -> 0 <= maxLevel h.
Proof.
  intros (M & ef & mult & pts & Hall)%reachable_config.
  by destruct (insert_all_config _ _ _ _ _ Hall) as (_ & _ & _ & ?).
Qed.

(** The edges of a completed [insert]. *)
Lemma insert_edges h pt h' :
  graph_ok (nodes h) -> insert h pt = Ok h' ->
  exists added : nat -> list nat,
    extends (nodes h) (nodes h') (length (nodes h)) added /\
    (forall l,
       (linked_layers h (Z.of_nat (layers (nodes h') (length (nodes h))) - 1)
        <= l)%nat -> added l = []) /\
    (0 < size_t_of_int (maxNeighbors h) ->
     forall l,
       (l < linked_layers h
              (Z.of_nat (layers (nodes h') (length (nodes h))) - 1))%nat ->
       added l <> []).
Proof.
  intros Hok (level & g & newNode & Hdraw & Hnew & Hins)%insert_inv.
  destruct (new_Node_Ok _ _ _ Hnew) as (Hfresh & _).
  pose proof Hins as Hins'.
  apply insertNode_Ok in Hins' as (_ & _ & _ & Hlay & _); [ | done | done].
  apply insertNode_edges in Hins as (added & Hext & Hempty & Hfull);
    [ | done | done].
  simpl in *. rewrite Hlay, layers_snoc.
  rewrite decide_False, decide_True by (done || lia).
  exists added. split_and!; done.
Qed.

Lemma extends_edge heap0 heap (self : nat) (added : nat -> list nat)
  (a l b : nat) :
  length heap = S self -> extends heap0 heap self added ->
  b ∈ nbrs heap a l ->
  b ∈ nbrs heap0 a l /\ (a < self)%nat \/
  a = self /\ b ∈ added l \/
  b = self /\ a ∈ added l.
Proof.
  intros Hlen (_ & Hlt & Hold & Hnew) Hb.
  destruct (nbrs_lt _ _ _ _ Hb) as [Ha _]. rewrite Hlen in Ha.
  destruct (decide (a = self)) as [->|Hne].
  - rewrite Hnew in Hb. auto.
  - rewrite Hold in Hb by lia.
    apply elem_of_app in Hb as [Hb|Hb]; [left; split; [done | lia]|].
    case_decide; [|by apply elem_of_nil in Hb].
    apply list_elem_of_singleton in Hb. auto.
Qed.

(** ** The shape of the graph *)

(** X1.  In an index that completed its insertions every neighbour
    reference is sound: an edge at layer [l] starts at a stored node that
    has layer [l] and ends at a stored node that has layer [l].  No list
    holds a pointer to a node outside [graph.nodes] or to a node that is
    not part of that layer. *)
Theorem neighbours_are_stored (M ef : Z) (mult : F) (pts : list (Point F))
  h (a l b : nat) :
  insert_all (HNSW_new M ef mult) pts = Ok h ->
  edge (nodes h) a l b ->
  (a < length (nodes h))%nat /\ (l < layers (nodes h) a)%nat /\
  (b < length (nodes h))%nat /\ (l < layers (nodes h) b)%nat.
Proof.
  intros Hall Hedge.
  pose proof (reachable_graph_ok h
                (reachable_insert_all _ _ _ (reachable_new M ef mult) Hall))
    as Hok.
  destruct (nbrs_lt _ _ _ _ Hedge). destruct (Hok _ _ _ Hedge). done.
Qed.

(** X2.  An insertion never removes or reorders anything: every neighbour
    list of an older node is unchanged or has the new node appended at its
    end, and every older node keeps its point and its number of layers. *)
Theorem insert_only_appends (M ef : Z) (mult : F) (pts : list (Point F))
  h pt h' :
  insert_all (HNSW_new M ef mult) pts = Ok h -> insert h pt = Ok h' ->
  (forall a l, (a < length (nodes h))%nat ->
     nbrs (nodes h') a l = nbrs (nodes h) a l \/
     nbrs (nodes h') a l = nbrs (nodes h) a l ++ [length (nodes h)]) /\
  (forall a nd, nodes h !! a = Some nd ->
     exists nd', nodes h' !! a = Some nd' /\ point nd' = point nd /\
                 length (neighbors nd') = length (neighbors nd)).
Proof.
  intros Hall Hins.
  pose proof (reachable_graph_ok h
                (reachable_insert_all _ _ _ (reachable_new M ef mult) Hall))
    as Hok.
  destruct (insert_edges _ _ _ Hok Hins) as (added & (_ & _ & Hold & _) & _).
  destruct (insert_Ok _ _ _ Hok Hins) as (_ & Hlen & Hpts & Hlay & _).
  split.
  - intros a l Ha. rewrite (Hold a l Ha).
    case_decide; [by right | left; by rewrite app_nil_r].
  - intros a nd Hnd. pose proof (lookup_lt_Some _ _ _ Hnd) as Ha.
    destruct (lookup_lt_is_Some_2 (nodes h') a ltac:(lia)) as [nd' Hnd'].
    exists nd'. split_and!; [done | | ].
    + assert (Hl : (point <$> nodes h') !! a = Some (point nd'))
        by by rewrite list_lookup_fmap, Hnd'.
      rewrite Hpts, lookup_app_l in Hl by by rewrite length_fmap.
      rewrite list_lookup_fmap, Hnd in Hl. simpl in Hl. congruence.
    + specialize (Hlay a Ha). unfold layers in Hlay.
      by rewrite Hnd, Hnd' in Hlay.
Qed.

(** X3.  An insertion never links two older nodes with each other: every
    edge of the index after the insertion is an edge of the index before,
    or joins the new node and an older node. *)
Theorem insert_links_new_node (M ef : Z) (mult : F) (pts : list (Point F))
  h pt h' (a l b : nat) :
  insert_all (HNSW_new M ef mult) pts = Ok h -> insert h pt = Ok h' ->
  edge (nodes h') a l b ->
  edge (nodes h) a l b \/
  a = length (nodes h) /\ (b < length (nodes h))%nat \/
  b = length (nodes h) /\ (a < length (nodes h))%nat.
Proof.
  intros Hall Hins Hedge.
  pose proof (reachable_graph_ok h
                (reachable_insert_all _ _ _ (reachable_new M ef mult) Hall))
    as Hok.
  destruct (insert_edges _ _ _ Hok Hins) as (added & Hext & _).
  destruct (insert_Ok _ _ _ Hok Hins) as (_ & Hlen & _).
  destruct (extends_edge _ _ _ _ a l b Hlen Hext Hedge)
    as [[? _]|[[-> Hb]|[-> Ha]]]; [by left | right; left | right; right];
    (split; [done|]); by apply (proj1 (proj2 Hext) l).
Qed.

Lemma reachable_simple h :
  reachable h ->
  forall a l, NoDup (nbrs (nodes h) a l) /\ a ∉ nbrs (nodes h) a l.
Proof.
  induction 1 as [M ef mult|h h' pt Hr IH Hins]; intros a l.
  - unfold nbrs. simpl. split; [constructor | by intros ?%elem_of_nil].
  - pose proof (reachable_graph_ok h Hr) as Hok.
    destruct (insert_edges _ _ _ Hok Hins)
      as (added & (Hnd & Hlt & Hold & Hnew) & _).
    destruct (insert_Ok _ _ _ Hok Hins) as (_ & Hlen & _).
    destruct (decide (a < length (nodes h))%nat) as [Ha|Ha].
    + rewrite (Hold a l Ha). destruct (IH a l) as [IHnd IHself].
      assert (Hfresh : length (nodes h) ∉ nbrs (nodes h) a l).
      { intros Hin. destruct (Hok _ _ _ Hin). lia. }
      split.
      * apply NoDup_app. split_and!; [done | | ].
        -- intros x Hx. case_decide; [|by intros ?%elem_of_nil].
           intros ->%list_elem_of_singleton. done.
        -- case_decide; [apply NoDup_singleton | constructor].
      * intros [Hin|Hin]%elem_of_app; [done|].
        case_decide; [|by apply elem_of_nil in Hin].
        apply list_elem_of_singleton in Hin. lia.
    + destruct (decide (a = length (nodes h))) as [->|Hne].
      * rewrite Hnew. split; [apply Hnd|]. intros Hin%Hlt. lia.
      * unfold nbrs. rewrite lookup_ge_None_2 by lia.
        split; [constructor | by intros ?%elem_of_nil].
Qed.

(** X4.  The graph of every layer is simple: no node lists itself as a
    neighbour and no neighbour list holds the same node twice. *)
Theorem graph_is_simple (M ef : Z) (mult : F) (pts : list (Point F)) h
  (a l : nat) :
  insert_all (HNSW_new M ef mult) pts = Ok h ->
  NoDup (nbrs (nodes h) a l) /\ ~ edge (nodes h) a l a.
Proof.
  intros Hall. apply reachable_simple.
  by apply (reachable_insert_all _ _ _ (reachable_new M ef mult) Hall).
Qed.

(** X5.  Which layers of a new node get neighbours.  With [maxNeighbors]
    at least 1, the node created by an insertion into a non-empty index has
    a neighbour at layer [l] exactly when it has layer [l] and [l] is at
    most the [maxLevel] of the index before; the first node of an index,
    and the layers of a node above the old [maxLevel], start without
    neighbours. *)
Theorem new_node_linked_layers (M ef : Z) (mult : F) (pts : list (Point F))
  h pt h' (l : nat) :
  insert_all (HNSW_new M ef mult) pts = Ok h -> 0 < size_t_of_int M ->
  insert h pt = Ok h' ->
  nbrs (nodes h') (length (nodes h)) l <> [] <->
  nodes h <> [] /\ Z.of_nat l <= maxLevel h /\
  (l < layers (nodes h') (length (nodes h)))%nat.
Proof.
  intros Hall HM Hins.
  pose proof (reachable_insert_all _ _ _ (reachable_new M ef mult) Hall) as Hr.
  pose proof (reachable_graph_ok h Hr) as Hok.
  pose proof (reachable_maxLevel h Hr) as HmL.
  destruct (insert_all_config _ _ _ _ _ Hall) as (HMh & _).
  destruct (insert_edges _ _ _ Hok Hins)
    as (added & (_ & _ & _ & Hnew) & Hempty & Hfull).
  rewrite HMh in Hfull. specialize (Hfull HM). rewrite Hnew.
  unfold linked_layers in *.
  destruct (nodes h) as [|n0 ns] eqn:Hnodes.
  - split; [|naive_solver]. intros Hne. destruct Hne. apply Hempty. lia.
  - rewrite <- Hnodes in *. split.
    + intros Hne.
      destruct (decide (l < Z.to_nat
                  (Z.min (maxLevel h)
                     (Z.of_nat (layers (nodes h') (length (nodes h))) - 1)
                   + 1))%nat) as [Hl|Hl].
      * split_and!; [by rewrite Hnodes | lia | lia].
      * destruct Hne. apply Hempty. lia.
    + intros (_ & Hl1 & Hl2). apply Hfull. lia.
Qed.

Lemma reachable_base_layer h :
  reachable h -> 0 < size_t_of_int (maxNeighbors h) ->
  (forall a, (a < length (nodes h))%nat -> (0 < layers (nodes h) a)%nat) ->
  (2 <= length (nodes h))%nat ->
  forall a, (a < length (nodes h))%nat -> nbrs (nodes h) a O <> [].
Proof.
  induction 1 as [M ef mult|h h' pt Hr IH Hins]; intros HM Hlayers Hlen a Ha.
  - simpl in Hlen. lia.
  - pose proof (reachable_graph_ok h Hr) as Hok.
    pose proof (reachable_maxLevel h Hr) as HmL.
    destruct (insert_edges _ _ _ Hok Hins)
      as (added & (_ & Hlt & Hold & Hnew) & _ & Hfull).
    destruct (insert_Ok _ _ _ Hok Hins)
      as (_ & Hlen' & _ & Hlay & _ & HMh & _).
    rewrite HMh in HM. specialize (Hfull HM).
    rewrite Hlen' in *.
    assert (Hne : nodes h <> []).
    { intros Hnil. rewrite Hnil in Hlen. simpl in Hlen. lia. }
    assert (Hadded : added O <> []).
    { apply Hfull. unfold linked_layers.
      destruct (nodes h) as [|n0 ns]; [done|].
      specialize (Hlayers (length (n0 :: ns)) ltac:(lia)). lia. }
    destruct (decide (a = length (nodes h))) as [->|Hne_a].
    { by rewrite Hnew. }
    rewrite Hold by lia.
    destruct (decide (2 <= length (nodes h))%nat) as [H2|H2].
    + intros [Hnil _]%app_eq_nil. revert Hnil. apply IH; [done | | done | lia].
      intros x Hx. rewrite <- Hlay by done. apply Hlayers. lia.
    + assert (a = O) as -> by lia.
      destruct (added O) as [|b rest] eqn:Hb; [done|].
      assert (b = O) as ->.
      { specialize (Hlt O b). rewrite Hb in Hlt.
        specialize (Hlt ltac:(by left)). lia. }
      rewrite decide_True by by left.
      intros [_ ?]%app_eq_nil. done.
Qed.

(** X6.  The base layer has no isolated node.  In an index of at least two
    nodes built with [maxNeighbors] at least 1, in which every node has
    layer 0 (every sampled level was at least 0), every node has a
    neighbour at layer 0. *)
Theorem base_layer_has_no_isolated_node (M ef : Z) (mult : F)
  (pts : list (Point F)) h (a : nat) :
  insert_all (HNSW_new M ef mult) pts = Ok h -> 0 < size_t_of_int M ->
  (forall b, (b < length (nodes h))%nat -> (0 < layers (nodes h) b)%nat) ->
  (2 <= length (nodes h))%nat -> (a < length (nodes h))%nat ->
  nbrs (nodes h) a O <> [].
Proof.
  intros Hall HM Hlayers Hlen Ha.
  destruct (insert_all_config _ _ _ _ _ Hall) as (HMh & _).
  apply reachable_base_layer; try done.
  - by apply (reachable_insert_all _ _ _ (reachable_new M ef mult) Hall).
  - by rewrite HMh.
Qed.

(** ** The size and the content of a search result *)

Lemma pq_push_refs comp (x : F * nat) (q : list (F * nat)) :
  (pq_push comp x q).*2 ≡ₚ x.2 :: q.*2.
Proof.
  induction q as [|y q IH]; simpl; [done|].
  destruct (comp x y); simpl; [|done].
  rewrite IH. apply Permutation_swap.
Qed.

(** The result of a layer search holds at least one and at most [ef]
    entries (one entry when [ef] is 0). *)
Lemma searchLayer_length heap (query : Point F) (enterPoint : nat)
  (level ef : Z) (top : list (F * nat)) :
  searchLayer heap query enterPoint level ef = Ok top ->
  1 <= Z.of_nat (length top) <= Z.max 1 (size_t_of_int ef).
Proof.
  intros H.
  destruct (searchLayer_keeps
              (fun t _ _ => 1 <= Z.of_nat (length t)
                            <= Z.max 1 (size_t_of_int ef))
              heap query enterPoint level ef top) as (_ & _ & Hlen);
    [ | | exact H | exact Hlen].
  - intros st n st' Hst
      [[-> _]|(_ & _ & d & _ & Hcase)]%visit_cases; [done|].
    cbv zeta in Hcase.
    destruct Hcase as [(_ & -> & _)|(_ & _ & Hcase)]; [done|].
    rewrite length_pq_push in Hcase.
    destruct Hcase as [(Hle%Z.ltb_ge & -> & _)|(_ & w & rest & Hw & -> & _)].
    + rewrite length_pq_push. lia.
    + pose proof (length_pq_push pair_lt (d, n) (topCandidates st)) as Hl.
      destruct (pq_push pair_lt (d, n) (topCandidates st)); [done|].
      simpl in *. lia.
  - intros lb _. simpl. lia.
Qed.

(** The result of a layer search names no node twice. *)
Lemma searchLayer_NoDup heap (query : Point F) (enterPoint : nat)
  (level ef : Z) (top : list (F * nat)) :
  searchLayer heap query enterPoint level ef = Ok top -> NoDup top.*2.
Proof.
  intros H.
  destruct (searchLayer_keeps
              (fun t vis _ => NoDup t.*2 /\ forall p, p ∈ t.*2 -> p ∈ vis)
              heap query enterPoint level ef top) as (_ & _ & Hnd & _);
    [ | | exact H | exact Hnd].
  - intros st n st' [Hnd Hsub]
      [[-> _]|(Hn & -> & d & _ & Hcase)]%visit_cases; [done|].
    cbv zeta in Hcase.
    assert (Hpush : NoDup (pq_push pair_lt (d, n) (topCandidates st)).*2 /\
                    forall p, p ∈ (pq_push pair_lt (d, n) (topCandidates st)).*2
                              -> p ∈ ({[n]} ∪ visited st : gset nat)).
    { split.
      - rewrite pq_push_refs. simpl. apply NoDup_cons. split; [|done].
        intros Hin. apply Hn. by apply Hsub.
      - intros p. rewrite pq_push_refs. simpl.
        intros [->|Hp]%elem_of_cons; [set_solver|].
        apply elem_of_union_r. by apply Hsub. }
    destruct Hcase as [(_ & -> & _)|(_ & _ & Hcase)].
    { split; [done|]. intros p Hp. apply elem_of_union_r. by apply Hsub. }
    destruct Hcase as [(_ & -> & _)|(_ & w & rest & Hw & -> & _)]; [done|].
    destruct Hpush as [Hnd' Hsub'].
    destruct (pq_push pair_lt (d, n) (topCandidates st)) as [|z q]; [done|].
    simpl in *. apply NoDup_cons in Hnd' as [_ Hnd'].
    split; [done|]. intros p Hp. apply Hsub'. by right.
  - intros lb _. simpl. split; [apply NoDup_singleton|].
    intros p ->%list_elem_of_singleton. set_solver.
Qed.

Lemma dist_to_unique heap (query : Point F) (r : nat) (d d' : F) :
  dist_to heap query r d -> dist_to heap query r d' -> d = d'.
Proof. intros (nd & Hnd & Hd) (nd' & Hnd' & Hd'). congruence. Qed.

(** With [ef = 1] the result is one node: the entry point, or a node that
    is strictly closer to the query. *)
Lemma searchLayer_greedy heap (query : Point F) (enterPoint : nat)
  (level : Z) (top : list (F * nat)) :
  (forall a b c : F, flt a b = true -> flt b c = true -> flt a c = true) ->
  searchLayer heap query enterPoint level 1 = Ok top ->
  exists lb d p,
    dist_to heap query enterPoint lb /\ top = [(d, p)] /\
    dist_to heap query p d /\
    (p = enterPoint /\ d = lb \/ flt d lb = true).
Proof.
  intros Htrans H.
  assert (Hone : size_t_of_int 1 = 1) by reflexivity.
  destruct (searchLayer_keeps
              (fun t _ cur => exists lb p,
                   dist_to heap query enterPoint lb /\ t = [(cur, p)] /\
                   dist_to heap query p cur /\
                   (p = enterPoint /\ cur = lb \/ flt cur lb = true))
              heap query enterPoint level 1 top)
    as (_ & cur & lb & p & Hlb & -> & Hp & Hcase); [ | | exact H | ].
  - intros st n st' (lb & p & Hlb & Htop & Hp & Hcur)
      [[-> _]|(_ & _ & d & Hd & Hcase)]%visit_cases; [by exists lb, p|].
    cbv zeta in Hcase. rewrite Htop, Hone in Hcase. simpl in Hcase.
    destruct Hcase as [(_ & -> & _ & ->)|(Haccepted & _ & Hcase)];
      [by exists lb, p|].
    unfold pair_lt in Hcase. simpl in Hcase. rewrite Haccepted in Hcase.
    simpl in Hcase.
    destruct Hcase as [(Hf & _)|(_ & w & rest & Hw & Ht & Hl)];
      [vm_compute in Hf; discriminate|].
    injection Hw as <- <-. rewrite Ht, Hl. simpl.
    exists lb, n. split_and!; [done | done | done | right].
    destruct Hcur as [[_ <-]|Hlt]; [done | by eapply Htrans].
  - intros lb Hlb. exists lb, enterPoint. split_and!; auto.
  - by exists lb, cur, p.
Qed.

Lemma descend_closer heap (query : Point F) (stop : Z)
  (cnt : nat) (enterPoint ep : nat) :
  (forall a b c : F, flt a b = true -> flt b c = true -> flt a c = true) ->
  descend heap query stop cnt enterPoint = Ok ep ->
  ep = enterPoint \/
  exists d d',
    dist_to heap query enterPoint d /\ dist_to heap query ep d' /\
    flt d' d = true.
Proof.
  intros Htrans. revert enterPoint.
  induction cnt as [|cnt IH]; intros enterPoint H.
  - simpl in H. injection H as <-. by left.
  - cbn [descend] in H. bind_inv H as top Htop. bind_inv H as best Hbest.
    apply searchLayer_greedy in Htop
      as (lb & d & p & Hlb & -> & Hp & Hcase); [|done].
    injection Hbest as <-. simpl in H.
    destruct (IH p H) as [->|(d1 & d2 & Hd1 & Hd2 & Hlt)].
    + destruct Hcase as [[-> _]|Hlt]; [by left|].
      right. by exists lb, d.
    + rewrite (dist_to_unique _ _ _ _ _ Hd1 Hp) in *.
      destruct Hcase as [[-> ->]|Hlt'].
      * right. by exists lb, d2.
      * right. exists lb, d2. split_and!; [done | done | by eapply Htrans].
Qed.

(** X7.  The greedy descent never moves away from the query: the node it
    ends at is the node it started from, or a node whose distance to the
    query is strictly smaller.  The only property of [<] on [float] used is
    transitivity. *)
Theorem greedy_descent_gets_closer heap (query : Point F) (stop : Z)
  (cnt : nat) (enterPoint ep : nat) :
  (forall a b c : F, flt a b = true -> flt b c = true -> flt a c = true) ->
  descend heap query stop cnt enterPoint = Ok ep ->
  ep = enterPoint \/
  exists d d',
    dist_to heap query enterPoint d /\ dist_to heap query ep d' /\
    flt d' d = true.
Proof. apply descend_closer. Qed.


(** X8.  [search] returns the empty sequence on an empty index only; on
    any other index it returns at least one point and at most [k] points
    (one point when [k] is 0; [k] counts as a [size_t]). *)
Theorem search_result_count h (query : Point F) (k : Z)
  (results : list (Point F)) :
  search h query k = Ok results ->
  nodes h = [] /\ results = [] \/
  nodes h <> [] /\
  1 <= Z.of_nat (length results) <= Z.max 1 (size_t_of_int k).
Proof.
  unfold search. destruct (nodes h) as [|n0 ns] eqn:Hnodes.
  { intros [= <-]. by left. }
  rewrite <- Hnodes. intros H. right. split; [by rewrite Hnodes|].
  bind_inv H as ep Hep. bind_inv H as top Htop.
  apply drain_Ok, Forall2_length in H. rewrite <- H.
  by apply searchLayer_length in Htop.
Qed.

(** X9.  Every point [search] returns is the point of a stored node that
    can be reached from [graph.nodes[0]] along edges, and no node is
    returned twice. *)
Theorem search_results_are_nodes h (query : Point F) (k : Z)
  (results : list (Point F)) :
  search h query k = Ok results ->
  exists refs : list nat,
    NoDup refs /\
    Forall2 (fun r p => exists nd, nodes h !! r = Some nd /\ point nd = p)
            refs results /\
    forall r, r ∈ refs -> connected (nodes h) O r.
Proof.
  unfold search. destruct (nodes h) as [|n0 ns] eqn:Hnodes.
  { intros [= <-]. exists []. split_and!; [constructor | constructor | ].
    by intros r ?%elem_of_nil. }
  rewrite <- Hnodes. intros H.
  bind_inv H as ep Hep. bind_inv H as top Htop.
  assert (Hclosed : forall l, closed_at (nodes h) l (connected (nodes h) O)).
  { intros l a b Ha Hb. eapply rtc_r; [exact Ha|]. by exists l. }
  pose proof (descend_spec (nodes h) query 0
                (fun _ r => connected (nodes h) O r) Hclosed ltac:(done)
                (Z.to_nat (maxLevel h)) O ltac:(apply rtc_refl)) as Hdesc.
  rewrite Hep in Hdesc. simpl in Hdesc.
  destruct (searchLayer_Ok _ _ _ _ _ (connected (nodes h) O) _ Hdesc
              (Hclosed _) Htop) as [Hentries _].
  exists top.*2. split_and!.
  - by eapply searchLayer_NoDup.
  - apply Forall2_fmap_l. apply drain_Ok in H. exact H.
  - intros r [[d r'] [-> Hin]]%list_elem_of_fmap. simpl.
    by destruct (Hentries d r' Hin).
Qed.

(** ** maxLevel, and when the index can be used *)

Lemma foldr_max_snoc (l : list Z) (t : Z) :
  foldr Z.max 0 (l ++ [t]) = Z.max (foldr Z.max 0 l) t.
Proof. induction l as [|x l IH]; simpl; [lia | rewrite IH; lia]. Qed.

Lemma foldr_max_le (l : list Z) (t : Z) :
  foldr Z.max 0 l <= t <-> 0 <= t /\ Forall (fun x => x <= t) l.
Proof.
  induction l as [|x l IH]; simpl.
  - split; [intros; split; [done | constructor] | tauto].
  - rewrite Z.max_lub_iff, IH, Forall_cons. tauto.
Qed.

Lemma top_layer_snoc h pt h' :
  graph_ok (nodes h) -> insert h pt = Ok h' ->
  top_layer <$> nodes h' =
    (top_layer <$> nodes h)
      ++ [Z.of_nat (layers (nodes h') (length (nodes h))) - 1].
Proof.
  intros Hok Hins.
  destruct (insert_Ok _ _ _ Hok Hins) as (_ & Hlen & _ & Hlay & _).
  pose proof (layers_snoc_list _ _ Hlen Hlay) as Hlist.
  assert (Htop : forall l : list (Node F),
            top_layer <$> l =
              (fun n => Z.of_nat n - 1)
                <$> ((fun nd : Node F => length (neighbors nd)) <$> l)).
  { intros l. by rewrite <- list_fmap_compose. }
  rewrite !Htop, Hlist, fmap_app. done.
Qed.

Lemma insert_maxLevel h pt h' :
  graph_ok (nodes h) -> insert h pt = Ok h' ->
  maxLevel h' =
    match nodes h with
    | [] => maxLevel h
    | _ :: _ =>
        Z.max (maxLevel h)
              (Z.of_nat (layers (nodes h') (length (nodes h))) - 1)
    end.
Proof.
  intros Hok (level & g & newNode & Hdraw & Hnew & Hins)%insert_inv.
  destruct (new_Node_Ok _ _ _ Hnew) as (Hfresh & _).
  pose proof Hins as Hins'.
  apply insertNode_Ok in Hins' as (_ & _ & _ & Hlay & _); [ | done | done].
  simpl in Hlay. rewrite Hlay, layers_snoc.
  rewrite decide_False, decide_True by (done || lia).
  unfold insertNode in Hins. simpl in Hins.
  destruct (nodes h) as [|n0 ns]; [by inversion Hins|].
  bind_inv Hins as ep Hep. bind_inv Hins as heap' Hl.
  inversion Hins; subst h'; simpl. destruct (Z.ltb_spec (maxLevel h)
    (Z.of_nat (length (neighbors newNode)) - 1)); lia.
Qed.

Lemma reachable_maxLevel_formula h :
  reachable h ->
  maxLevel h = foldr Z.max 0 (top_layer <$> tail (nodes h)).
Proof.
  induction 1 as [M ef mult|h h' pt Hr IH Hins]; [done|].
  pose proof (reachable_graph_ok h Hr) as Hok.
  rewrite (insert_maxLevel _ _ _ Hok Hins).
  rewrite fmap_tail, (top_layer_snoc _ _ _ Hok Hins).
  rewrite fmap_tail in IH.
  destruct (nodes h) as [|n0 ns]; simpl in *; [done|].
  by rewrite foldr_max_snoc, IH.
Qed.

(** X10.  [maxLevel] is the highest top layer among all nodes but the
    first one, and at least 0: the level of the first node never enters
    it. *)
Theorem maxLevel_formula (M ef : Z) (mult : F) (pts : list (Point F)) h :
  insert_all (HNSW_new M ef mult) pts = Ok h ->
  maxLevel h = foldr Z.max 0 (top_layer <$> tail (nodes h)).
Proof.
  intros Hall. apply reachable_maxLevel_formula.
  by apply (reachable_insert_all _ _ _ (reachable_new M ef mult) Hall).
Qed.

Lemma entry_ok_tallest h :
  reachable h -> nodes h <> [] ->
  entry_ok h <-> first_is_tallest (nodes h).
Proof.
  intros Hr Hne.
  pose proof (reachable_maxLevel_formula h Hr) as HmL.
  pose proof (reachable_maxLevel h Hr) as Hpos.
  unfold entry_ok, first_is_tallest, layers.
  destruct (nodes h) as [|n0 ns]; [done|]. simpl in *.
  assert (Hiff : (Z.to_nat (maxLevel h) < length (neighbors n0))%nat <->
                 0 <= top_layer n0 /\
                 Forall (fun x => x <= top_layer n0) (top_layer <$> ns)).
  { rewrite <- foldr_max_le, <- HmL. unfold top_layer. lia. }
  split.
  - intros Hentry. specialize (Hentry Hne).
    apply Hiff in Hentry as [H0 Hall]. exists n0. split_and!; [done | done | ].
    intros nd [->|Hnd]%elem_of_cons; [lia|].
    rewrite Forall_fmap, Forall_forall in Hall. by apply Hall.
  - intros (n & [= <-] & H0 & Hall) _. apply Hiff. split; [done|].
    rewrite Forall_fmap, Forall_forall. intros nd Hnd. apply Hall. by right.
Qed.

Lemma searchLayer_no_layer heap (query : Point F) (enterPoint : nat)
  (level ef : Z) (nd : Node F) :
  (forall a : F, flt a a = false) ->
  heap !! enterPoint = Some nd ->
  (length (neighbors nd) <= Z.to_nat level)%nat ->
  searchLayer heap query enterPoint level ef = Err UndefinedBehaviour.
Proof.
  intros Hirr Hnd Hlay. unfold searchLayer, deref. rewrite Hnd. simpl.
  destruct (euclideanDistance query (point nd)) as [lb|e] eqn:Hlb; simpl.
  2:{ by rewrite (euclideanDistance_failure _ _ _ Hlb). }
  pose proof (lookup_lt_Some _ _ _ Hnd) as Hlt.
  destruct (length heap) as [|fuel]; [lia|].
  cbn [searchLoop candidates lowerBound]. rewrite Hirr.
  unfold deref. rewrite Hnd. simpl. unfold vec_at.
  destruct (level <? 0); [done|].
  by rewrite lookup_ge_None_2.
Qed.

Lemma drain_total heap (top : list (F * nat)) :
  (forall d p, (d, p) ∈ top -> is_Some (heap !! p)) ->
  exists results, drain heap top = Ok results.
Proof.
  induction top as [|[d p] top IH]; intros Hall; simpl; [eauto|].
  destruct (Hall d p ltac:(by left)) as [nd Hnd].
  unfold deref. rewrite Hnd. simpl.
  destruct IH as [rest ->]; [|simpl; eauto].
  intros d' p' Hin. apply (Hall d' p'). by right.
Qed.

Lemma search_total h (query : Point F) (k : Z) :
  graph_ok (nodes h) -> 0 <= maxLevel h -> entry_ok h ->
  fits (nodes h) query ->
  exists results, search h query k = Ok results.
Proof.
  intros Hok HmL Hentry Hfits. unfold search.
  destruct (nodes h) as [|n0 ns] eqn:Hnodes; [eauto|].
  assert (Hne : nodes h <> []) by (by rewrite Hnodes).
  rewrite <- Hnodes in *. specialize (Hentry Hne).
  set (N := length (nodes h)). set (cap := Z.to_nat (maxLevel h)) in *.
  assert (HN : (0 < N)%nat) by (subst N; rewrite Hnodes; simpl; lia).
  assert (Hclosed : forall l m, (m <= l)%nat ->
                      closed_at (nodes h) l (in_layer (nodes h) N m)).
  { intros l m Hm a b _ Hb. destruct (Hok a l b Hb). split; [done | lia]. }
  pose proof (descend_spec (nodes h) query 0
                (fun l r => in_layer (nodes h) N (l `min` cap) r)
                ltac:(intros l; apply Hclosed; lia)
                ltac:(intros l l' r Hll [Hr Hl]; split; [done | lia])
                cap O ltac:(split; [done | lia])) as Hdesc.
  destruct (descend (nodes h) query 0 cap 0) as [ep|e]; simpl in Hdesc.
  2:{ destruct Hdesc as [_ Hbad]. exfalso. apply Hbad; [lia|].
      intros c Hc.
      replace (Z.to_nat (0 + Z.of_nat (S c)) `min` cap)%nat
        with (Z.to_nat (0 + Z.of_nat (S c))) by lia.
      by apply in_layer_readable. }
  simpl.
  assert (Hc0 : closed_at (nodes h) (Z.to_nat 0) (in_layer (nodes h) N O))
    by (apply (Hclosed O O); lia).
  destruct (searchLayer_total (nodes h) query ep 0 k (in_layer (nodes h) N O)
              Hdesc Hc0 ltac:(lia)) as [top Htop].
  { by apply in_layer_readable. }
  rewrite Htop. simpl.
  destruct (searchLayer_Ok (nodes h) query ep 0 k (in_layer (nodes h) N O)
              top Hdesc Hc0 Htop) as [Hentries _].
  apply drain_total. intros d p Hin.
  destruct (Hentries d p Hin) as (_ & nd & -> & _). eauto.
Qed.

Lemma search_needs_entry h (query : Point F) (k : Z) :
  (forall a : F, flt a a = false) ->
  nodes h <> [] -> 0 <= maxLevel h -> ~ entry_ok h ->
  search h query k = Err UndefinedBehaviour.
Proof.
  intros Hirr Hne HmL Hentry. unfold search, entry_ok, layers in *.
  destruct (nodes h) as [|n0 ns] eqn:Hnodes; [done|].
  rewrite <- Hnodes in *.
  assert (H0 : nodes h !! O = Some n0) by by rewrite Hnodes.
  rewrite H0 in Hentry.
  assert (Hlay : (length (neighbors n0) <= Z.to_nat (maxLevel h))%nat).
  { destruct (decide (length (neighbors n0) <= Z.to_nat (maxLevel h))%nat);
      [done|]. destruct Hentry. intros _. lia. }
  destruct (Z.to_nat (maxLevel h)) as [|c] eqn:Hcap.
  - cbn [descend bind].
    by rewrite (searchLayer_no_layer _ query O 0 k n0 Hirr H0).
  - cbn [descend].
    rewrite (searchLayer_no_layer _ query O _ 1 n0 Hirr H0); [done|]. lia.
Qed.

(** X11.  When [search] can return.  On a non-empty index that completed
    its insertions, for a query no longer than the stored vectors, [search]
    returns a result exactly when the first node has layer 0 and no node
    has a higher top layer than the first one; otherwise the descent indexes
    [neighbors] of [graph.nodes[0]] past its end.  [<] on [float] is taken
    irreflexive. *)
Theorem search_returns_iff (M ef : Z) (mult : F) (pts : list (Point F)) h
  (query : Point F) (k : Z) :
  insert_all (HNSW_new M ef mult) pts = Ok h -> nodes h <> [] ->
  fits (nodes h) query -> (forall a : F, flt a a = false) ->
  (exists results, search h query k = Ok results) <->
  first_is_tallest (nodes h).
Proof.
  intros Hall Hne Hfits Hirr.
  pose proof (reachable_insert_all _ _ _ (reachable_new M ef mult) Hall) as Hr.
  rewrite <- (entry_ok_tallest h Hr Hne). split.
  - intros [results Hres]. destruct (decide (entry_ok h)) as [|Hno]; [done|].
    rewrite (search_needs_entry h query k Hirr Hne
               (reachable_maxLevel h Hr) Hno) in Hres. done.
  - intros Hentry. apply search_total; try done.
    + by apply reachable_graph_ok.
    + by apply reachable_maxLevel.
Qed.

Lemma insert_needs_entry h pt :
  (forall a : F, flt a a = false) ->
  nodes h <> [] -> 0 <= maxLevel h -> ~ entry_ok h ->
  -1 <= (draw_level (generator h) (levelMult h)).1 ->
  insert h pt = Err UndefinedBehaviour.
Proof.
  intros Hirr Hne HmL Hentry. unfold insert, getRandomLevel.
  destruct (draw_level (generator h) (levelMult h)) as [level g]. simpl.
  intros Hlevel. unfold new_Node.
  destruct (Z.ltb_spec (level + 1) 0); [lia|]. simpl.
  unfold insertNode, entry_ok, layers in *. simpl.
  destruct (nodes h) as [|n0 ns] eqn:Hnodes; [done|].
  rewrite <- Hnodes in *.
  assert (Hn0 : nodes h !! O = Some n0) by by rewrite Hnodes.
  rewrite Hn0 in Hentry.
  assert (Hlay : (length (neighbors n0) <= Z.to_nat (maxLevel h))%nat).
  { destruct (decide (length (neighbors n0) <= Z.to_nat (maxLevel h))%nat);
      [done|]. destruct Hentry. intros _. lia. }
  set (newNode := mkNode pt (replicate (Z.to_nat (level + 1)) [])).
  assert (H0 : (nodes h ++ [newNode]) !! O = Some n0).
  { rewrite lookup_app_l; [done|]. rewrite Hnodes. simpl. lia. }
  rewrite length_replicate.
  destruct (Z.to_nat (maxLevel h - (Z.of_nat (Z.to_nat (level + 1)) - 1)))
    as [|c] eqn:Hcnt.
  - cbn [descend bind].
    destruct (Z.to_nat
                (Z.min (maxLevel h) (Z.of_nat (Z.to_nat (level + 1)) - 1) + 1))
      as [|l] eqn:Hl; [lia|].
    cbn [link_levels]. unfold deref at 1.
    rewrite list_lookup_middle by done. cbn [bind point newNode].
    rewrite (searchLayer_no_layer _ pt O _ _ n0 Hirr H0); [done|]. lia.
  - cbn [descend].
    rewrite (searchLayer_no_layer _ pt O _ _ n0 Hirr H0); [done|]. lia.
Qed.

(** X12.  When [insert] can return.  On a non-empty index that completed
    its insertions, for a point no longer than the stored vectors and a
    sampled level of at least -1, [insert] returns exactly when the first
    node has layer 0 and no node has a higher top layer than the first one.
    Once a node taller than the first one is stored, every later
    insertion indexes [neighbors] of [graph.nodes[0]] past its end.  [<] on
    [float] is taken irreflexive. *)
Theorem insert_returns_iff (M ef : Z) (mult : F) (pts : list (Point F)) h pt :
  insert_all (HNSW_new M ef mult) pts = Ok h -> nodes h <> [] ->
  fits (nodes h) pt ->
  -1 <= (draw_level (generator h) (levelMult h)).1 ->
  (forall a : F, flt a a = false) ->
  (exists h', insert h pt = Ok h') <-> first_is_tallest (nodes h).
Proof.
  intros Hall Hne Hfits Hlevel Hirr.
  pose proof (reachable_insert_all _ _ _ (reachable_new M ef mult) Hall) as Hr.
  rewrite <- (entry_ok_tallest h Hr Hne). split.
  - intros [h' Hins]. destruct (decide (entry_ok h)) as [|Hno]; [done|].
    rewrite (insert_needs_entry h pt Hirr Hne (reachable_maxLevel h Hr) Hno
               Hlevel) in Hins. done.
  - intros Hentry. apply insert_total; try done.
    + by apply reachable_graph_ok.
    + by apply reachable_maxLevel.
Qed.

Lemma reachable_levels h (pts : list (Point F)) h' :
  reachable h -> insert_all h pts = Ok h' ->
  let drawn := drawn_levels (levelMult h) (length pts) (generator h) in
  generator h' = drawn.2 /\
  top_layer <$> nodes h' = (top_layer <$> nodes h) ++ drawn.1.
Proof.
  unfold insert_all. revert h. induction pts as [|pt pts IH]; intros h Hr H;
    simpl in H.
  - injection H as <-. simpl. by rewrite app_nil_r.
  - bind_inv H as h1 Hh1.
    pose proof (reachable_graph_ok _ Hr) as Hok.
    destruct (insert_Ok _ _ _ Hok Hh1)
      as (_ & _ & _ & _ & _ & _ & _ & Hmult & Hdraw).
    destruct (IH h1 ltac:(by eapply reachable_insert) H) as [Hgen Hlist].
    cbn [length drawn_levels]. rewrite Hdraw. rewrite Hmult in Hgen, Hlist.
    destruct (drawn_levels (levelMult h) (length pts) (generator h1))
      as [levels g] eqn:Hrest.
    simpl in *. split; [done|].
    by rewrite Hlist, (top_layer_snoc _ _ _ Hok Hh1), <- app_assoc.
Qed.

(** X13.  The top layer of the i-th stored node is the level returned by
    the i-th call of [getRandomLevel] on the default-constructed engine, and
    after [n] insertions the engine has been advanced [n] times: linking
    never adds or removes a layer, and nothing else draws from the
    engine. *)
Theorem levels_from_engine (M ef : Z) (mult : F) (pts : list (Point F)) h :
  insert_all (HNSW_new M ef mult) pts = Ok h ->
  top_layer <$> nodes h = (drawn_levels mult (length pts) default_engine).1 /\
  generator h = (drawn_levels mult (length pts) default_engine).2.
Proof.
  intros Hall.
  destruct (reachable_levels _ _ _ (reachable_new M ef mult) Hall)
    as [Hgen Hlist].
  done.
Qed.

Lemma select_loop_take (M : Z) (top : list (F * nat)) (chosen : list nat)
  (selected : gset nat) :
  (forall n, n ∈ chosen <-> n ∈ selected) -> NoDup (chosen ++ top.*2) ->
  select_loop M top chosen selected =
    chosen ++ take (Z.to_nat (size_t_of_int M) - length chosen) top.*2.
Proof.
  revert chosen selected.
  induction top as [|[d n] top IH]; intros chosen selected Hsel Hnd; simpl.
  - by rewrite take_nil, app_nil_r.
  - destruct (Z.ltb_spec (Z.of_nat (length chosen)) (size_t_of_int M)).
    + rewrite decide_False.
      2:{ rewrite <- Hsel. intros Hin.
          apply NoDup_app in Hnd as (_ & Hdis & _).
          apply (Hdis n Hin). by left. }
      rewrite IH.
      * rewrite length_app. simpl.
        replace (Z.to_nat (size_t_of_int M) - length chosen)%nat
          with (S (Z.to_nat (size_t_of_int M) - (length chosen + 1)))
          by lia.
        simpl. by rewrite <- app_assoc.
      * intros m. rewrite elem_of_app, elem_of_union, Hsel. set_solver.
      * by rewrite <- app_assoc.
    + replace (Z.to_nat (size_t_of_int M) - length chosen)%nat with O by lia.
      by rewrite app_nil_r.
Qed.

(** X14.  [selectNeighbors] links the new node with the first
    [maxNeighbors] nodes of the queue a layer search returned, in the order
    the queue pops them, or with all of them when there are fewer.
    ([maxNeighbors] counts as a [size_t].) *)
Theorem selectNeighbors_takes_queue_order (M : Z) heap (query : Point F)
  (enterPoint : nat) (level ef : Z) (top : list (F * nat)) (newNode : nat)
  (lvl : Z) :
  searchLayer heap query enterPoint level ef = Ok top ->
  selectNeighbors M heap newNode top lvl =
    foldM (link newNode lvl) heap
          (take (Z.to_nat (size_t_of_int M)) top.*2).
Proof.
  intros Hsearch. unfold selectNeighbors.
  rewrite (select_loop_take M top [] ∅); simpl.
  - by rewrite Nat.sub_0_r.
  - set_solver.
  - by eapply searchLayer_NoDup.
Qed.

(** ** euclideanDistance and the comparison of points *)

Lemma sum_squares_prefix (c1 c2 c2' : list F) (acc : F) :
  take (length c1) c2 = take (length c1) c2' ->
  sum_squares acc c1 c2 = sum_squares acc c1 c2'.
Proof.
  revert c2 c2' acc. induction c1 as [|x c1 IH]; intros c2 c2' acc H;
    simpl; [done|].
  destruct c2 as [|y c2], c2' as [|y' c2']; simpl in H; try done.
  injection H as -> H. by apply IH.
Qed.

(** X16.  [euclideanDistance(p1, p2)] is defined exactly when [p2] has at
    least as many coordinates as [p1], and it reads nothing of [p2] but its
    first [p1.coordinates.size()] coordinates: two points that agree on
    them, whatever their further coordinates and labels, are at the same
    distance of [p1]. *)
Theorem euclideanDistance_reads_prefix (p1 p2 p2' : Point F) :
  ((exists d, euclideanDistance p1 p2 = Ok d) <->
   (length (coordinates p1) <= length (coordinates p2))%nat) /\
  (take (length (coordinates p1)) (coordinates p2)
     = take (length (coordinates p1)) (coordinates p2') ->
   euclideanDistance p1 p2 = euclideanDistance p1 p2').
Proof.
  split.
  - split; [|apply euclideanDistance_Ok].
    intros [d Hd].
    destruct (decide (length (coordinates p1) <= length (coordinates p2))%nat)
      as [|Hgt]; [done|].
    rewrite euclideanDistance_Err in Hd by lia. done.
  - intros H. unfold euclideanDistance.
    by rewrite (sum_squares_prefix _ _ _ f0 H).
Qed.

Lemma lexicographical_compare_asym (c1 c2 : list F) :
  (forall a b : F, flt a b = true -> flt b a = false) ->
  lexicographical_compare c1 c2 = true ->
  lexicographical_compare c2 c1 = false.
Proof.
  intros Hasym. revert c2.
  induction c1 as [|x c1 IH]; intros [|y c2] H; simpl in *; try done.
  destruct (flt x y) eqn:Hxy.
  - by rewrite (Hasym _ _ Hxy).
  - destruct (flt y x); [done|]. by apply IH.
Qed.

Lemma lexicographical_compare_trans (c1 c2 c3 : list F) :
  (forall a b : F, flt a b = true -> flt b a = false) ->
  (forall a b c : F, flt a c = true -> flt a b = true \/ flt b c = true) ->
  lexicographical_compare c1 c2 = true ->
  lexicographical_compare c2 c3 = true ->
  lexicographical_compare c1 c3 = true.
Proof.
  intros Hasym Hco. revert c2 c3.
  induction c1 as [|x c1 IH]; intros [|y c2] [|z c3] H12 H23;
    simpl in *; try done.
  destruct (flt x y) eqn:Hxy.
  - destruct (Hco x z y Hxy) as [Hxz|Hzy]; [by rewrite Hxz|].
    rewrite (Hasym _ _ Hzy) in H23. by rewrite Hzy in H23.
  - destruct (flt y x) eqn:Hyx; [done|].
    destruct (flt y z) eqn:Hyz.
    + destruct (Hco y x z Hyz) as [Hyx'|Hxz]; [congruence | by rewrite Hxz].
    + destruct (flt z y) eqn:Hzy; [done|].
      destruct (flt x z) eqn:Hxz.
      { destruct (Hco x y z Hxz); congruence. }
      destruct (flt z x) eqn:Hzx.
      { destruct (Hco z y x Hzx); congruence. }
      by apply (IH c2 c3).
Qed.

(** X17.  [Point::operator<] is a strict order whenever [<] on [float] is
    a strict weak order (asymmetric and negatively transitive, as it is on
    floats that are not NaN): no point is below itself, two points are
    never below each other, and the order is transitive.  The label plays
    no part: points with the same coordinates are never ordered. *)
Theorem Point_lt_strict_order (p q r : Point F) :
  (forall a b : F, flt a b = true -> flt b a = false) ->
  (forall a b c : F, flt a c = true -> flt a b = true \/ flt b c = true) ->
  Point_lt p p = false /\
  (Point_lt p q = true -> Point_lt q p = false) /\
  (Point_lt p q = true -> Point_lt q r = true -> Point_lt p r = true) /\
  (coordinates p = coordinates q -> Point_lt p q = false).
Proof.
  intros Hasym Hco. unfold Point_lt.
  assert (Hirr : forall c, lexicographical_compare c c = false).
  { intros c. destruct (lexicographical_compare c c) eqn:Hc; [|done].
    by rewrite (lexicographical_compare_asym c c Hasym Hc) in Hc. }
  split_and!.
  - apply Hirr.
  - by apply lexicographical_compare_asym.
  - by apply lexicographical_compare_trans.
  - intros ->. apply Hirr.
Qed.

(** ** The result is never farther than the start *)

Lemma searchLayer_keeps_close heap (query : Point F) (enterPoint : nat)
  (level ef : Z) (top : list (F * nat)) :
  (forall a b : F, flt a b = true -> flt b a = false) ->
  (forall a b c : F, flt a c = true -> flt a b = true \/ flt b c = true) ->
  searchLayer heap query enterPoint level ef = Ok top ->
  exists lb d p,
    dist_to heap query enterPoint lb /\ (d, p) ∈ top /\ flt lb d = false.
Proof.
  intros Hasym Hco H.
  assert (Hlb : exists lb, dist_to heap query enterPoint lb).
  { unfold searchLayer in H. bind_inv H as ep Hep. bind_inv H as lb Hlb.
    apply deref_Ok in Hep. exists lb. by exists ep. }
  destruct Hlb as [lb Hlb]. exists lb.
  destruct (searchLayer_keeps
              (fun t _ _ => descending t /\
                            exists e, e ∈ t /\ flt lb e.1 = false)
              heap query enterPoint level ef top)
    as (_ & _ & _ & [d p] & Hin & Hle); [ | | exact H | by exists d, p].
  - intros st n st' [Hdesc (e & He & Hle)]
      [[-> _]|(_ & _ & d & _ & Hcase)]%visit_cases; [eauto|].
    cbv zeta in Hcase.
    destruct Hcase as [(_ & -> & _)|(_ & _ & Hcase)]; [eauto|].
    pose proof (pq_push_descending (d, n) _ Hasym Hdesc) as Hdesc'.
    assert (Hin' : e ∈ pq_push pair_lt (d, n) (topCandidates st))
      by (apply elem_of_pq_push; by right).
    destruct Hcase as [(_ & -> & _)|(_ & w & rest & Hw & -> & _)]; [eauto|].
    split; [by apply descending_tail|].
    destruct (pq_push pair_lt (d, n) (topCandidates st)) as [|hd tl];
      [done|].
    simpl in *. subst tl.
    apply elem_of_cons in Hin' as [->|Hin']; [|eauto].
    exists w. split; [by left|].
    destruct Hdesc' as [Hhw _].
    destruct (flt lb w.1) eqn:Hlw; [|done].
    destruct (Hco lb hd.1 w.1 Hlw); congruence.
  - intros lb' Hlb'. rewrite (dist_to_unique _ _ _ _ _ Hlb' Hlb).
    split; [done|]. exists (lb, enterPoint). split; [by left|]. simpl.
    destruct (flt lb lb) eqn:Hll; [|done]. by rewrite (Hasym _ _ Hll) in Hll.
Qed.

(** X18.  [search] never returns only points that are farther from the
    query than [graph.nodes[0]], the node every search starts from: one of
    the results is at least as close.  [<] on [float] is taken asymmetric
    and negatively transitive (a strict weak order). *)
Theorem search_reaches_start_distance h (query : Point F) (k : Z)
  (results : list (Point F)) (n0 : Node F) :
  (forall a b : F, flt a b = true -> flt b a = false) ->
  (forall a b c : F, flt a c = true -> flt a b = true \/ flt b c = true) ->
  search h query k = Ok results -> nodes h !! O = Some n0 ->
  exists d0 p d,
    euclideanDistance query (point n0) = Ok d0 /\
    p ∈ results /\ euclideanDistance query p = Ok d /\
    flt d0 d = false.
Proof.
  intros Hasym Hco Hsearch Hn0.
  assert (Htrans : forall a b c : F,
            flt a b = true -> flt b c = true -> flt a c = true).
  { intros a b c Hab Hbc. destruct (Hco a c b Hab) as [Hac|Hcb]; [done|].
    by rewrite (Hasym _ _ Hbc) in Hcb. }
  unfold search in Hsearch.
  destruct (nodes h) as [|n ns] eqn:Hnodes; [done|].
  rewrite <- Hnodes in *.
  bind_inv Hsearch as ep Hep. bind_inv Hsearch as top Htop.
  apply drain_Ok in Hsearch.
  destruct (searchLayer_Ok _ _ _ _ _ (fun _ => True) _ I ltac:(done) Htop)
    as [Hentries _].
  destruct (searchLayer_keeps_close _ _ _ _ _ _ Hasym Hco Htop)
    as (lb & d & p & Hlb & Hin & Hle).
  destruct (Hentries d p Hin) as (_ & nd & Hnd & Hd).
  apply list_elem_of_lookup_1 in Hin as [i Hi].
  destruct (Forall2_lookup_l _ _ _ _ _ Hsearch Hi) as (pt & Hpt & nd' & Hnd' & <-).
  simpl in Hnd'. assert (nd' = nd) as -> by congruence.
  assert (Hd0 : exists d0, dist_to (nodes h) query O d0 /\ flt d0 d = false).
  { destruct (descend_closer _ _ _ _ _ _ Htrans Hep)
      as [->|(d0 & dep & Hd0 & Hdep & Hlt)]; [by exists lb|].
    exists d0. split; [done|].
    rewrite (dist_to_unique _ _ _ _ _ Hdep Hlb) in Hlt.
    destruct (flt d0 d) eqn:Hd0d; [|done].
    by rewrite (Htrans _ _ _ Hlt Hd0d) in Hle. }
  destruct Hd0 as (d0 & (n0' & Hn0' & Hdist) & Hle0).
  assert (n0' = n0) as -> by congruence.
  exists d0, (point nd), d. split_and!; try done.
  by eapply list_elem_of_lookup_2.
Qed.

(** ** A one-point index, and when a whole run returns *)

(** X19.  An index that holds a single point, inserted at a level of at
    least 0, answers every query that is no longer than that point with
    exactly that point, whatever [k] is. *)
Theorem single_point_index (M ef : Z) (mult : F) pt h (query : Point F)
  (k : Z) :
  insert (HNSW_new M ef mult) pt = Ok h ->
  0 <= (draw_level default_engine mult).1 ->
  (length (coordinates query) <= length (coordinates pt))%nat ->
  search h query k = Ok [pt].
Proof.
  unfold insert, getRandomLevel, HNSW_new. simpl.
  destruct (draw_level default_engine mult) as [level g]. simpl.
  unfold new_Node. destruct (Z.ltb_spec (level + 1) 0); [discriminate|].
  simpl. intros [= <-] Hlevel Hlen.
  unfold search, searchLayer, deref. simpl.
  destruct (euclideanDistance_Ok query pt Hlen) as [lb ->]. simpl.
  destruct (flt lb lb); [done|].
  destruct (Z.to_nat (level + 1)) as [|n] eqn:Hn; [lia|]. simpl.
  destruct (flt lb lb); done.
Qed.

Lemma insert_entry_ok h pt h' :
  reachable h -> entry_ok h -> insert h pt = Ok h' ->
  match nodes h with
  | [] => 0 <= (draw_level (generator h) (levelMult h)).1
  | n0 :: _ => (draw_level (generator h) (levelMult h)).1 <= top_layer n0
  end ->
  entry_ok h'.
Proof.
  intros Hr Hentry Hins Hlevel.
  pose proof (reachable_graph_ok h Hr) as Hok.
  pose proof (reachable_maxLevel h Hr) as HmL.
  pose proof (reachable_maxLevel_formula h Hr) as Hformula.
  pose proof (insert_maxLevel _ _ _ Hok Hins) as HmL'.
  destruct (insert_Ok _ _ _ Hok Hins)
    as (_ & Hlen & _ & Hlay & _ & _ & _ & _ & Hdraw).
  rewrite Hdraw in Hlevel. simpl in Hlevel.
  unfold entry_ok in *. intros _. rewrite HmL'.
  destruct (nodes h) as [|n0 ns] eqn:Hnodes.
  - simpl in *. lia.
  - rewrite <- Hnodes in *.
    specialize (Hentry ltac:(by rewrite Hnodes)).
    rewrite (Hlay O) by (rewrite Hnodes; simpl; lia).
    assert (Hl0 : layers (nodes h) 0 = length (neighbors n0)).
    { unfold layers. by rewrite Hnodes. }
    unfold top_layer in Hlevel. lia.
Qed.

Lemma reachable_build h (pts : list (Point F)) (D : nat) :
  reachable h -> entry_ok h ->
  Forall (fun nd => length (coordinates (point nd)) = D) (nodes h) ->
  Forall (fun pt => length (coordinates pt) = D) pts ->
  match nodes h with
  | [] =>
      first_level_highest
        (drawn_levels (levelMult h) (length pts) (generator h)).1
  | n0 :: _ =>
      Forall (fun l => -1 <= l <= top_layer n0)
        (drawn_levels (levelMult h) (length pts) (generator h)).1
  end ->
  exists h', insert_all h pts = Ok h' /\ entry_ok h'.
Proof.
  unfold insert_all. revert h.
  induction pts as [|pt pts IH]; intros h Hr Hentry Hdim Hpts Hlevels;
    simpl.
  - eauto.
  - apply Forall_cons in Hpts as [Hpt Hpts].
    cbn [length drawn_levels] in Hlevels.
    destruct (draw_level (generator h) (levelMult h)) as [level g] eqn:Hdraw.
    destruct (drawn_levels (levelMult h) (length pts) g) as [levels g']
      eqn:Hrest.
    simpl in Hlevels.
    pose proof (reachable_graph_ok h Hr) as Hok.
    assert (Hlevel : -1 <= level).
    { destruct (nodes h); [lia|].
      apply Forall_cons in Hlevels as [? _]. lia. }
    destruct (insert_total h pt Hok (reachable_maxLevel h Hr) Hentry)
      as [h1 Hh1].
    { intros r nd Hnd. rewrite Forall_forall in Hdim.
      rewrite Hpt, (Hdim nd); [done|]. by eapply list_elem_of_lookup_2. }
    { by rewrite Hdraw. }
    rewrite Hh1. simpl.
    destruct (insert_Ok _ _ _ Hok Hh1)
      as (_ & Hlen & Hpoints & Hlay & _ & _ & _ & Hmult & Hdraw').
    rewrite Hdraw in Hdraw'. injection Hdraw' as Hlevel' Hg.
    apply (IH h1).
    + by eapply reachable_insert.
    + eapply insert_entry_ok; [done | done | exact Hh1 | ].
      rewrite Hdraw. simpl. destruct (nodes h); [lia|].
      apply Forall_cons in Hlevels as [? _]. lia.
    + rewrite Forall_forall. intros nd Hnd.
      assert (Hin : point nd ∈ point <$> nodes h1)
        by (apply list_elem_of_fmap; eauto).
      rewrite Hpoints in Hin.
      apply elem_of_app in Hin as [Hin|Hin%list_elem_of_singleton].
      * apply list_elem_of_fmap in Hin as (nd0 & -> & Hnd0).
        rewrite Forall_forall in Hdim. by apply Hdim.
      * by rewrite Hin.
    + done.
    + rewrite Hmult, <- Hg, Hrest. simpl.
      destruct (nodes h) as [|n0 ns] eqn:Hnodes.
      * destruct (nodes h1) as [|n1 ns1] eqn:Hnodes1; [simpl in Hlen; lia|].
        destruct Hlevels as [H0 Hall].
        assert (Htop : top_layer n1 = level).
        { unfold top_layer. rewrite Hlevel'. by unfold layers. }
        by rewrite Htop.
      * apply Forall_cons in Hlevels as [_ Hall].
        destruct (nodes h1) as [|n1 ns1] eqn:Hnodes1; [simpl in Hlen; lia|].
        assert (Hsame : top_layer n1 = top_layer n0).
        { specialize (Hlay O ltac:(simpl; lia)). unfold layers in Hlay.
          simpl in Hlay. unfold top_layer. lia. }
        by rewrite Hsame.
Qed.

(** X20.  When a whole run returns.  If the points all have the same
    number of coordinates, the first sampled level is at least 0 and every
    later level lies between -1 and the first one, then every insertion of
    the run returns, and so does every search on the index built, for a
    query with that number of coordinates. *)
Theorem build_returns (M ef : Z) (mult : F) (pts : list (Point F))
  (D : nat) :
  Forall (fun pt => length (coordinates pt) = D) pts ->
  first_level_highest (drawn_levels mult (length pts) default_engine).1 ->
  exists h,
    insert_all (HNSW_new M ef mult) pts = Ok h /\
    forall (query : Point F) (k : Z),
      length (coordinates query) = D ->
      exists results, search h query k = Ok results.
Proof.
  intros Hpts Hlevels.
  assert (Hbuild : exists h, insert_all (HNSW_new M ef mult) pts = Ok h /\
                             entry_ok h).
  { apply (reachable_build (HNSW_new M ef mult) pts D
             (reachable_new M ef mult)); try done.
    by intros Hne. }
  destruct Hbuild as (h & Hall & Hentry).
  exists h. split; [done|]. intros query k Hq.
  pose proof (reachable_insert_all _ _ _ (reachable_new M ef mult) Hall) as Hr.
  apply search_total; try done.
  - by apply reachable_graph_ok.
  - by apply reachable_maxLevel.
  - intros r nd Hnd.
    assert (Hin : point nd ∈ point <$> nodes h)
      by (apply list_elem_of_fmap; exists nd; split;
          [done | by eapply list_elem_of_lookup_2]).
    rewrite (insert_all_points _ _ _ (reachable_new M ef mult) Hall) in Hin.
    simpl in Hin. rewrite Forall_forall in Hpts. rewrite Hq, (Hpts _ Hin).
    done.
Qed.

End MoreProperties.

(** ** The further properties at work *)

Module MoreFacts.

Import Scenario MoreScenario.

Lemma Z_ltb_irrefl (a : Z) : (a <? a) = false.
Proof. apply Z.ltb_irrefl. Qed.

Lemma Z_ltb_asymmetric (a b : Z) : (a <? b) = true -> (b <? a) = false.
Proof. intros H. apply Z.ltb_lt in H. apply Z.ltb_ge. lia. Qed.

Lemma Z_ltb_trans (a b c : Z) :
  (a <? b) = true -> (b <? c) = true -> (a <? c) = true.
Proof. rewrite !Z.ltb_lt. lia. Qed.

Lemma Z_ltb_cotrans (a b c : Z) :
  (a <? c) = true -> (a <? b) = true \/ (b <? c) = true.
Proof. rewrite !Z.ltb_lt. lia. Qed.

Lemma one_coordinate (heap : list (Node Z)) (q : Point Z) :
  length (coordinates q) = 1%nat ->
  Forall (fun nd => length (coordinates (point nd)) = 1%nat) heap ->
  fits heap q.
Proof.
  intros Hq Hall r nd Hnd. rewrite Forall_forall in Hall.
  rewrite Hq, (Hall nd); [done|]. by eapply list_elem_of_lookup_2.
Qed.

Lemma build_chain : build ascending [] 1 2 [A; B; C] = Ok chain.
Proof. vm_compute. reflexivity. Qed.

Lemma build_two : build ascending [] 1 2 [A; B] = Ok two.
Proof. vm_compute. reflexivity. Qed.

Lemma insert_two_C : insert_in ascending [] two C = Ok chain.
Proof. vm_compute. reflexivity. Qed.

Lemma neighbours_are_stored_witness :
  edge (nodes chain) 1 0 2 /\
  (1 < length (nodes chain))%nat /\ (0 < layers (nodes chain) 1)%nat /\
  (2 < length (nodes chain))%nat /\ (0 < layers (nodes chain) 2)%nat.
Proof.
  assert (He : edge (nodes chain) 1 0 2).
  { change (2%nat ∈ [0%nat; 2%nat]). by right; left. }
  split; [exact He|].
  apply (@neighbours_are_stored Z Z_float ascending (list Z) (scripted [])
           1 2 0 [A; B; C] chain 1 0 2 build_chain He).
Defined.

Lemma insert_only_appends_witness :
  nbrs (nodes chain) 1 0 = nbrs (nodes two) 1 0 \/
  nbrs (nodes chain) 1 0 = nbrs (nodes two) 1 0 ++ [length (nodes two)].
Proof.
  apply (@insert_only_appends Z Z_float ascending (list Z) (scripted [])
           1 2 0 [A; B] two C chain build_two insert_two_C).
  simpl. lia.
Defined.

Lemma insert_links_new_node_witness :
  edge (nodes chain) 1 0 2 /\
  (edge (nodes two) 1 0 2 \/
   1%nat = length (nodes two) /\ (2 < length (nodes two))%nat \/
   2%nat = length (nodes two) /\ (1 < length (nodes two))%nat).
Proof.
  assert (He : edge (nodes chain) 1 0 2).
  { change (2%nat ∈ [0%nat; 2%nat]). by right; left. }
  split; [exact He|].
  apply (@insert_links_new_node Z Z_float ascending (list Z) (scripted [])
           1 2 0 [A; B] two C chain 1 0 2 build_two insert_two_C He).
Defined.

Lemma graph_is_simple_witness :
  NoDup (nbrs (nodes chain) 1 0) /\ ~ edge (nodes chain) 1 0 1.
Proof.
  apply (@graph_is_simple Z Z_float ascending (list Z) (scripted [])
           1 2 0 [A; B; C] chain 1 0 build_chain).
Defined.

Lemma new_node_linked_layers_witness :
  nbrs (nodes chain) (length (nodes two)) 0 <> [] <->
  nodes two <> [] /\ Z.of_nat 0 <= maxLevel two /\
  (0 < layers (nodes chain) (length (nodes two)))%nat.
Proof.
  apply (@new_node_linked_layers Z Z_float ascending (list Z) (scripted [])
           1 2 0 [A; B] two C chain 0 build_two); [reflexivity|].
  exact insert_two_C.
Defined.

Lemma base_layer_has_no_isolated_node_witness :
  nbrs (nodes chain) 0 0 <> [].
Proof.
  apply (@base_layer_has_no_isolated_node Z Z_float ascending (list Z)
           (scripted []) 1 2 0 [A; B; C] chain 0 build_chain).
  - reflexivity.
  - intros [|[|[|b]]] Hb; vm_compute; simpl in Hb; lia.
  - simpl. lia.
  - simpl. lia.
Defined.

Lemma greedy_descent_gets_closer_witness :
  @descend Z Z_float ascending (nodes layered) Q5 0 1 0 = Ok 2%nat /\
  (2%nat = 0%nat \/
   exists d d',
     @dist_to Z Z_float (nodes layered) Q5 0 d /\
     @dist_to Z Z_float (nodes layered) Q5 2 d' /\
     (d' <? d) = true).
Proof.
  assert (H : @descend Z Z_float ascending (nodes layered) Q5 0 1 0
              = Ok 2%nat) by (vm_compute; reflexivity).
  split; [exact H|].
  apply (@greedy_descent_gets_closer Z Z_float ascending (nodes layered) Q5
           0 1 0 2 Z_ltb_trans H).
Defined.

Lemma search_chain : query ascending chain Q 3 = Ok [B; A].
Proof. vm_compute. reflexivity. Qed.

Lemma search_result_count_witness :
  nodes chain = [] /\ [B; A] = [] \/
  nodes chain <> [] /\
  1 <= Z.of_nat (length [B; A]) <= Z.max 1 (size_t_of_int 3).
Proof.
  apply (@search_result_count Z Z_float ascending (list Z) chain Q 3 [B; A]
           search_chain).
Defined.

Lemma search_results_are_nodes_witness :
  exists refs : list nat,
    NoDup refs /\
    Forall2 (fun r p => exists nd, nodes chain !! r = Some nd /\ point nd = p)
            refs [B; A] /\
    forall r, r ∈ refs -> connected (nodes chain) 0 r.
Proof.
  apply (@search_results_are_nodes Z Z_float ascending (list Z) chain Q 3
           [B; A] search_chain).
Defined.

Lemma build_stale : build ascending [0; 2] 4 200 [A; B] = Ok stale.
Proof. vm_compute. reflexivity. Qed.

Lemma maxLevel_formula_witness :
  maxLevel stale = foldr Z.max 0 (top_layer <$> tail (nodes stale)).
Proof.
  apply (@maxLevel_formula Z Z_float ascending (list Z) (scripted [0; 2])
           4 200 0 [A; B] stale build_stale).
Defined.

Lemma search_returns_iff_witness :
  (exists results, query ascending chain Q 3 = Ok results) <->
  first_is_tallest (nodes chain).
Proof.
  apply (@search_returns_iff Z Z_float ascending (list Z) (scripted [])
           1 2 0 [A; B; C] chain Q 3 build_chain).
  - discriminate.
  - apply one_coordinate; [reflexivity | repeat constructor].
  - exact Z_ltb_irrefl.
Defined.

Lemma insert_returns_iff_witness :
  (exists h', insert_in ascending [] two C = Ok h') <->
  first_is_tallest (nodes two).
Proof.
  apply (@insert_returns_iff Z Z_float ascending (list Z) (scripted [])
           1 2 0 [A; B] two C build_two).
  - discriminate.
  - apply one_coordinate; [reflexivity | repeat constructor].
  - vm_compute. discriminate.
  - exact Z_ltb_irrefl.
Defined.

Lemma levels_from_engine_witness :
  top_layer <$> nodes stale = [0; 2] /\ generator stale = [].
Proof.
  apply (@levels_from_engine Z Z_float ascending (list Z) (scripted [0; 2])
           4 200 0 [A; B] stale build_stale).
Defined.

Lemma selectNeighbors_takes_queue_order_witness :
  @searchLayer Z Z_float ascending (nodes two ++ [mkNode C [[]]]) C 0 0 2
    = Ok [(6, 1%nat); (4, O)] /\
  selectNeighbors 1 (nodes two ++ [mkNode C [[]]]) 2 [(6, 1%nat); (4, O)] 0
    = foldM (link 2 0) (nodes two ++ [mkNode C [[]]]) [1%nat].
Proof.
  assert (H : @searchLayer Z Z_float ascending (nodes two ++ [mkNode C [[]]])
                C 0 0 2 = Ok [(6, 1%nat); (4, O)])
    by (vm_compute; reflexivity).
  split; [exact H|].
  apply (@selectNeighbors_takes_queue_order Z Z_float ascending 1
           (nodes two ++ [mkNode C [[]]]) C 0 0 2 [(6, 1%nat); (4, O)] 2 0 H).
Defined.

Lemma Point_lt_strict_order_witness :
  @Point_lt Z Z_float A A = false /\
  (@Point_lt Z Z_float A C = true -> @Point_lt Z Z_float C A = false) /\
  (@Point_lt Z Z_float A C = true -> @Point_lt Z Z_float C B = true ->
   @Point_lt Z Z_float A B = true) /\
  (coordinates A = coordinates C -> @Point_lt Z Z_float A C = false).
Proof.
  apply (@Point_lt_strict_order Z Z_float A C B Z_ltb_asymmetric
           Z_ltb_cotrans).
Defined.

Lemma search_reaches_start_distance_witness :
  exists d0 p d,
    @euclideanDistance Z Z_float Q A = Ok d0 /\
    p ∈ [B; A] /\ @euclideanDistance Z Z_float Q p = Ok d /\
    (d0 <? d) = false.
Proof.
  apply (@search_reaches_start_distance Z Z_float ascending (list Z) chain Q
           3 [B; A] (mkNode A [[1%nat]]) Z_ltb_asymmetric Z_ltb_cotrans
           search_chain).
  reflexivity.
Defined.

Lemma insert_first_A4 :
  @insert Z Z_float ascending (list Z) (scripted [])
    (@HNSW_new Z (list Z) (scripted []) 4 200 0) A4 = Ok single.
Proof. vm_compute. reflexivity. Qed.

Lemma single_point_index_witness :
  @search Z Z_float ascending (list Z) single P2 3 = Ok [A4].
Proof.
  apply (@single_point_index Z Z_float ascending (list Z) (scripted [])
           4 200 0 A4 single P2 3 insert_first_A4).
  - simpl. lia.
  - simpl. lia.
Defined.

Lemma build_returns_witness :
  exists h,
    build ascending [1; 0; -1] 1 2 [A; B; C] = Ok h /\
    forall (q : Point Z) (k : Z),
      length (coordinates q) = 1%nat ->
      exists results,
        @search Z Z_float ascending (list Z) h q k = Ok results.
Proof.
  apply (@build_returns Z Z_float ascending (list Z) (scripted [1; 0; -1])
           1 2 0 [A; B; C] 1).
  - repeat (apply Forall_cons_2; [reflexivity|]). apply Forall_nil_2.
  - change (first_level_highest [1; 0; -1]). simpl. split; [lia|].
    repeat (apply Forall_cons_2; [lia|]). apply Forall_nil_2.
Defined.

End MoreFacts.
